(** * A backtracking parser-combinator engine (grammar.py)

    Shallow embedding of the grammar nodes of [grammar.py], of their
    preparation pass, of the tree builder [_build] and of the lazy [parse]
    generators, followed by the properties of the specification that were
    checked against it.

    Python objects live in a heap indexed by locations, so that a node can be
    shared by several parents and a production can refer to itself.  A Python
    generator is a value of type [gen] (its program point and its locals), and
    [next] is one call of Python's [next()] on it. *)

From Stdlib Require Import Strings.String Strings.Ascii.
From stdpp Require Import gmap.

Local Open Scope string_scope.
Local Open Scope nat_scope.
Local Open Scope list_scope.
Local Set Warnings "-register-all".

(** ** Python strings *)

(** [text.startswith(pre)] *)
Fixpoint startswith (text pre : string) {struct pre} : bool :=
  match pre with
  | EmptyString => true
  | String a pre' =>
      match text with
      | EmptyString => false
      | String b text' => if Ascii.eqb a b then startswith text' pre' else false
      end
  end.

(** The slice [text[n:]] *)
Fixpoint slice_from (n : nat) (text : string) : string :=
  match n with
  | O => text
  | S n' =>
      match text with
      | EmptyString => EmptyString
      | String _ text' => slice_from n' text'
      end
  end.

(** The slice [text[:n]] *)
Fixpoint slice_to (n : nat) (text : string) : string :=
  match n with
  | O => EmptyString
  | S n' =>
      match text with
      | EmptyString => EmptyString
      | String a text' => String a (slice_to n' text')
      end
  end.

(** [rem] is what is left of [text] once a prefix of it has been consumed. *)
Definition is_suffix (rem text : string) : Prop :=
  exists consumed : string, text = String.append consumed rem.

(** ** Parse results *)

(** What [_build] receives and returns: a raw terminal string, the
    [_discard_marker] singleton, an [_InlineMarker] or a [Tree]. *)
Inductive result : Type :=
| RStr (s : string)
| RDiscard
| RInline (data : list result)
| RTree (name : string) (children : list result).

(** ** Grammar nodes *)

Definition loc : Type := nat.

(** The subclasses of [BaseGrammarNode] with the attributes their
    [__init__] stores.  [Regex] keeps the compiled pattern [_re]: the regular
    expression engine is not part of the program, so [_re] is the function
    that, for a text, gives [m.end(0)] of the match anchored at position 0
    when there is one. *)
Inductive kind : Type :=
| Symbol (text : string)
| Regex (text : string) (_re : string -> option nat)
| Option (options : list loc)
| Sequence (sequence : list loc)
| Repetition (base : loc) (mi : nat) (ma : option nat).

(** The attributes of [BaseGrammarNode]; [None] is Python's [None]. *)
Record node : Type := Node {
  name : option string;
  discard : option bool;
  inline : option bool;
  _prepared : bool;
  cls : kind
}.

Abbreviation heap := (gmap loc node).

(** [isinstance(self, Symbol)] *)
Definition is_Symbol (n : node) : bool :=
  match cls n with
  | Symbol _ => true
  | _ => false
  end.

(** The nodes a combinator refers to, in the order its [prepare] descends
    into them. *)
Definition sub_nodes (k : kind) : list loc :=
  match k with
  | Symbol _ | Regex _ _ => []
  | Option options => options
  | Sequence sequence => sequence
  | Repetition base _ _ => [base]
  end.

(** ** Errors *)

(** [IndexError] is what [self.sequence[0]] raises on an empty list;
    [AttributeError] is what calling a method of something that is not a
    grammar node raises (a location the heap does not map to a node). *)
Inductive exn : Type :=
| IndexError
| AttributeError.

(** Results of the effectful operations: a value, a raised exception, or the
    recursion did not finish within the fuel given. *)
Inductive res (A : Type) : Type :=
| Ok (a : A)
| Raised (e : exn)
| Diverged.
Arguments Ok {A} a.
Arguments Raised {A} e.
Arguments Diverged {A}.

(** ** Construction *)

(** Allocation of a new object: the first location the heap does not use. *)
Definition fresh_loc (h : heap) : loc := fresh (dom h).

(** A newly constructed node has the class attributes [name = None],
    [discard = None], [inline = None] and [_prepared = False]. *)
Definition new_node (k : kind) : node :=
  {| name := None; discard := None; inline := None; _prepared := false; cls := k |}.

Definition alloc (h : heap) (k : kind) : res (loc * heap) :=
  Ok (fresh_loc h, <[fresh_loc h := new_node k]> h).

(** [Sequence(sequence)]: [__init__] stores the list and checks nothing. *)
Definition Sequence_init (h : heap) (sequence : list loc) : res (loc * heap) :=
  alloc h (Sequence sequence).

(** [Repetition(base, mi, ma)]: [__init__] stores the three arguments and
    checks nothing. *)
Definition Repetition_init (h : heap) (base : loc) (mi : nat) (ma : option nat)
  : res (loc * heap) :=
  alloc h (Repetition base mi ma).

(** ** Tree builder *)

Definition unnamed_node : string := "<unnamed node>".

(** Python truthiness of a flag that is [None], [True] or [False]. *)
Definition truthy (flag : option bool) : bool :=
  match flag with
  | Some true => true
  | _ => false
  end.

(** [self.name or '<unnamed node>']: [None] and the empty string are both
    falsy. *)
Definition name_or_default (nm : option string) : string :=
  match nm with
  | None => unnamed_node
  | Some EmptyString => unnamed_node
  | Some s => s
  end.

(** The inner iterable of the comprehension of [_build]. *)
Definition spliced (t : result) : list result :=
  match t with
  | RInline data => data
  | RDiscard => []
  | _ => [t]
  end.

(** [BaseGrammarNode._build] *)
Definition _build (self : node) (r : list result) : result :=
  if truthy (discard self) then RDiscard
  else
    let nm := name_or_default (name self) in
    let r := concat (map spliced r) in
    if truthy (inline self) then RInline r else RTree nm r.

(** ** Preparation *)

(** [BaseGrammarNode.prepare]: the node after the call and the value
    returned. *)
Definition BaseGrammarNode_prepare (self : node) : node * bool :=
  if _prepared self then (self, false)
  else
    ({| name := name self;
        discard := Some (match discard self with
                         | None => is_Symbol self
                         | Some d => d
                         end);
        inline := Some (match inline self with
                        | None => match name self with None => true | Some _ => false end
                        | Some i => i
                        end);
        _prepared := true;
        cls := cls self |}, true).

(** The loop [for o in ...: o.prepare()], threading the heap.  The second
    component collects the visits of the calls. *)
Fixpoint prepare_each (prep : heap -> loc -> res (heap * list loc))
    (h : heap) (os : list loc) : res (heap * list loc) :=
  match os with
  | [] => Ok (h, [])
  | o :: os' =>
      match prep h o with
      | Ok (h', visited) =>
          match prepare_each prep h' os' with
          | Ok (h'', visited') => Ok (h'', visited ++ visited')
          | Raised e => Raised e
          | Diverged => Diverged
          end
      | Raised e => Raised e
      | Diverged => Diverged
      end
  end.

(** [prepare] of the four node classes: [super().prepare()], and for a
    combinator the descent into its sub-nodes when that returned [True].
    Besides the heap, the call returns the list of the nodes it visited, that
    is, the nodes whose flags it resolved, in order; the list is not part of
    the program and only serves to state how often a node is visited. *)
Fixpoint prepare (fuel : nat) (h : heap) (l : loc) : res (heap * list loc) :=
  match fuel with
  | O => Diverged
  | S fuel' =>
      match h !! l with
      | None => Raised AttributeError
      | Some self =>
          let '(self', first) := BaseGrammarNode_prepare self in
          if first then
            match prepare_each (prepare fuel') (<[l := self']> h) (sub_nodes (cls self)) with
            | Ok (h', visited) => Ok (h', l :: visited)
            | Raised e => Raised e
            | Diverged => Diverged
            end
          else Ok (h, [])
      end
  end.

(** ** Generators *)

(** A generator object: where the body of [parse] is suspended, with the
    locals it still needs.  [GStart self text] is the object [self.parse(text)]
    returns, of which no statement has run yet.  A stack is a list whose head
    is the top, [stack[-1]]; a frame pairs the results accumulated so far with
    the live generator of the next sub-node.  [GRepetition0] is a
    [Repetition.parse] suspended at the [yield] of the empty match;
    [GRepetition] with [pending = Some (r, t)] is one suspended at the [yield]
    inside the loop, which still has to decide whether it pushes a frame for
    [r] and [t].  [GFinished] is a generator that has nothing left to run. *)
Inductive gen : Type :=
| GStart (self : loc) (text : string)
| GOption (self : loc) (text : string) (cur : gen) (rest : list loc)
| GSequence (self : loc) (stack : list (list result * gen))
| GRepetition0 (self : loc) (text : string)
| GRepetition (self : loc) (stack : list (list result * gen))
    (pending : option (result * string))
| GFinished.

(** What one call of [next()] does: yield a pair and suspend, raise
    [StopIteration], raise something else, or not return within the fuel. *)
Inductive outcome : Type :=
| Yield (r : result) (t : string) (g : gen)
| StopIteration
| Raise (e : exn)
| OutOfFuel.

(** [self.ma is None or n < self.ma] *)
Definition below_max (ma : option nat) (n : nat) : bool :=
  match ma with
  | None => true
  | Some m => n <? m
  end.

(** The push of a frame for the sub-node [node] on the text [t]: the tuple
    of the top frame extended with [r], and the generator [node.parse(t)].
    The stack is never empty where the code pushes. *)
Definition push (stack : list (list result * gen)) (r : result) (node : loc)
    (t : string) : list (list result * gen) :=
  match stack with
  | [] => []
  | (acc, _) :: _ => (acc ++ [r], GStart node t) :: stack
  end.

(** The statement at which a suspended [Repetition.parse] resumes: the push
    that follows the [yield] of the loop. *)
Definition resume (ma : option nat) (base : loc)
    (stack : list (list result * gen)) (pending : option (result * string))
  : list (list result * gen) :=
  match pending with
  | Some (r, t) => if below_max ma (length stack) then push stack r base t else stack
  | None => stack
  end.

(** The body of [next(g)] on the heap [h], that is, the bodies of
    [Symbol.parse], [Regex.parse], [Option.parse], [Sequence.parse] and
    [Repetition.parse] run from where [g] is suspended up to the next [yield].
    The parameter [next] stands for the calls of [next()] on a sub-generator
    and for the next turn of a [while] or [for] loop. *)
Definition next_body (h : heap) (next : gen -> outcome) (g : gen) : outcome :=
  match g with
  | GFinished => StopIteration
  | GStart l text =>
      match h !! l with
      | None => Raise AttributeError
      | Some self =>
          match cls self with
          | Symbol s =>
              if startswith text s
              then Yield (_build self [RStr s]) (slice_from (String.length s) text) GFinished
              else StopIteration
          | Regex _ _re =>
              match _re text with
              | Some e => Yield (_build self [RStr (slice_to e text)]) (slice_from e text) GFinished
              | None => StopIteration
              end
          | Option options =>
              match options with
              | [] => StopIteration
              | o :: rest => next (GOption l text (GStart o text) rest)
              end
          | Sequence sequence =>
              match sequence with
              | [] => Raise IndexError
              | first :: _ => next (GSequence l [([], GStart first text)])
              end
          | Repetition base mi ma =>
              if mi =? 0
              then Yield (_build self []) text (GRepetition0 l text)
              else next (GRepetition l [([], GStart base text)] None)
          end
      end
  | GOption l text cur rest =>
      match h !! l with
      | None => Raise AttributeError
      | Some self =>
          match next cur with
          | Yield r t cur' => Yield (_build self [r]) t (GOption l text cur' rest)
          | StopIteration =>
              match rest with
              | [] => StopIteration
              | o :: rest' => next (GOption l text (GStart o text) rest')
              end
          | Raise e => Raise e
          | OutOfFuel => OutOfFuel
          end
      end
  | GSequence l stack =>
      match h !! l with
      | None => Raise AttributeError
      | Some self =>
          match cls self with
          | Sequence sequence =>
              match stack with
              | [] => StopIteration
              | (acc, sub) :: below =>
                  match next sub with
                  | Yield r t sub' =>
                      let stack' := (acc, sub') :: below in
                      if length stack' =? length sequence
                      then Yield (_build self (acc ++ [r])) t (GSequence l stack')
                      else
                        match sequence !! length stack' with
                        | Some node => next (GSequence l (push stack' r node t))
                        | None => Raise IndexError
                        end
                  | StopIteration => next (GSequence l below)
                  | Raise e => Raise e
                  | OutOfFuel => OutOfFuel
                  end
              end
          | _ => Raise AttributeError
          end
      end
  | GRepetition0 l text =>
      match h !! l with
      | None => Raise AttributeError
      | Some self =>
          match cls self with
          | Repetition base mi ma =>
              next (GRepetition l [([], GStart base text)] None)
          | _ => Raise AttributeError
          end
      end
  | GRepetition l stack pending =>
      match h !! l with
      | None => Raise AttributeError
      | Some self =>
          match cls self with
          | Repetition base mi ma =>
              match resume ma base stack pending with
              | [] => StopIteration
              | (acc, sub) :: below =>
                  match next sub with
                  | Yield r t sub' =>
                      let stack' := (acc, sub') :: below in
                      if mi <=? length stack'
                      then Yield (_build self (acc ++ [r])) t (GRepetition l stack' (Some (r, t)))
                      else next (GRepetition l (push stack' r base t) None)
                  | StopIteration => next (GRepetition l below None)
                  | Raise e => Raise e
                  | OutOfFuel => OutOfFuel
                  end
              end
          | _ => Raise AttributeError
          end
      end
  end.

(** [next(g)]: each nested call and each turn of a loop takes one unit of
    fuel. *)
Fixpoint next (h : heap) (fuel : nat) (g : gen) : outcome :=
  match fuel with
  | O => OutOfFuel
  | S fuel' => next_body h (next h fuel') g
  end.

(** [list(itertools.islice(g, k))]: the first [k] pairs [g] yields, or all of
    them when it stops earlier; [None] when a call of [next] raises or runs
    out of fuel. *)
Fixpoint islice (h : heap) (fuel k : nat) (g : gen) : option (list (result * string)) :=
  match k with
  | O => Some []
  | S k' =>
      match next h fuel g with
      | Yield r t g' =>
          match islice h fuel k' g' with
          | Some items => Some ((r, t) :: items)
          | None => None
          end
      | StopIteration => Some []
      | Raise _ | OutOfFuel => None
      end
  end.

(** [node.parse(text)] *)
Definition parse (node : loc) (text : string) : gen := GStart node text.

(** The wrapping of the generator expression of [Option.parse]. *)
Definition rebuild (self : node) (item : result * string) : result * string :=
  (_build self [item.1], item.2).

(** ** The grammar of test.py *)

Module IntArray.

(** The compiled patterns of the test, [\d+] and [\s*], on texts of
    one-byte characters: the match is the longest prefix made of characters
    of the class, and it has to be non-empty for [+]. *)
Fixpoint span (p : ascii -> bool) (text : string) : nat :=
  match text with
  | String a text' => if p a then S (span p text') else 0
  | EmptyString => 0
  end.

Definition is_digit (a : ascii) : bool :=
  let n := nat_of_ascii a in (48 <=? n) && (n <=? 57).

Definition is_space (a : ascii) : bool :=
  let n := nat_of_ascii a in
  (n =? 32) || ((9 <=? n) && (n <=? 13)) || ((28 <=? n) && (n <=? 31))
  || (n =? 133) || (n =? 160).

Definition re_digits (text : string) : option nat :=
  match span is_digit text with
  | O => None
  | n => Some n
  end.

Definition re_spaces (text : string) : option nat := Some (span is_space text).

Definition mk (nm : option string) (d i : option bool) (k : kind) : node :=
  {| name := nm; discard := d; inline := i; _prepared := false; cls := k |}.

(** The objects the class body of [IntArray] leaves reachable, once the
    class creation has bound the names of the four productions and before
    the metaclass prepares them.  Locations 0 to 3 are the productions
    [int], [ws], [item] and [array]; 6, 8, 10 and 15 are the copies [d(ws)]
    and 12 is the copy [i(item)]. *)
Definition objects : heap :=
  list_to_map
    [ (0, mk (Some "int") None None (Option [4]));
      (1, mk (Some "ws") None None (Option [5]));
      (2, mk (Some "item") None None (Option [9]));
      (3, mk (Some "array") None None (Option [16]));
      (4, mk None None None (Regex "\d+" re_digits));
      (5, mk None None None (Regex "\s*" re_spaces));
      (6, mk None (Some true) None (Option [5]));
      (7, mk None None None (Option [0; 3]));
      (8, mk None (Some true) None (Option [5]));
      (9, mk None None None (Sequence [6; 7; 8]));
      (10, mk None (Some true) None (Option [5]));
      (11, mk None None None (Symbol "["));
      (12, mk None None (Some true) (Option [9]));
      (13, mk None None None (Repetition 12 0 None));
      (14, mk None None None (Symbol "]"));
      (15, mk None (Some true) None (Option [5]));
      (16, mk None None None (Sequence [10; 11; 13; 14; 15])) ].

(** [for v in t.__productions__.values(): v.prepare()]; the dictionary
    holds [int], [ws], [array] and [item] in this order. *)
Definition prepare_all (fuel : nat) : res (heap * list loc) :=
  prepare_each (prepare fuel) objects [0; 1; 3; 2].

Definition grammar : heap :=
  match prepare_all 20 with
  | Ok (h, _) => h
  | _ => objects
  end.

End IntArray.

(** ** Small heaps used as concrete inputs *)

Module Samples.

(** A prepared node without a name: [inline] resolved to [True]. *)
Definition anonymous (d : bool) (k : kind) : node :=
  {| name := None; discard := Some d; inline := Some true; _prepared := true; cls := k |}.

(** [Symbol("a")] kept in the tree ([discard=False]) and [Symbol("aa")]
    likewise, at 0 and 1; their choice at 2; repetitions of the symbol and
    of the choice with several bounds. *)
Definition reps : heap :=
  list_to_map
    [ (0, anonymous false (Symbol "a"));
      (1, anonymous false (Symbol "aa"));
      (2, anonymous false (Option [0; 1]));
      (3, anonymous false (Repetition 0 0 (Some 0)));
      (4, anonymous false (Repetition 0 2 (Some 1)));
      (5, anonymous false (Repetition 0 2 (Some 2)));
      (6, anonymous false (Repetition 2 1 None)) ].

End Samples.

(** ** The tree builder as the specification words it *)

(** The flattening of a child list: an Inline marker contributes its wrapped
    list element-wise, a Discarded marker contributes nothing, any other
    child passes through unchanged. *)
Fixpoint flatten_children (children : list result) : list result :=
  match children with
  | [] => []
  | RInline data :: rest => data ++ flatten_children rest
  | RDiscard :: rest => flatten_children rest
  | child :: rest => child :: flatten_children rest
  end.

(** The tree builder of the specification for a node with resolved flags,
    given the rule [naming] that picks the name of a Named Tree. *)
Definition tree_builder (naming : option string -> string)
    (nm : option string) (discard_flag inline_flag : bool)
    (children : list result) : result :=
  if discard_flag then RDiscard
  else if inline_flag then RInline (flatten_children children)
  else RTree (naming nm) (flatten_children children).

(** The node's name, and the placeholder when the name is unset. *)
Definition name_unless_unset (nm : option string) : string :=
  match nm with
  | Some s => s
  | None => "<unnamed node>"
  end.

(** The node's name, and the placeholder when the name is unset or is the
    empty string. *)
Definition name_unless_unset_or_empty (nm : option string) : string :=
  match nm with
  | Some s => if String.eqb s "" then "<unnamed node>" else s
  | None => "<unnamed node>"
  end.

(** A prepared node with resolved flags. *)
Definition prepared_node (nm : option string) (d i : bool) (k : kind) : node :=
  {| name := nm; discard := Some d; inline := Some i; _prepared := true; cls := k |}.


Module Letters.

(** The heap after [a = Symbol("a")] and [a.update(discard=False)]. *)
Definition letter : heap :=
  {[ 0 := {| name := None; discard := Some false; inline := None;
             _prepared := false; cls := Symbol "a" |} ]}.

End Letters.


(** ** Relations between generators *)

(** Two suspended [Repetition.parse] generators of the nodes [l1] and [l2]
    with the same stack and the same pending pair, where a pair is pending
    only once the stack has reached the lower bound [mi]: the [yield] of the
    loop is under the test [len(stack) >= self.mi]. *)
Inductive same_frames (l1 l2 : loc) (mi : nat) : gen -> gen -> Prop :=
| same_frames_intro stack pending :
    (pending <> None -> mi <= length stack) ->
    same_frames l1 l2 mi (GRepetition l1 stack pending) (GRepetition l2 stack pending).

(** Two calls of [next()] that do the same and leave generators related by
    [R]. *)
Inductive same_outcome (R : gen -> gen -> Prop) : outcome -> outcome -> Prop :=
| same_yield r t g1 g2 : R g1 g2 -> same_outcome R (Yield r t g1) (Yield r t g2)
| same_stop : same_outcome R StopIteration StopIteration
| same_raise e : same_outcome R (Raise e) (Raise e)
| same_out_of_fuel : same_outcome R OutOfFuel OutOfFuel.


(** Every text a generator holds, as the input of a sub-generator not yet
    started or as the text of a pending pair, is a suffix of [text]. *)
Inductive within (text : string) : gen -> Prop :=
| within_start l t :
    is_suffix t text -> within text (GStart l t)
| within_option l t cur rest :
    is_suffix t text -> within text cur -> within text (GOption l t cur rest)
| within_sequence l stack :
    Forall (fun frame => within text frame.2) stack ->
    within text (GSequence l stack)
| within_repetition0 l t :
    is_suffix t text -> within text (GRepetition0 l t)
| within_repetition l stack pending :
    Forall (fun frame => within text frame.2) stack ->
    (forall r t, pending = Some (r, t) -> is_suffix t text) ->
    within text (GRepetition l stack pending)
| within_finished : within text GFinished.

(** What a call of [next()] yields is a suffix of [text], and so is what the
    generator holds afterwards. *)
Definition yields_within (text : string) (o : outcome) : Prop :=
  match o with
  | Yield _ t g => is_suffix t text /\ within text g
  | _ => True
  end.


(** ** Heaps *)

(** Every sub-node a node refers to is a node of the heap: a Python reference
    always points to an object. *)
Definition closed (h : heap) : Prop :=
  map_Forall (fun _ n => Forall (fun c => is_Some (h !! c)) (sub_nodes (cls n))) h.

(** The nodes of the heap on which [prepare] has not run yet. *)
Definition unprepared (h : heap) : gset loc :=
  dom (filter (fun p : loc * node => _prepared p.2 = false) h).

(** [h'] is [h] where [BaseGrammarNode.prepare] has resolved the nodes of
    [visited], each of them once and none of them prepared before, and where
    every other node is as it was. *)
Definition resolved (h h' : heap) (visited : list loc) : Prop :=
  NoDup visited
  /\ (forall x, x ∈ visited -> x ∈ unprepared h)
  /\ forall x, h' !! x
       = (fun n => if decide (x ∈ visited) then (BaseGrammarNode_prepare n).1 else n)
           <$> h !! x.

(** The flags of [n'] are those of [n] resolved as the preparation pass
    resolves them: an unset [discard] becomes true exactly for a Literal, an
    unset [inline] becomes true exactly for a node without a name, and a flag
    that is set stays as it is. *)
Definition flags_resolved (n n' : node) : Prop :=
  match discard n with
  | None => ((exists s, cls n = Symbol s) /\ discard n' = Some true)
            \/ ((forall s, cls n <> Symbol s) /\ discard n' = Some false)
  | Some d => discard n' = Some d
  end
  /\ match inline n with
     | None => (name n = None /\ inline n' = Some true)
               \/ (name n <> None /\ inline n' = Some false)
     | Some i => inline n' = Some i
     end
  /\ name n' = name n /\ cls n' = cls n /\ _prepared n' = true.


(** ** The order of the results of a Repetition *)

(** The matches of [Repetition.parse] in depth-first order, when [B t] lists
    what the base node yields on the text [t].  [rs] is what is left of the
    results of the base for the repetition number [count], after the tuple
    [acc] of the repetitions before it.  For each of them in turn come the
    match that ends with it, when [count] has reached [mi]; then the matches
    that extend it by further repetitions, when [count] has not reached [mi]
    or the upper bound lets one more frame through; and only then the matches
    of the next result of the base.  [depth] bounds the number of further
    repetitions, and the result is [None] when it does not suffice. *)
Fixpoint extensions (B : string -> list (result * string)) (self : node)
    (mi : nat) (ma : option nat) (depth count : nat) (acc : list result)
    (rs : list (result * string)) {struct depth} : option (list (result * string)) :=
  match depth with
  | O => None
  | S depth' =>
      (fix frame (rs : list (result * string)) : option (list (result * string)) :=
         match rs with
         | [] => Some []
         | (r, t) :: rs' =>
             match
               (if (count <? mi) || below_max ma count
                then extensions B self mi ma depth' (S count) (acc ++ [r]) (B t)
                else Some []),
               frame rs'
             with
             | Some deeper, Some later =>
                 Some ((if mi <=? count then [(_build self (acc ++ [r]), t)] else [])
                       ++ deeper ++ later)
             | _, _ => None
             end
         end) rs
  end.

(** The results of [Repetition.parse] on [text] in that order: the empty
    match first when [mi] is 0, then the matches of one repetition and
    more. *)
Definition Repetition_order (B : string -> list (result * string)) (self : node)
    (mi : nat) (ma : option nat) (depth : nat) (text : string)
  : option (list (result * string)) :=
  match extensions B self mi ma depth 1 [] (B text) with
  | Some matches => Some ((if mi =? 0 then [(_build self [], text)] else []) ++ matches)
  | None => None
  end.

(** ** The first results of a Repetition *)

(** The first [k] matches of the order of [extensions], for a search that
    need not be finite: the budget [k] is what the caller still asks for, and
    a frame is left as soon as it is used up.  A match that is not asked for
    is not looked for, so the depth [depth] only has to cover the chain of
    repetitions that leads to the [k]-th match; the result is [None] when it
    does not. *)
Fixpoint extensions_upto (B : string -> list (result * string)) (self : node)
    (mi : nat) (ma : option nat) (depth k count : nat) (acc : list result)
    (rs : list (result * string)) {struct depth} : option (list (result * string)) :=
  match depth with
  | O => match k with O => Some [] | S _ => None end
  | S depth' =>
      (fix frame (k : nat) (rs : list (result * string)) {struct rs}
         : option (list (result * string)) :=
         match k, rs with
         | O, _ => Some []
         | S _, [] => Some []
         | S _, (r, t) :: rs' =>
             let own := if mi <=? count then [(_build self (acc ++ [r]), t)] else [] in
             match
               (if (count <? mi) || below_max ma count
                then extensions_upto B self mi ma depth' (k - length own) (S count)
                       (acc ++ [r]) (B t)
                else Some [])
             with
             | Some deeper =>
                 match frame (k - length own - length deeper) rs' with
                 | Some later => Some (own ++ deeper ++ later)
                 | None => None
                 end
             | None => None
             end
         end) k rs
  end.

(** The first [k] results of [Repetition.parse] on [text] in the order of
    [Repetition_order]: the empty match first when [mi] is 0, then the
    matches of one repetition and more, as far as [k] reaches. *)
Definition Repetition_order_upto (B : string -> list (result * string)) (self : node)
    (mi : nat) (ma : option nat) (depth k : nat) (text : string)
  : option (list (result * string)) :=
  match k with
  | O => Some []
  | S _ =>
      let first := if mi =? 0 then [(_build self [], text)] else [] in
      match extensions_upto B self mi ma depth (k - length first) 1 [] (B text) with
      | Some matches => Some (first ++ matches)
      | None => None
      end
  end.

(** [list(itertools.islice(g, k))] returns [items]. *)
Definition yields_first (h : heap) (g : gen) (k : nat)
    (items : list (result * string)) : Prop :=
  exists fuel, islice h fuel k g = Some items.

Module Blanks.

(** [Symbol("")], which matches the empty text everywhere, at 0, and its
    unbounded repetition [Symbol("")[:]] at 1. *)
Definition blanks : heap :=
  list_to_map
    [ (0, Samples.anonymous false (Symbol ""));
      (1, Samples.anonymous false (Repetition 0 0 None)) ].

(** What node 0 yields on the text [t]. *)
Definition blank_results (t : string) : list (result * string) :=
  [(RInline [RStr ""], t)].

End Blanks.

(** The generator yields exactly [items], in this order, and then stops. *)
Definition drains (h : heap) (g : gen) (items : list (result * string)) : Prop :=
  exists fuel, islice h fuel (S (length items)) g = Some items.

(** The number of children of an Inline marker or of a Named Tree. *)
Definition children_count (r : result) : nat :=
  match r with
  | RInline data => length data
  | RTree _ children => length children
  | _ => 0
  end.


Module Ambiguous.

(** What the choice between [Symbol("a")] and [Symbol("aa")], node 2 of
    [Samples.reps], yields on the text [t]. *)
Definition choice_results (t : string) : list (result * string) :=
  (if startswith t "a" then [(RInline [RStr "a"], slice_from 1 t)] else [])
  ++ (if startswith t "aa" then [(RInline [RStr "aa"], slice_from 2 t)] else []).

End Ambiguous.

(** ** The order of the results of a Choice and of a Sequence *)

(** The results of [Option.parse] on a text, when [B o] lists what the
    alternative [o] yields on that text: those of each alternative in the
    declared order, each rebuilt by the Choice. *)
Definition Option_order (B : loc -> list (result * string)) (self : node)
    (options : list loc) : list (result * string) :=
  concat (map (fun o => map (rebuild self) (B o)) options).

(** The results of [Sequence.parse] in the order of its search, when
    [B node t] lists what the sub-node [node] yields on the text [t]: for
    each result of the first sub-node in turn, all the results of the rest
    of the sequence on the text that result leaves; the tuple [acc] collects
    the results of the sub-nodes already matched, and the last sub-node
    builds the match. *)
Fixpoint Sequence_order (B : loc -> string -> list (result * string)) (self : node)
    (nodes : list loc) (acc : list result) (text : string) : list (result * string) :=
  match nodes with
  | [] => []
  | node :: rest =>
      concat (map (fun item : result * string =>
                     match rest with
                     | [] => [(_build self (acc ++ [item.1]), item.2)]
                     | _ :: _ => Sequence_order B self rest (acc ++ [item.1]) item.2
                     end)
                (B node text))
  end.


Module Pairs.

(** [a = Symbol("a")] and [aa = Symbol("aa")], both kept in the tree, their
    choice at 2, at 3 the sequence of the choice with itself and at 4 one or
    two repetitions of the choice, all prepared. *)
Definition pairs : heap :=
  list_to_map
    [ (0, Samples.anonymous false (Symbol "a"));
      (1, Samples.anonymous false (Symbol "aa"));
      (2, Samples.anonymous false (Option [0; 1]));
      (3, Samples.anonymous false (Sequence [2; 2]));
      (4, Samples.anonymous false (Repetition 2 1 (Some 2))) ].

(** What each node of the sequence yields on the text [t]. *)
Definition results (node : loc) (t : string) : list (result * string) :=
  Ambiguous.choice_results t.

(** What the two alternatives of the choice yield on ["aab"]. *)
Definition on_aab (o : loc) : list (result * string) :=
  match o with
  | 0 => [(RInline [RStr "a"], "ab")]
  | _ => [(RInline [RStr "aa"], "b")]
  end.

End Pairs.


(** ** Well-formed grammars and the generators that run on them *)

(** [Sequence([])] *)
Definition is_empty_sequence (k : kind) : bool :=
  match k with
  | Sequence [] => true
  | _ => false
  end.

(** No node of the heap is a Sequence without sub-nodes. *)
Definition no_empty_sequence (h : heap) : Prop :=
  map_Forall (fun _ n => is_empty_sequence (cls n) = false) h.

(** A generator that was obtained from [parse] on a node of the heap: the
    node it runs is in the heap and of the class of its body, the nodes it
    still has to visit are in the heap, and the stack of a Sequence has at
    most one frame per sub-node. *)
Inductive runs_on (h : heap) : gen -> Prop :=
| runs_on_start l t :
    is_Some (h !! l) -> runs_on h (GStart l t)
| runs_on_option l t cur rest :
    is_Some (h !! l) -> runs_on h cur ->
    Forall (fun o => is_Some (h !! o)) rest ->
    runs_on h (GOption l t cur rest)
| runs_on_sequence l self sequence stack :
    h !! l = Some self -> cls self = Sequence sequence ->
    length stack <= length sequence ->
    Forall (fun frame => runs_on h frame.2) stack ->
    runs_on h (GSequence l stack)
| runs_on_repetition0 l self base mi ma t :
    h !! l = Some self -> cls self = Repetition base mi ma ->
    runs_on h (GRepetition0 l t)
| runs_on_repetition l self base mi ma stack pending :
    h !! l = Some self -> cls self = Repetition base mi ma ->
    Forall (fun frame => runs_on h frame.2) stack ->
    runs_on h (GRepetition l stack pending)
| runs_on_finished : runs_on h GFinished.

(** A call of [next()] raises nothing and leaves such a generator. *)
Definition stays_on (h : heap) (o : outcome) : Prop :=
  match o with
  | Yield _ _ g => runs_on h g
  | Raise _ => False
  | _ => True
  end.

Module LeftRecursion.

(** The heap after [a = Option()] and [a.options.append(a)]: a choice whose
    only alternative is the choice itself. *)
Definition loop : heap :=
  {[ 0 := Samples.anonymous false (Option [0]) ]}.

End LeftRecursion.

(** What the call of [next()] number [k], counted from 0, does, when the
    calls before it have all yielded. *)
Fixpoint nth_next (h : heap) (fuel k : nat) (g : gen) : outcome :=
  match k with
  | O => next h fuel g
  | S k' =>
      match next h fuel g with
      | Yield _ _ g' => nth_next h fuel k' g'
      | o => o
      end
  end.

(** The node [l1] of [h1] and the node [l2] of [h2] are of the same class,
    with the same text, pattern, sub-nodes and bounds; their names and flags
    may differ. *)
Definition same_cls (h1 h2 : heap) (l1 l2 : loc) : Prop :=
  cls <$> h1 !! l1 = cls <$> h2 !! l2.

(** Two generators suspended at the same place, on the same texts and on
    nodes of the same class; the results they have accumulated may differ. *)
Inductive alike (h1 h2 : heap) : gen -> gen -> Prop :=
| alike_start l1 l2 t :
    same_cls h1 h2 l1 l2 -> alike h1 h2 (GStart l1 t) (GStart l2 t)
| alike_option l1 l2 t cur1 cur2 rest :
    same_cls h1 h2 l1 l2 -> alike h1 h2 cur1 cur2 ->
    alike h1 h2 (GOption l1 t cur1 rest) (GOption l2 t cur2 rest)
| alike_sequence l1 l2 stack1 stack2 :
    same_cls h1 h2 l1 l2 ->
    Forall2 (fun f1 f2 => alike h1 h2 f1.2 f2.2) stack1 stack2 ->
    alike h1 h2 (GSequence l1 stack1) (GSequence l2 stack2)
| alike_repetition0 l1 l2 t :
    same_cls h1 h2 l1 l2 -> alike h1 h2 (GRepetition0 l1 t) (GRepetition0 l2 t)
| alike_repetition l1 l2 stack1 stack2 pending1 pending2 :
    same_cls h1 h2 l1 l2 ->
    Forall2 (fun f1 f2 => alike h1 h2 f1.2 f2.2) stack1 stack2 ->
    snd <$> pending1 = snd <$> pending2 ->
    alike h1 h2 (GRepetition l1 stack1 pending1) (GRepetition l2 stack2 pending2)
| alike_finished : alike h1 h2 GFinished GFinished.

(** Two calls of [next()] that end the same way and, when they yield, leave
    the same remaining text. *)
Inductive same_text (R : gen -> gen -> Prop) : outcome -> outcome -> Prop :=
| same_text_yield r1 r2 t g1 g2 :
    R g1 g2 -> same_text R (Yield r1 t g1) (Yield r2 t g2)
| same_text_stop : same_text R StopIteration StopIteration
| same_text_raise e : same_text R (Raise e) (Raise e)
| same_text_out_of_fuel : same_text R OutOfFuel OutOfFuel.

(** The node whose [parse] a generator runs. *)
Definition top_node (g : gen) : option loc :=
  match g with
  | GStart l _ | GOption l _ _ _ | GSequence l _ | GRepetition0 l _
  | GRepetition l _ _ => Some l
  | GFinished => None
  end.

(** The result is what the tree builder of [self] returns: the Discarded
    marker when [discard] is true, else an Inline marker when [inline] is
    true, else a tree with the name [_build] gives it; never a raw string. *)
Definition built_by (self : node) (r : result) : Prop :=
  match r with
  | RStr _ => False
  | RDiscard => truthy (discard self) = true
  | RInline _ => truthy (discard self) = false /\ truthy (inline self) = true
  | RTree nm _ =>
      truthy (discard self) = false /\ truthy (inline self) = false
      /\ nm = name_or_default (name self)
  end.


(** ** Prepared parts of a heap *)

(** The reference [x] points to a node on which [prepare] has run. *)
Definition prepared_at (h : heap) (x : loc) : bool :=
  match h !! x with
  | Some n => _prepared n
  | None => false
  end.

(** The sub-nodes of every prepared node are prepared: no call of [prepare]
    is under way. *)
Definition settled (h : heap) : Prop :=
  map_Forall (fun _ n => _prepared n = true ->
                Forall (fun c => prepared_at h c = true) (sub_nodes (cls n))) h.

(** The nodes a node refers to, directly or through other nodes. *)
Inductive reachable (h : heap) (l : loc) : loc -> Prop :=
| reachable_self : reachable h l l
| reachable_sub x n c :
    reachable h l x -> h !! x = Some n -> c ∈ sub_nodes (cls n) -> reachable h l c.


(** What a call of [prepare] that returns has done: it resolved the nodes
    it visited, the node it was called on is prepared, and so are the
    sub-nodes of every node it visited. *)
Definition prepare_post (h : heap) (l : loc) (h' : heap) (visited : list loc) : Prop :=
  resolved h h' visited
  /\ prepared_at h' l = true
  /\ forall x n, x ∈ visited -> h !! x = Some n ->
       Forall (fun c => prepared_at h' c = true) (sub_nodes (cls n)).

(** ** Flags, copies and operators *)

(** [BaseGrammarNode.update]: a flag that is given replaces the flag of the
    node, a flag that is [None] leaves it. *)
Definition update (inline_arg discard_arg : option bool) (self : node) : node :=
  {| name := name self;
     discard := match discard_arg with Some d => Some d | None => discard self end;
     inline := match inline_arg with Some i => Some i | None => inline self end;
     _prepared := _prepared self;
     cls := cls self |}.

(** [copy(inline=..., discard=...)] of the four classes: a new object of the
    class of [self] built from the attributes [__init__] takes (the text, the
    pattern, a copy of the list of sub-nodes, the base and the bounds), then
    [update] with the keyword arguments.  Compiling the same pattern again
    gives the same matcher. *)
Definition copy (h : heap) (self : loc) (inline_arg discard_arg : option bool)
  : res (loc * heap) :=
  match h !! self with
  | None => Raised AttributeError
  | Some n =>
      Ok (fresh_loc h,
          <[fresh_loc h := update inline_arg discard_arg (new_node (cls n))]> h)
  end.

(** The entries ['i'] and ['d'] of [SPECIAL_NAMES]. *)
Definition special_i (h : heap) (n : loc) : res (loc * heap) := copy h n (Some true) None.
Definition special_d (h : heap) (n : loc) : res (loc * heap) := copy h n None (Some true).

(** The right operand of an operator: a string or a grammar node. *)
Inductive operand : Type :=
| OStr (s : string)
| ONode (l : loc).

(** [if isinstance(other, str): other = Symbol(other)] *)
Definition as_node (h : heap) (other : operand) : res (loc * heap) :=
  match other with
  | OStr s => alloc h (Symbol s)
  | ONode l => Ok (l, h)
  end.

(** [BaseGrammarNode.__or__] *)
Definition BaseGrammarNode_or (h : heap) (self : loc) (other : operand) : res (loc * heap) :=
  match as_node h other with
  | Ok (o, h1) => alloc h1 (Option [self; o])
  | Raised e => Raised e
  | Diverged => Diverged
  end.

(** [BaseGrammarNode.__ror__] *)
Definition BaseGrammarNode_ror (h : heap) (self : loc) (other : operand) : res (loc * heap) :=
  match as_node h other with
  | Ok (o, h1) => alloc h1 (Option [o; self])
  | Raised e => Raised e
  | Diverged => Diverged
  end.

(** [BaseGrammarNode.__add__] *)
Definition BaseGrammarNode_add (h : heap) (self : loc) (other : operand) : res (loc * heap) :=
  match as_node h other with
  | Ok (o, h1) => alloc h1 (Sequence [self; o])
  | Raised e => Raised e
  | Diverged => Diverged
  end.

(** [BaseGrammarNode.__radd__] *)
Definition BaseGrammarNode_radd (h : heap) (self : loc) (other : operand) : res (loc * heap) :=
  match as_node h other with
  | Ok (o, h1) => alloc h1 (Sequence [o; self])
  | Raised e => Raised e
  | Diverged => Diverged
  end.

(** [self.sequence] of a Sequence node. *)
Definition sequence_of (h : heap) (l : loc) : option (list loc) :=
  match h !! l with
  | Some n => match cls n with Sequence sequence => Some sequence | _ => None end
  | None => None
  end.

(** [Sequence.__add__]: a string becomes a Symbol appended to the elements of
    [self], the elements of another Sequence are appended one by one, any
    other node is appended as one element. *)
Definition Sequence_add (h : heap) (self : loc) (other : operand) : res (loc * heap) :=
  match sequence_of h self with
  | None => Raised AttributeError
  | Some mine =>
      match other with
      | OStr s =>
          match alloc h (Symbol s) with
          | Ok (o, h1) => alloc h1 (Sequence (mine ++ [o]))
          | Raised e => Raised e
          | Diverged => Diverged
          end
      | ONode o =>
          match sequence_of h o with
          | Some theirs => alloc h (Sequence (mine ++ theirs))
          | None => alloc h (Sequence (mine ++ [o]))
          end
      end
  end.

(** [Sequence.__radd__] *)
Definition Sequence_radd (h : heap) (self : loc) (other : operand) : res (loc * heap) :=
  match sequence_of h self with
  | None => Raised AttributeError
  | Some mine =>
      match other with
      | OStr s =>
          match alloc h (Symbol s) with
          | Ok (o, h1) => alloc h1 (Sequence (o :: mine))
          | Raised e => Raised e
          | Diverged => Diverged
          end
      | ONode o =>
          match sequence_of h o with
          | Some theirs => alloc h (Sequence (theirs ++ mine))
          | None => alloc h (Sequence (o :: mine))
          end
      end
  end.

(** [self + other] for a node [self]: Python calls the [__add__] of the class
    of [self], which is the one of [Sequence] for a Sequence and the one of
    [BaseGrammarNode] for every other node. *)
Definition add (h : heap) (self : loc) (other : operand) : res (loc * heap) :=
  match sequence_of h self with
  | Some _ => Sequence_add h self other
  | None => BaseGrammarNode_add h self other
  end.

(** [other + self] for a node [self] and an [other] whose own [__add__] does
    not apply, such as a string: the [__radd__] of the class of [self]. *)
Definition radd (h : heap) (self : loc) (other : operand) : res (loc * heap) :=
  match sequence_of h self with
  | Some _ => Sequence_radd h self other
  | None => BaseGrammarNode_radd h self other
  end.

(** The subscript of [node[item]]: one value, or a pair of values; a value
    is a number or [None]. *)
Inductive subscript : Type :=
| Single (item : option nat)
| Pair (mi ma : option nat).

(** [BaseGrammarNode.__getitem__] *)
Definition BaseGrammarNode_getitem (h : heap) (self : loc) (item : subscript)
  : res (loc * heap) :=
  let '(mi, ma) := match item with
                   | Pair mi ma => (mi, ma)
                   | Single item => (item, item)
                   end in
  let mi := match mi with None => 0 | Some mi => mi end in
  Repetition_init h self mi ma.

(** The expressions that build a grammar node from nodes that exist. *)
Inductive building : Type :=
| Build_or (self : loc) (other : operand)
| Build_ror (self : loc) (other : operand)
| Build_add (self : loc) (other : operand)
| Build_radd (self : loc) (other : operand)
| Build_getitem (self : loc) (item : subscript)
| Build_copy (self : loc) (inline_arg discard_arg : option bool).

Definition build (h : heap) (b : building) : res (loc * heap) :=
  match b with
  | Build_or self other => BaseGrammarNode_or h self other
  | Build_ror self other => BaseGrammarNode_ror h self other
  | Build_add self other => add h self other
  | Build_radd self other => radd h self other
  | Build_getitem self item => BaseGrammarNode_getitem h self item
  | Build_copy self inline_arg discard_arg => copy h self inline_arg discard_arg
  end.


(** ** The registry of productions *)

(** A Python [dict] with string keys, in insertion order: [d[key]] and
    [d[key] = value], which replaces the value of a key that is present and
    appends a key that is not. *)
Fixpoint dict_get {V : Type} (d : list (string * V)) (key : string) : option V :=
  match d with
  | [] => None
  | (k, v) :: d' => if String.eqb k key then Some v else dict_get d' key
  end.

Fixpoint dict_set {V : Type} (d : list (string * V)) (key : string) (value : V)
  : list (string * V) :=
  match d with
  | [] => [(key, value)]
  | (k, v) :: d' =>
      if String.eqb k key then (k, value) :: d' else (k, v) :: dict_set d' key value
  end.

(** The keys of [SPECIAL_NAMES]. *)
Inductive special_name : Type :=
| Name_r
| Name_s
| Name_i
| Name_d.

(** [SPECIAL_NAMES[item]], [None] for a key that is absent. *)
Definition SPECIAL_NAMES (item : string) : option special_name :=
  if String.eqb item "r" then Some Name_r
  else if String.eqb item "s" then Some Name_s
  else if String.eqb item "i" then Some Name_i
  else if String.eqb item "d" then Some Name_d
  else None.

(** [item[-2:]] *)
Definition last_two (item : string) : string :=
  slice_from (String.length item - 2) item.

(** [item[:2] == item[-2:] == '__'] *)
Definition is_dunder (item : string) : bool :=
  String.eqb (slice_to 2 item) (last_two item) && String.eqb (last_two item) "__".

(** What [GrammarDict] raises: [KeyError] for a key that is absent from
    [SPECIAL_NAMES] or from [special], [ValueError] for a rule name of
    length 1, and [AttributeError] when the object registered under a
    production name has no [options]. *)
Inductive dict_exn : Type :=
| KeyError (key : string)
| ValueError (item : string)
| NoOptions.

(** [GrammarDict]: the productions, a [defaultdict(Option)] from names to
    Choice nodes, and the special entries.  A value of the namespace is an
    object reference; the references of grammar nodes are those of the
    heap. *)
Record GrammarDict : Type := {
  productions : list (string * loc);
  special : list (string * loc)
}.

(** [self.productions[item]] on the [defaultdict]: the Choice registered
    under the name, and for a name that is absent a new [Option()], which is
    registered under it. *)
Definition production (d : GrammarDict) (h : heap) (item : string)
  : loc * (GrammarDict * heap) :=
  match dict_get (productions d) item with
  | Some l => (l, (d, h))
  | None =>
      (fresh_loc h,
       ({| productions := dict_set (productions d) item (fresh_loc h);
           special := special d |},
        <[fresh_loc h := new_node (Option [])]> h))
  end.

(** What a lookup in the namespace gives: one of the builders of
    [SPECIAL_NAMES] or an object. *)
Inductive namespace_value : Type :=
| Builder (b : special_name)
| Object (l : loc).

(** [GrammarDict.__getitem__] for a string [item] *)
Definition GrammarDict_getitem (d : GrammarDict) (h : heap) (item : string)
  : dict_exn + namespace_value * (GrammarDict * heap) :=
  if String.length item =? 1 then
    match SPECIAL_NAMES item with
    | Some b => inr (Builder b, (d, h))
    | None => inl (KeyError item)
    end
  else if is_dunder item then
    match dict_get (special d) item with
    | Some v => inr (Object v, (d, h))
    | None => inl (KeyError item)
    end
  else
    let '(l, s) := production d h item in inr (Object l, s).

(** [node.options.append(value)] *)
Definition append_option (n : node) (value : loc) : option node :=
  match cls n with
  | Option options =>
      Some {| name := name n; discard := discard n; inline := inline n;
              _prepared := _prepared n; cls := Option (options ++ [value]) |}
  | _ => None
  end.

(** [GrammarDict.__setitem__] for a string [item] *)
Definition GrammarDict_setitem (d : GrammarDict) (h : heap) (item : string) (value : loc)
  : dict_exn + GrammarDict * heap :=
  if is_dunder item then
    inr ({| productions := productions d;
            special := dict_set (special d) item value |}, h)
  else if String.length item =? 1 then inl (ValueError item)
  else
    let '(l, (d1, h1)) := production d h item in
    match h1 !! l with
    | Some n =>
        match append_option n value with
        | Some n' => inr (d1, <[l := n']> h1)
        | None => inl NoOptions
        end
    | None => inl NoOptions
    end.

(** The alternatives of the Choice at [l]. *)
Definition options_of (h : heap) (l : loc) : option (list loc) :=
  match h !! l with
  | Some n => match cls n with Option options => Some options | _ => None end
  | None => None
  end.

(** The registry registers Choice nodes of the heap, a different one under
    each name. *)
Definition registry_wf (d : GrammarDict) (h : heap) : Prop :=
  Forall (fun entry : string * loc => is_Some (options_of h entry.2)) (productions d)
  /\ NoDup (snd <$> productions d)
  /\ NoDup (fst <$> productions d).


(** The registry [GrammarDict()] of a class without bases. *)
Definition empty_registry : GrammarDict := {| productions := []; special := [] |}.


Module Registry.

(** The heap and the registry after [int = a] and a lookup of [ws], where [a]
    is the symbol of [Letters.letter]. *)
Definition heap_two : heap :=
  <[2 := new_node (Option [])]> (<[1 := new_node (Option [0])]> Letters.letter).

Definition two : GrammarDict := {| productions := [("int", 1); ("ws", 2)]; special := [] |}.

End Registry.


(** ** The metaclass *)

(** [GrammarDict.to_dict]: [dict(self.productions, **self.special)] *)
Definition to_dict (d : GrammarDict) : list (string * loc) :=
  fold_left (fun acc entry => dict_set acc entry.1 entry.2) (special d) (productions d).

(** The node with another name. *)
Definition rename (nm : option string) (n : node) : node :=
  {| name := nm; discard := discard n; inline := inline n;
     _prepared := _prepared n; cls := cls n |}.

(** [BaseGrammarNode.__set_name__], which [type.__new__] calls on each value
    of the namespace that is a grammar node, with the key of the value. *)
Definition set_name (h : heap) (entry : string * loc) : heap :=
  match h !! entry.2 with
  | Some n => <[entry.2 := rename (Some entry.1) n]> h
  | None => h
  end.

(** [_GrammarMeta.__new__]: the class is created from [namespace.to_dict()],
    which names the nodes of the namespace, and each production is
    prepared, in the order of the registry. *)
Definition GrammarMeta_new (fuel : nat) (d : GrammarDict) (h : heap)
  : res (heap * list loc) :=
  prepare_each (prepare fuel) (fold_left set_name (to_dict d) h) (snd <$> productions d).

(** [h'] is [h] with some nodes renamed. *)
Definition renamed (h h' : heap) : Prop :=
  forall x, exists nm, h' !! x = rename nm <$> h !! x.


(** The registry the class body of [IntArray] leaves: the four productions
    in the order in which the body first mentions them. *)
Definition IntArray_registry : GrammarDict :=
  {| productions := [("int", 0); ("ws", 1); ("array", 3); ("item", 2)];
     special := [("__module__", 17); ("__qualname__", 18)] |}.


(** [_GrammarMeta.__prepare__]: the registry of a new class starts from the
    dictionary [{k: v for b in bases for k, v in b.__productions__.items()}]
    of the productions of its bases. *)
Definition GrammarMeta_prepare (bases : list (list (string * loc))) : GrammarDict :=
  {| productions :=
       fold_left (fun acc base =>
                    fold_left (fun acc entry => dict_set acc entry.1 entry.2) base acc)
         bases [];
     special := [] |}.

(** The last of the values that are present. *)
Fixpoint last_present {V : Type} (values : list (option V)) : option V :=
  match values with
  | [] => None
  | v :: values' =>
      match last_present values' with
      | Some later => Some later
      | None => v
      end
  end.


(** ** Repetition of a literal *)

(** [s * n] *)
Fixpoint copies (s : string) (n : nat) : string :=
  match n with
  | O => EmptyString
  | S n' => String.append s (copies s n')
  end.

(** The built match of the literal [s] of the node [nb]. *)
Definition literal_match (nb : node) (s : string) : result := _build nb [RStr s].

(** What the literal [s], built by the node [nb], yields on the text [t]. *)
Definition literal_results (nb : node) (s t : string) : list (result * string) :=
  if startswith t s then [(literal_match nb s, slice_from (String.length s) t)] else [].

(** The largest repetition count the search reaches on a text that starts
    with [k] copies of the literal. *)
Definition highest_count (ma : option nat) (k : nat) : nat :=
  match ma with
  | None => k
  | Some m => min k m
  end.

(** The matches of [c] copies of the literal for the counts [c] from the
    larger of [mi] and 1 up to [highest_count], in increasing order, each
    with the text that follows the [c] copies; before them the empty match
    when [mi] is 0. *)
Definition literal_repetitions (self nb : node) (s rest : string)
    (mi : nat) (ma : option nat) (k : nat) : list (result * string) :=
  (if mi =? 0 then [(_build self [], String.append (copies s k) rest)] else [])
  ++ map (fun c => (_build self (replicate c (literal_match nb s)),
                    String.append (copies s (k - c)) rest))
       (seq (max mi 1) (S (highest_count ma k) - max mi 1)).


(** * Properties *)

(** ** Strings *)

Lemma startswith_append (s rest : string) : startswith (String.append s rest) s = true.
Proof.
  induction s as [|a s IH]; simpl; [reflexivity|].
  rewrite Ascii.eqb_refl. exact IH.
Qed.

Lemma startswith_inv (text s : string) :
  startswith text s = true -> exists rest, text = String.append s rest.
Proof.
  revert text. induction s as [|a s IH]; intros text H; simpl in *.
  - exists text. reflexivity.
  - destruct text as [|b text]; [discriminate|].
    destruct (Ascii.eqb a b) eqn:E; [|discriminate].
    apply Ascii.eqb_eq in E. subst b.
    destruct (IH _ H) as [rest ->]. exists rest. reflexivity.
Qed.

Lemma slice_from_append (s rest : string) :
  slice_from (String.length s) (String.append s rest) = rest.
Proof. induction s as [|a s IH]; simpl; auto. Qed.

Lemma slice_to_from (n : nat) (text : string) :
  String.append (slice_to n text) (slice_from n text) = text.
Proof.
  revert text. induction n as [|n IH]; intros [|a text]; simpl; try reflexivity.
  change (String a (String.append (slice_to n text) (slice_from n text)) = String a text).
  f_equal. apply IH.
Qed.

Lemma append_assoc (a b c : string) :
  String.append (String.append a b) c = String.append a (String.append b c).
Proof.
  induction a as [|x a IH]; [reflexivity|].
  change (String x (String.append (String.append a b) c)
          = String x (String.append a (String.append b c))).
  f_equal. exact IH.
Qed.

Lemma is_suffix_refl (text : string) : is_suffix text text.
Proof. exists EmptyString. reflexivity. Qed.

Lemma is_suffix_trans (a b c : string) : is_suffix a b -> is_suffix b c -> is_suffix a c.
Proof.
  intros [p ->] [q ->]. exists (String.append q p). symmetry. apply append_assoc.
Qed.

Lemma is_suffix_slice_from (n : nat) (text : string) : is_suffix (slice_from n text) text.
Proof. exists (slice_to n text). symmetry. apply slice_to_from. Qed.

(** ** Fuel *)

(** [n2] returns what [n1] returns wherever [n1] returns. *)
Definition extends (n1 n2 : gen -> outcome) : Prop :=
  forall g, n1 g <> OutOfFuel -> n2 g = n1 g.

Lemma next_body_extends (h : heap) (n1 n2 : gen -> outcome) :
  extends n1 n2 -> extends (next_body h n1) (next_body h n2).
Proof.
  intros H g. unfold next_body.
  repeat match goal with
         | |- context [n1 ?x] =>
             let E := fresh "E" in
             pose proof (H x) as E; destruct (n1 x) eqn:?;
             [ rewrite E by discriminate | rewrite E by discriminate
             | rewrite E by discriminate | clear E ]
         | |- context [match ?x with _ => _ end] =>
             lazymatch x with
             | context [n1] => fail
             | context [n2] => fail
             | _ => destruct x eqn:?
             end
         | |- _ -> _ => intros ?
         | |- _ => congruence
         end.
Qed.

Lemma next_S (h : heap) (fuel : nat) (g : gen) :
  next h fuel g <> OutOfFuel -> next h (S fuel) g = next h fuel g.
Proof.
  revert g. induction fuel as [|fuel IH]; intros g Hg.
  - simpl in Hg. congruence.
  - change (next_body h (next h (S fuel)) g = next_body h (next h fuel) g).
    apply next_body_extends; [exact IH|exact Hg].
Qed.

Lemma next_le (h : heap) (fuel fuel' : nat) (g : gen) :
  fuel <= fuel' -> next h fuel g <> OutOfFuel -> next h fuel' g = next h fuel g.
Proof.
  induction 1 as [|m Hle IH]; intros Hg; [reflexivity|].
  rewrite next_S; rewrite IH; auto.
Qed.

Lemma islice_le (h : heap) (fuel fuel' k : nat) (g : gen) (items : list (result * string)) :
  fuel <= fuel' -> islice h fuel k g = Some items -> islice h fuel' k g = Some items.
Proof.
  intros Hle. revert g items. induction k as [|k IH]; intros g items; simpl; [auto|].
  destruct (next h fuel g) eqn:E; try discriminate.
  - rewrite (next_le h fuel fuel') by (auto; rewrite E; discriminate). rewrite E.
    destruct (islice h fuel k g0) eqn:E'; [|discriminate].
    rewrite (IH _ _ E'). auto.
  - rewrite (next_le h fuel fuel') by (auto; rewrite E; discriminate). rewrite E. auto.
Qed.


Lemma islice_S (h : heap) (fuel k : nat) (g : gen) :
  islice h fuel (S k) g
  = match next h fuel g with
    | Yield r t g' =>
        match islice h fuel k g' with
        | Some items => Some ((r, t) :: items)
        | None => None
        end
    | StopIteration => Some []
    | Raise _ | OutOfFuel => None
    end.
Proof. reflexivity. Qed.

(** A generator whose first call of [next()] does what the first call on
    another generator does yields the same pairs. *)
Lemma islice_same_step (h : heap) (fuel fuel' k : nat) (g g' : gen)
    (items : list (result * string)) :
  fuel <= fuel' ->
  next h fuel' g' = next h fuel g ->
  islice h fuel k g = Some items ->
  islice h fuel' k g' = Some items.
Proof.
  intros Hle Hstep. destruct k as [|k]; [auto|].
  rewrite !islice_S, Hstep.
  destruct (next h fuel g) as [r t g1| | |]; try discriminate; [|auto].
  destruct (islice h fuel k g1) as [items1|] eqn:E; [|discriminate].
  rewrite (islice_le h fuel fuel' k g1 items1 Hle E). auto.
Qed.

(** ** Literal *)

(** C8. For a Literal node [Symbol(s)], [parse(text)] yields exactly one pair,
    the built match of [s] with the rest of the input after [s], when the
    input starts with [s], and yields nothing (it stops, it does not raise)
    when the input does not start with [s]. *)
Theorem Symbol_parse_yields_once (h : heap) (l : loc) (self : node)
    (s text : string) (fuel k : nat) :
  h !! l = Some self ->
  cls self = Symbol s ->
  (forall rest, text = String.append s rest ->
     islice h (S fuel) (S (S k)) (parse l text) = Some [(_build self [RStr s], rest)])
  /\ ((forall rest, text <> String.append s rest) ->
     islice h (S fuel) (S (S k)) (parse l text) = Some []).
Proof.
  intros Hl Hcls. split.
  - intros rest ->. simpl. rewrite Hl, Hcls, startswith_append, slice_from_append.
    reflexivity.
  - intros Hno. simpl. rewrite Hl, Hcls.
    destruct (startswith text s) eqn:E; [|reflexivity].
    destruct (startswith_inv _ _ E) as [rest ->]. destruct (Hno rest). reflexivity.
Qed.

Lemma Symbol_parse_yields_once_witness :
  Samples.reps !! 1 = Some (Samples.anonymous false (Symbol "aa"))
  /\ islice Samples.reps 1 2 (parse 1 "aab") = Some [(RInline [RStr "aa"], "b")]
  /\ islice Samples.reps 1 2 (parse 1 "aba") = Some [].
Proof.
  destruct (Symbol_parse_yields_once Samples.reps 1
              (Samples.anonymous false (Symbol "aa")) "aa" "aab" 0 0
              eq_refl eq_refl) as [Hyes _].
  destruct (Symbol_parse_yields_once Samples.reps 1
              (Samples.anonymous false (Symbol "aa")) "aa" "aba" 0 0
              eq_refl eq_refl) as [_ Hno].
  split; [reflexivity|]. split.
  - apply (Hyes "b"). reflexivity.
  - apply Hno. intros rest. simpl. discriminate.
Defined.

(** ** Tree builder *)

Lemma flatten_children_spliced (children : list result) :
  concat (map spliced children) = flatten_children children.
Proof.
  induction children as [|child rest IH]; [reflexivity|].
  simpl. rewrite IH. destruct child; reflexivity.
Qed.

(** C5, as the claim states it, fails: a prepared node named by the empty
    string, neither discarded nor inlined, builds a tree called
    ["<unnamed node>"] and not a tree carrying the node's name. *)
Lemma _build_empty_name_counterexample :
  _build (prepared_node (Some "") false false (Option [])) [RStr "x"]
  <> tree_builder name_unless_unset (Some "") false false [RStr "x"].
Proof. discriminate. Qed.

(** C5, amended. For every prepared node and every list of raw child
    results, [_build] produces the Discarded marker when the discard flag is
    true whatever the children; otherwise it flattens the children (Inline
    markers spliced element-wise, Discarded markers dropped) and wraps them in
    an Inline marker when the inline flag is true, and otherwise produces a
    Named Tree with the node's name, falling back to ["<unnamed node>"] when
    the name is unset or is the empty string. *)
Theorem _build_tree_builder (nm : option string) (d i : bool) (k : kind)
    (children : list result) :
  _build (prepared_node nm d i k) children
  = tree_builder name_unless_unset_or_empty nm d i children.
Proof.
  unfold _build, tree_builder. simpl. rewrite flatten_children_spliced.
  destruct d; [reflexivity|]. destruct i; [reflexivity|]. simpl.
  destruct nm as [[|a s]|]; reflexivity.
Qed.

(** ** Construction of malformed nodes *)

Lemma fresh_loc_unused (h : heap) : h !! fresh_loc h = None.
Proof. apply not_elem_of_dom. unfold fresh_loc. apply is_fresh. Qed.

(** C4, as the claim states it, fails: [Sequence([])] is constructed without
    any failure, and the failure is the [IndexError] of the first pull on the
    generator [parse] returns. *)
Lemma Sequence_empty_counterexample :
  exists (l : loc) (h : heap),
    Sequence_init ∅ [] = Ok (l, h)
    /\ next h 1 (parse l "abc") = Raise IndexError.
Proof. exists 0, {[ 0 := new_node (Sequence []) ]}. split; reflexivity. Qed.

(** C4, amended. Constructing a Sequence with an empty sub-node list
    succeeds: it allocates a new node and checks nothing.  The violation shows
    at run time and loudly: on every input the first pull on the generator of
    [parse] raises [IndexError]; it never passes for a silent absence of
    matches. *)
Theorem Sequence_empty_raises_on_first_pull (h : heap) :
  exists (l : loc) (h' : heap),
    Sequence_init h [] = Ok (l, h')
    /\ h !! l = None
    /\ h' !! l = Some (new_node (Sequence []))
    /\ forall (h'' : heap) (self : node) (text : string) (fuel k : nat),
         h'' !! l = Some self -> cls self = Sequence [] ->
         next h'' (S fuel) (parse l text) = Raise IndexError
         /\ islice h'' (S fuel) (S k) (parse l text) = None.
Proof.
  exists (fresh_loc h), (<[fresh_loc h := new_node (Sequence [])]> h).
  split; [reflexivity|]. split; [apply fresh_loc_unused|].
  split; [apply lookup_insert_eq|].
  intros h'' self text fuel k Hl Hcls. simpl. rewrite Hl, Hcls. auto.
Qed.

(** ** Repetition with a zero upper bound *)

(** C2 does not hold of the code: [Repetition(Symbol("a"), 0, 0)] on the
    input ["a"] yields the empty match and then a match of one repetition.
    The first frame of the stack is pushed without looking at [ma]. *)
Lemma Repetition_zero_zero_yields_twice :
  Samples.reps !! 3 = Some (Samples.anonymous false (Repetition 0 0 (Some 0)))
  /\ islice Samples.reps 4 3 (parse 3 "a")
     = Some [(RInline [], "a"); (RInline [RStr "a"], "")].
Proof. split; reflexivity. Qed.

(** ** Repetition with the lower bound above the upper bound *)

(** C3, as the claim states it, fails: [Repetition(a, 2, 1)] is constructed
    without any failure and, once prepared, yields a match of two repetitions
    on the input ["aaa"]. *)
Lemma Repetition_min_above_max_counterexample :
  exists (l : loc) (h1 h2 : heap) (visited : list loc),
    Repetition_init Letters.letter 0 2 (Some 1) = Ok (l, h1)
    /\ prepare 2 h1 l = Ok (h2, visited)
    /\ islice h2 6 3 (parse l "aaa") = Some [(RInline [RStr "a"; RStr "a"], "a")].
Proof.
  do 4 eexists. split; [reflexivity|]. split; [vm_compute; reflexivity|].
  vm_compute. reflexivity.
Qed.

Lemma _build_same_flags (self1 self2 : node) (r : list result) :
  name self1 = name self2 -> discard self1 = discard self2 ->
  inline self1 = inline self2 -> _build self1 r = _build self2 r.
Proof. unfold _build. intros -> -> ->. reflexivity. Qed.

Section MinAboveMax.

Variables (h : heap) (l1 l2 : loc) (self1 self2 : node) (base : loc) (mi ma : nat).
Hypothesis Hl1 : h !! l1 = Some self1.
Hypothesis Hl2 : h !! l2 = Some self2.
Hypothesis Hcls1 : cls self1 = Repetition base mi (Some ma).
Hypothesis Hcls2 : cls self2 = Repetition base mi (Some mi).
Hypothesis Hname : name self1 = name self2.
Hypothesis Hdiscard : discard self1 = discard self2.
Hypothesis Hinline : inline self1 = inline self2.
Hypothesis Hbounds : ma < mi.

(** Once the stack has reached [mi], neither bound lets a frame through. *)
Lemma resume_min_above_max stack pending :
  (pending <> None -> mi <= length stack) ->
  resume (Some ma) base stack pending = resume (Some mi) base stack pending.
Proof.
  intros Hp. destruct pending as [[r t]|]; [|reflexivity]. simpl.
  assert (mi <= length stack) as Hlen by (apply Hp; discriminate).
  destruct (Nat.ltb_spec (length stack) ma); [lia|].
  destruct (Nat.ltb_spec (length stack) mi); [lia|]. reflexivity.
Qed.

Lemma next_same_frames (fuel : nat) (g1 g2 : gen) :
  same_frames l1 l2 mi g1 g2 ->
  same_outcome (same_frames l1 l2 mi) (next h fuel g1) (next h fuel g2).
Proof.
  revert g1 g2. induction fuel as [|fuel IH]; intros g1 g2 Hg; [constructor|].
  destruct Hg as [stack pending Hp]. simpl.
  rewrite Hl1, Hl2, Hcls1, Hcls2, (resume_min_above_max _ _ Hp).
  destruct (resume (Some mi) base stack pending) as [|[acc sub] below];
    [constructor|].
  destruct (next h fuel sub) as [r t sub'| | |]; try constructor.
  - simpl. destruct (Nat.leb_spec mi (S (length below))) as [Hle|Hgt].
    + rewrite (_build_same_flags self1 self2) by assumption.
      constructor. constructor. intros _. exact Hle.
    + apply IH. constructor. intros []. reflexivity.
  - apply IH. constructor. intros []. reflexivity.
Qed.

Lemma islice_same_frames (fuel k : nat) (g1 g2 : gen) :
  same_frames l1 l2 mi g1 g2 -> islice h fuel k g1 = islice h fuel k g2.
Proof.
  revert g1 g2. induction k as [|k IH]; intros g1 g2 Hg; [reflexivity|].
  simpl. destruct (next_same_frames fuel g1 g2 Hg) as [r t g1' g2' Hg'| | |];
    try reflexivity.
  rewrite (IH _ _ Hg'). reflexivity.
Qed.

Lemma parse_min_above_max (fuel k : nat) (text : string) :
  islice h fuel k (parse l1 text) = islice h fuel k (parse l2 text).
Proof.
  destruct k as [|k]; [reflexivity|]. destruct fuel as [|fuel]; [reflexivity|].
  simpl. rewrite Hl1, Hl2, Hcls1, Hcls2.
  destruct (Nat.eqb_spec mi 0) as [Hz|_]; [lia|].
  assert (same_frames l1 l2 mi (GRepetition l1 [([], GStart base text)] None)
            (GRepetition l2 [([], GStart base text)] None)) as Hg
    by (constructor; intros []; reflexivity).
  destruct (next_same_frames fuel _ _ Hg) as [r t g1' g2' Hg'| | |];
    try reflexivity.
  rewrite (islice_same_frames (S fuel) k _ _ Hg'). reflexivity.
Qed.

End MinAboveMax.

(** C3, amended. For every Repetition node constructed with [min > max],
    construction succeeds (it allocates a new node and checks nothing), and
    on every input [parse] yields exactly what the same node with [max] equal
    to [min] yields: [max] is not looked at before the stack has reached
    [min], and never lets a frame through afterwards. *)
Theorem Repetition_min_above_max_as_exact (h : heap) (l1 l2 : loc)
    (self1 self2 : node) (base : loc) (mi ma : nat) (text : string) (fuel k : nat) :
  h !! l1 = Some self1 ->
  h !! l2 = Some self2 ->
  cls self1 = Repetition base mi (Some ma) ->
  cls self2 = Repetition base mi (Some mi) ->
  name self1 = name self2 ->
  discard self1 = discard self2 ->
  inline self1 = inline self2 ->
  ma < mi ->
  (exists (l : loc) (h' : heap),
     Repetition_init h base mi (Some ma) = Ok (l, h')
     /\ h' !! l = Some (new_node (Repetition base mi (Some ma))))
  /\ islice h fuel k (parse l1 text) = islice h fuel k (parse l2 text).
Proof.
  intros Hl1 Hl2 Hc1 Hc2 Hn Hd Hi Hlt. split.
  - exists (fresh_loc h), (<[fresh_loc h := new_node (Repetition base mi (Some ma))]> h).
    split; [reflexivity|]. apply lookup_insert_eq.
  - eapply parse_min_above_max; eassumption.
Qed.

Lemma Repetition_min_above_max_as_exact_witness :
  1 < 2
  /\ islice Samples.reps 6 3 (parse 4 "aaa") = islice Samples.reps 6 3 (parse 5 "aaa")
  /\ islice Samples.reps 6 3 (parse 5 "aaa") = Some [(RInline [RStr "a"; RStr "a"], "a")].
Proof.
  split; [lia|]. split; [|reflexivity].
  apply (Repetition_min_above_max_as_exact Samples.reps 4 5
           (Samples.anonymous false (Repetition 0 2 (Some 1)))
           (Samples.anonymous false (Repetition 0 2 (Some 2)))
           0 2 1 "aaa" 6 3);
    solve [reflexivity | lia].
Defined.

(** ** Remaining text *)

Section Within.

Variables (h : heap) (text : string).

Lemma within_push stack r node t :
  Forall (fun frame => within text frame.2) stack ->
  is_suffix t text ->
  Forall (fun frame : list result * gen => within text frame.2) (push stack r node t).
Proof.
  intros Hstack Ht. destruct stack as [|[acc sub] below]; [constructor|].
  simpl. constructor; [|exact Hstack]. constructor. exact Ht.
Qed.

Lemma within_resume ma base stack pending :
  Forall (fun frame => within text frame.2) stack ->
  (forall r t, pending = Some (r, t) -> is_suffix t text) ->
  Forall (fun frame : list result * gen => within text frame.2)
    (resume ma base stack pending).
Proof.
  intros Hstack Hp. destruct pending as [[r t]|]; [|exact Hstack]. simpl.
  destruct (below_max ma (length stack)); [|exact Hstack].
  apply within_push; [exact Hstack|]. eapply Hp. reflexivity.
Qed.

Lemma next_within (fuel : nat) (g : gen) :
  within text g -> yields_within text (next h fuel g).
Proof.
  revert g. induction fuel as [|fuel IH]; intros g Hg; [exact I|].
  simpl. destruct Hg as [l t Ht|l t cur rest Ht Hcur|l stack Hstack|l t Ht
                         |l stack pending Hstack Hp|]; simpl.
  - destruct (h !! l) as [self|]; [|exact I].
    destruct (cls self) as [s|s _re|options|sequence|base mi ma].
    + destruct (startswith t s); [|exact I]. split; [|constructor].
      eapply is_suffix_trans; [apply is_suffix_slice_from|exact Ht].
    + destruct (_re t) as [e|]; [|exact I]. split; [|constructor].
      eapply is_suffix_trans; [apply is_suffix_slice_from|exact Ht].
    + destruct options as [|o rest]; [exact I|].
      apply IH. constructor; [exact Ht|]. constructor. exact Ht.
    + destruct sequence as [|first rest]; [exact I|].
      apply IH. constructor. constructor; [|constructor]. constructor. exact Ht.
    + destruct (mi =? 0).
      * split; [exact Ht|]. constructor. exact Ht.
      * apply IH. constructor; [|discriminate].
        constructor; [|constructor]. constructor. exact Ht.
  - destruct (h !! l) as [self|]; [|exact I].
    pose proof (IH cur Hcur) as Hnext.
    destruct (next h fuel cur) as [r t' cur'| | |]; try exact I.
    + destruct Hnext as [Ht' Hcur']. split; [exact Ht'|]. constructor; assumption.
    + destruct rest as [|o rest']; [exact I|].
      apply IH. constructor; [exact Ht|]. constructor. exact Ht.
  - destruct (h !! l) as [self|]; [|exact I].
    destruct (cls self) as [| | |sequence|]; try exact I.
    destruct Hstack as [|[acc sub] below Hsub Hbelow]; [exact I|].
    pose proof (IH sub Hsub) as Hnext.
    destruct (next h fuel sub) as [r t' sub'| | |]; try exact I.
    + destruct Hnext as [Ht' Hsub'].
      assert (Forall (fun frame : list result * gen => within text frame.2)
                ((acc, sub') :: below)) as Hstack' by (constructor; assumption).
      match goal with |- context [if ?c then _ else _] => destruct c end.
      * split; [exact Ht'|]. constructor. exact Hstack'.
      * destruct (sequence !! S (length below)) as [node|]; [|exact I].
        apply IH. constructor.
        apply (within_push ((acc, sub') :: below)); assumption.
    + apply IH. constructor. exact Hbelow.
  - destruct (h !! l) as [self|]; [|exact I].
    destruct (cls self) as [| | | |base mi ma]; try exact I.
    apply IH. constructor; [|discriminate].
    constructor; [|constructor]. constructor. exact Ht.
  - destruct (h !! l) as [self|]; [|exact I].
    destruct (cls self) as [| | | |base mi ma]; try exact I.
    pose proof (within_resume ma base stack pending Hstack Hp) as Hres.
    destruct Hres as [|[acc sub] below Hsub Hbelow]; [exact I|].
    pose proof (IH sub Hsub) as Hnext.
    destruct (next h fuel sub) as [r t' sub'| | |]; try exact I.
    + destruct Hnext as [Ht' Hsub'].
      assert (Forall (fun frame : list result * gen => within text frame.2)
                ((acc, sub') :: below)) as Hstack' by (constructor; assumption).
      match goal with |- context [if ?c then _ else _] => destruct c end.
      * split; [exact Ht'|]. constructor; [exact Hstack'|].
        intros r0 t0 [= _ <-]. exact Ht'.
      * apply IH. constructor; [|discriminate].
        apply (within_push ((acc, sub') :: below)); assumption.
    + apply IH. constructor; [exact Hbelow|discriminate].
  - exact I.
Qed.

Lemma islice_within (fuel k : nat) (g : gen) (items : list (result * string)) :
  within text g -> islice h fuel k g = Some items ->
  Forall (fun item => is_suffix item.2 text) items.
Proof.
  revert g items. induction k as [|k IH]; intros g items Hg; simpl.
  - intros [= <-]. constructor.
  - pose proof (next_within fuel g Hg) as Hnext.
    destruct (next h fuel g) as [r t g'| | |]; try discriminate.
    + destruct Hnext as [Ht Hg'].
      destruct (islice h fuel k g') as [items'|] eqn:E; [|discriminate].
      intros [= <-]. constructor; [exact Ht|]. eapply IH; eassumption.
    + intros [= <-]. constructor.
Qed.

End Within.

(** C10. For a node of any type and any input text, every pair
    [(result, remaining)] that [parse] yields has [remaining] equal to the
    input with a prefix, the consumed portion, removed. *)
Theorem parse_remaining_is_suffix (h : heap) (node : loc) (text : string)
    (fuel k : nat) (items : list (result * string)) (r : result) (remaining : string) :
  islice h fuel k (parse node text) = Some items ->
  (r, remaining) ∈ items ->
  exists consumed : string, text = String.append consumed remaining.
Proof.
  intros Hitems Hin.
  assert (within text (parse node text)) as Hg
    by (constructor; apply is_suffix_refl).
  pose proof (islice_within h text fuel k _ items Hg Hitems) as Hall.
  rewrite Forall_forall in Hall. exact (Hall _ Hin).
Qed.

Lemma parse_remaining_is_suffix_witness :
  islice Samples.reps 9 3 (parse 6 "aaa")
  = Some [(RInline [RStr "a"], "aa"); (RInline [RStr "a"; RStr "a"], "a");
          (RInline [RStr "a"; RStr "a"; RStr "a"], "")]
  /\ exists consumed : string, "aaa" = String.append consumed "a".
Proof.
  split; [reflexivity|].
  apply (parse_remaining_is_suffix Samples.reps 6 "aaa" 9 3
           [(RInline [RStr "a"], "aa"); (RInline [RStr "a"; RStr "a"], "a");
            (RInline [RStr "a"; RStr "a"; RStr "a"], "")]
           (RInline [RStr "a"; RStr "a"]) "a").
  - reflexivity.
  - apply list_elem_of_further. apply list_elem_of_here.
Defined.

(** ** Choice *)

Section Choice.

Variables (h : heap) (l : loc) (self : node) (text : string).
Hypothesis Hl : h !! l = Some self.

Lemma next_GOption_yield fuel cur rest r t cur' :
  next h fuel cur = Yield r t cur' ->
  next h (S fuel) (GOption l text cur rest)
  = Yield (_build self [r]) t (GOption l text cur' rest).
Proof. intros E. simpl. rewrite Hl, E. reflexivity. Qed.

Lemma next_GOption_last fuel cur :
  next h fuel cur = StopIteration ->
  next h (S fuel) (GOption l text cur []) = StopIteration.
Proof. intros E. simpl. rewrite Hl, E. reflexivity. Qed.

Lemma next_GOption_more fuel cur o rest :
  next h fuel cur = StopIteration ->
  next h (S fuel) (GOption l text cur (o :: rest))
  = next h fuel (GOption l text (GStart o text) rest).
Proof. intros E. simpl. rewrite Hl, E. reflexivity. Qed.

Lemma next_parse_Option fuel o rest :
  cls self = Option (o :: rest) ->
  next h (S fuel) (parse l text) = next h fuel (GOption l text (GStart o text) rest).
Proof. intros E. simpl. rewrite Hl, E. reflexivity. Qed.

(** The last alternative: the generator expression around [cur] rebuilds
    what [cur] yields and stops with it. *)
Lemma islice_GOption_last (fuel k : nat) (cur : gen) (items : list (result * string)) :
  islice h fuel k cur = Some items ->
  islice h (S fuel) k (GOption l text cur []) = Some (map (rebuild self) items).
Proof.
  revert cur items. induction k as [|k IH]; intros cur items.
  - intros [= <-]. reflexivity.
  - rewrite !islice_S.
    destruct (next h fuel cur) as [r t cur'| | |] eqn:E; try discriminate.
    + rewrite (next_GOption_yield _ _ _ _ _ _ E).
      destruct (islice h fuel k cur') as [items'|] eqn:E'; [|discriminate].
      intros [= <-]. rewrite (IH _ _ E'). reflexivity.
    + rewrite (next_GOption_last _ _ E). intros [= <-]. reflexivity.
Qed.

(** An alternative followed by the alternative [b]. *)
Lemma islice_GOption_then (b : loc) (fuel k : nat) (cur : gen)
    (la lb : list (result * string)) :
  islice h fuel k cur = Some la ->
  islice h fuel (k - length la) (parse b text) = Some lb ->
  islice h (S (S fuel)) k (GOption l text cur [b])
  = Some (map (rebuild self) (la ++ lb)).
Proof.
  revert cur la. induction k as [|k IH]; intros cur la Ha Hb.
  - injection Ha as <-. injection Hb as <-. reflexivity.
  - rewrite islice_S in Ha.
    destruct (next h fuel cur) as [r t cur'| | |] eqn:Ecur; try discriminate.
    + destruct (islice h fuel k cur') as [la'|] eqn:E; [|discriminate].
      injection Ha as <-. change (S k - length ((r, t) :: la')) with (k - length la') in Hb.
      rewrite islice_S, (next_GOption_yield (S fuel) cur [b] r t cur'), (IH _ _ E Hb);
        [reflexivity|].
      rewrite next_S; rewrite Ecur; [reflexivity|discriminate].
    + injection Ha as <-. rewrite Nat.sub_0_r in Hb.
      apply (islice_same_step h (S fuel) (S (S fuel)) (S k)
               (GOption l text (parse b text) [])); [lia| |].
      * rewrite next_GOption_more; [reflexivity|].
        rewrite next_S; rewrite Ecur; [reflexivity|discriminate].
      * apply islice_GOption_last. exact Hb.
Qed.

End Choice.

(** C7. For a Choice node with the alternatives [A; B] and every input, the
    results of [parse] are the results of [A.parse] on the input, each wrapped
    through the build step of the Choice, followed by the results of
    [B.parse] likewise wrapped, in this order; this holds of every prefix of
    the enumeration and for every amount of fuel that suffices, so the order
    is the same at every call. *)
Theorem Option_parse_concatenates (h : heap) (l a b : loc) (self : node)
    (text : string) (fuel fuel' k : nat) (la lb : list (result * string)) :
  h !! l = Some self ->
  cls self = Option [a; b] ->
  islice h fuel k (parse a text) = Some la ->
  islice h fuel (k - length la) (parse b text) = Some lb ->
  fuel + 3 <= fuel' ->
  islice h fuel' k (parse l text) = Some (map (rebuild self) la ++ map (rebuild self) lb).
Proof.
  intros Hl Hcls Ha Hb Hfuel. rewrite <- map_app.
  apply (islice_le h (S (S (S fuel)))); [lia|].
  apply (islice_same_step h (S (S fuel)) (S (S (S fuel))) k
           (GOption l text (parse a text) [b])); [lia| |].
  - apply (next_parse_Option h l self text Hl). exact Hcls.
  - apply (islice_GOption_then h l self text Hl b fuel k _ la lb Ha Hb).
Qed.

Lemma Option_parse_concatenates_witness :
  islice Samples.reps 1 5 (parse 0 "aab") = Some [(RInline [RStr "a"], "ab")]
  /\ islice Samples.reps 1 4 (parse 1 "aab") = Some [(RInline [RStr "aa"], "b")]
  /\ islice Samples.reps 4 5 (parse 2 "aab")
     = Some [(RInline [RStr "a"], "ab"); (RInline [RStr "aa"], "b")].
Proof.
  split; [reflexivity|]. split; [reflexivity|].
  apply (Option_parse_concatenates Samples.reps 2 0 1
           (Samples.anonymous false (Option [0; 1])) "aab" 1 4 5
           [(RInline [RStr "a"], "ab")] [(RInline [RStr "aa"], "b")]);
    solve [reflexivity | lia].
Defined.

(** ** Preparation *)

Lemma elem_of_unprepared (h : heap) (x : loc) :
  x ∈ unprepared h <-> exists n, h !! x = Some n /\ _prepared n = false.
Proof.
  unfold unprepared. rewrite elem_of_dom. unfold is_Some.
  setoid_rewrite map_lookup_filter_Some. simpl. reflexivity.
Qed.

Lemma BaseGrammarNode_prepare_prepared (n : node) :
  _prepared n = true -> BaseGrammarNode_prepare n = (n, false).
Proof. unfold BaseGrammarNode_prepare. intros ->. reflexivity. Qed.

Lemma BaseGrammarNode_prepare_first (n : node) :
  _prepared n = false ->
  (BaseGrammarNode_prepare n).2 = true
  /\ flags_resolved n (BaseGrammarNode_prepare n).1.
Proof.
  unfold BaseGrammarNode_prepare, flags_resolved, is_Symbol. intros ->. simpl.
  split; [reflexivity|]. split; [|split; [|auto]].
  - destruct (discard n); [reflexivity|].
    destruct (cls n); [left; eauto|right; split; congruence ..].
  - destruct (inline n); [reflexivity|].
    destruct (name n); [right|left]; split; congruence.
Qed.

Lemma resolved_refl (h : heap) : resolved h h [].
Proof.
  split; [constructor|]. split; [intros x Hx; inversion Hx|].
  intros x. destruct (h !! x); reflexivity.
Qed.

Lemma resolved_mark (h : heap) (l : loc) (n : node) :
  h !! l = Some n -> _prepared n = false ->
  resolved h (<[l := (BaseGrammarNode_prepare n).1]> h) [l].
Proof.
  intros Hl Hn. split; [apply NoDup_singleton|]. split.
  - intros x Hx. apply list_elem_of_singleton in Hx as ->.
    apply elem_of_unprepared. eauto.
  - intros x. destruct (decide (l = x)) as [<-|Hne].
    + rewrite lookup_insert_eq, Hl. simpl.
      rewrite decide_True by apply list_elem_of_here. reflexivity.
    + rewrite lookup_insert_ne by exact Hne.
      destruct (h !! x); [|reflexivity]. simpl.
      rewrite decide_False; [reflexivity|].
      intros Hx. apply list_elem_of_singleton in Hx. congruence.
Qed.

Lemma resolved_visited_prepared (h h' : heap) (visited : list loc) (x : loc) :
  resolved h h' visited -> x ∈ visited -> x ∉ unprepared h'.
Proof.
  intros (_ & Hun & Hlook) Hx Hx'.
  apply elem_of_unprepared in Hx' as (n' & Hn' & Hp').
  pose proof (Hun x Hx) as Hx0. apply elem_of_unprepared in Hx0 as (n & Hn & Hp).
  rewrite Hlook, Hn in Hn'. simpl in Hn'. rewrite decide_True in Hn' by assumption.
  injection Hn' as <-. destruct (BaseGrammarNode_prepare_first n Hp) as (_ & Hflags).
  destruct Hflags as (_ & _ & _ & _ & Hprep). congruence.
Qed.

Lemma resolved_unprepared (h h' : heap) (visited : list loc) :
  resolved h h' visited -> unprepared h' ⊆ unprepared h.
Proof.
  intros (_ & Hun & Hlook) x Hx.
  apply elem_of_unprepared in Hx as (n' & Hn' & Hp').
  rewrite Hlook in Hn'. destruct (h !! x) as [n|] eqn:Hn; [|discriminate].
  simpl in Hn'. destruct (decide (x ∈ visited)) as [Hin|Hout].
  - apply Hun. exact Hin.
  - injection Hn' as <-. apply elem_of_unprepared. eauto.
Qed.

Lemma resolved_trans (h h1 h2 : heap) (v1 v2 : list loc) :
  resolved h h1 v1 -> resolved h1 h2 v2 -> resolved h h2 (v1 ++ v2).
Proof.
  intros H1 H2.
  assert (forall x, x ∈ v1 -> x ∉ v2) as Hdisj.
  { intros x Hx1 Hx2. apply (resolved_visited_prepared h h1 v1 x H1 Hx1).
    destruct H2 as (_ & Hun2 & _). apply Hun2. exact Hx2. }
  pose proof (resolved_unprepared h h1 v1 H1) as Hsub.
  destruct H1 as (Hnd1 & Hun1 & Hlook1). destruct H2 as (Hnd2 & Hun2 & Hlook2).
  split; [apply NoDup_app; auto|]. split.
  - intros x Hx. apply elem_of_app in Hx as [Hx|Hx]; [auto|]. apply Hsub. auto.
  - intros x. rewrite Hlook2, Hlook1. destruct (h !! x) as [n|]; [|reflexivity].
    simpl. f_equal.
    destruct (decide (x ∈ v1)) as [Hx1|Hx1], (decide (x ∈ v2)) as [Hx2|Hx2].
    + destruct (Hdisj x Hx1 Hx2).
    + rewrite decide_True by (apply elem_of_app; auto). reflexivity.
    + rewrite decide_True by (apply elem_of_app; auto). reflexivity.
    + rewrite decide_False; [reflexivity|].
      intros Hx. apply elem_of_app in Hx as [Hx|Hx]; auto.
Qed.

Lemma resolved_is_Some (h h' : heap) (visited : list loc) (x : loc) :
  resolved h h' visited -> is_Some (h !! x) -> is_Some (h' !! x).
Proof.
  intros (_ & _ & Hlook) [n Hn]. rewrite Hlook, Hn. simpl. eauto.
Qed.

Lemma BaseGrammarNode_prepare_cls (n : node) : cls (BaseGrammarNode_prepare n).1 = cls n.
Proof. unfold BaseGrammarNode_prepare. destruct (_prepared n); reflexivity. Qed.

Lemma resolved_closed (h h' : heap) (visited : list loc) :
  resolved h h' visited -> closed h -> closed h'.
Proof.
  intros Hres Hclosed x n' Hn'. pose proof Hres as (_ & _ & Hlook).
  rewrite Hlook in Hn'. destruct (h !! x) as [n|] eqn:Hn; [|discriminate].
  simpl in Hn'. injection Hn' as <-.
  specialize (Hclosed x n Hn). simpl in Hclosed.
  assert (cls (if decide (x ∈ visited) then (BaseGrammarNode_prepare n).1 else n)
          = cls n) as ->
    by (destruct (decide (x ∈ visited)); [apply BaseGrammarNode_prepare_cls|reflexivity]).
  eapply Forall_impl; [exact Hclosed|].
  intros c Hc. simpl in Hc. eapply resolved_is_Some; eassumption.
Qed.

Lemma resolved_kept (h h' : heap) (visited : list loc) (x : loc) (n : node) :
  resolved h h' visited -> h !! x = Some n -> _prepared n = true -> h' !! x = Some n.
Proof.
  intros (_ & Hun & Hlook) Hn Hp. rewrite Hlook, Hn. simpl.
  rewrite decide_False; [reflexivity|]. intros Hx.
  apply Hun, elem_of_unprepared in Hx as (n0 & Hn0 & Hp0). congruence.
Qed.

(** A call of [prepare] on a prepared node returns at once. *)
Lemma prepare_prepared (h : heap) (l : loc) (n : node) (fuel : nat) :
  h !! l = Some n -> _prepared n = true -> prepare (S fuel) h l = Ok (h, []).
Proof.
  intros Hl Hp. simpl. rewrite Hl, (BaseGrammarNode_prepare_prepared n Hp). reflexivity.
Qed.

Section PrepareEach.

Variables (prep : heap -> loc -> res (heap * list loc)) (bound : nat).
Hypothesis prep_resolves :
  forall h l, closed h -> is_Some (h !! l) -> size (unprepared h) <= bound ->
    exists h' visited, prep h l = Ok (h', visited) /\ resolved h h' visited.

Lemma prepare_each_resolves (os : list loc) (h : heap) :
  closed h -> Forall (fun o => is_Some (h !! o)) os -> size (unprepared h) <= bound ->
  exists h' visited, prepare_each prep h os = Ok (h', visited) /\ resolved h h' visited.
Proof.
  revert h. induction os as [|o os IH]; intros h Hclosed Hos Hsize.
  - exists h, []. split; [reflexivity|apply resolved_refl].
  - inversion Hos as [|? ? Ho Hos']; subst.
    destruct (prep_resolves h o Hclosed Ho Hsize) as (h1 & v1 & E1 & R1).
    destruct (IH h1) as (h2 & v2 & E2 & R2).
    + eapply resolved_closed; eassumption.
    + eapply Forall_impl; [exact Hos'|]. intros c Hc. simpl in Hc.
      eapply resolved_is_Some; eassumption.
    + pose proof (subseteq_size _ _ (resolved_unprepared _ _ _ R1)). lia.
    + exists h2, (v1 ++ v2). split; [|eapply resolved_trans; eassumption].
      simpl. rewrite E1, E2. reflexivity.
Qed.

End PrepareEach.

(** With one unit of fuel per unprepared node, and one more, [prepare]
    returns: the heap it returns is the heap it received with the nodes it
    visited resolved, and the node it was called on is prepared. *)
Lemma prepare_resolves (fuel : nat) (h : heap) (l : loc) :
  closed h -> is_Some (h !! l) -> size (unprepared h) <= fuel ->
  exists h' visited, prepare (S fuel) h l = Ok (h', visited) /\ resolved h h' visited.
Proof.
  revert h l. induction fuel as [|fuel IH]; intros h l Hclosed [n Hl] Hsize.
  - destruct (_prepared n) eqn:Hp.
    + exists h, []. split; [eapply prepare_prepared; eassumption|apply resolved_refl].
    + assert (l ∈ unprepared h) as Hin by (apply elem_of_unprepared; eauto).
      assert (size (unprepared h) = 0) as Hzero by lia.
      apply size_empty_inv in Hzero. apply Hzero in Hin. inversion Hin.
  - destruct (_prepared n) eqn:Hp.
    + exists h, []. split; [eapply prepare_prepared; eassumption|apply resolved_refl].
    + pose proof (resolved_mark h l n Hl Hp) as Rmark.
      destruct (BaseGrammarNode_prepare_first n Hp) as [Hfirst _].
      set (h1 := <[l := (BaseGrammarNode_prepare n).1]> h) in *.
      assert (size (unprepared h1) <= fuel) as Hsize1.
      { assert (unprepared h1 ⊂ unprepared h) as Hstrict.
        { split; [eapply resolved_unprepared; exact Rmark|].
          intros Hsub.
          apply (resolved_visited_prepared h h1 [l] l Rmark); [apply list_elem_of_here|].
          apply Hsub, elem_of_unprepared. eauto. }
        apply subset_size in Hstrict. lia. }
      destruct (prepare_each_resolves (prepare (S fuel)) fuel IH (sub_nodes (cls n)) h1)
        as (h2 & v2 & E2 & R2).
      * eapply resolved_closed; eassumption.
      * eapply Forall_impl; [exact (Hclosed l n Hl)|]. intros c Hc. simpl in Hc.
        eapply resolved_is_Some; eassumption.
      * exact Hsize1.
      * exists h2, (l :: v2). split; [|exact (resolved_trans h h1 h2 [l] v2 Rmark R2)].
        cbn [prepare]. rewrite Hl. subst h1.
        destruct (BaseGrammarNode_prepare n) as [n' first] eqn:Eprep.
        simpl in Hfirst, E2. subst first. rewrite E2. reflexivity.
Qed.

Lemma prepare_first_visit (fuel : nat) (h h' : heap) (l : loc) (n : node)
    (visited : list loc) :
  h !! l = Some n -> _prepared n = false ->
  prepare fuel h l = Ok (h', visited) -> exists rest, visited = l :: rest.
Proof.
  intros Hl Hp. destruct fuel as [|fuel]; [discriminate|]. simpl. rewrite Hl.
  unfold BaseGrammarNode_prepare. rewrite Hp.
  destruct (prepare_each _ _ _) as [[h2 v2]| |]; try discriminate.
  intros [= <- <-]. eauto.
Qed.

(** C6. Preparation of a node that is not prepared yet returns, and in the
    heap it returns the flags of that node, and of every node it visited, are
    resolved: [discard], when unset, to true exactly when the node is a
    Literal; [inline], when unset, to true exactly when the node has no name;
    a flag that was set is unchanged. *)
Theorem prepare_resolves_flags (h : heap) (l : loc) (n : node) (fuel : nat) :
  closed h ->
  h !! l = Some n ->
  _prepared n = false ->
  size (unprepared h) <= fuel ->
  exists (h' : heap) (visited : list loc) (n' : node),
    prepare (S fuel) h l = Ok (h', visited)
    /\ h' !! l = Some n'
    /\ flags_resolved n n'
    /\ forall x, x ∈ visited ->
         exists nx nx', h !! x = Some nx /\ h' !! x = Some nx' /\ flags_resolved nx nx'.
Proof.
  intros Hclosed Hl Hp Hsize.
  destruct (prepare_resolves fuel h l Hclosed (ex_intro _ n Hl) Hsize)
    as (h' & visited & E & R).
  assert (forall x, x ∈ visited ->
            exists nx nx', h !! x = Some nx /\ h' !! x = Some nx' /\ flags_resolved nx nx')
    as Hvisited.
  { intros x Hx. pose proof R as (_ & Hun & Hlook).
    pose proof (Hun x Hx) as Hx0. apply elem_of_unprepared in Hx0 as (nx & Hnx & Hpx).
    exists nx, (BaseGrammarNode_prepare nx).1. split; [exact Hnx|]. split.
    - rewrite Hlook, Hnx. simpl. rewrite decide_True by exact Hx. reflexivity.
    - apply BaseGrammarNode_prepare_first. exact Hpx. }
  destruct (prepare_first_visit _ _ _ _ _ _ Hl Hp E) as [rest ->].
  destruct (Hvisited l (list_elem_of_here _ _)) as (nx & nx' & Hnx & Hnx' & Hflags).
  assert (nx = n) as -> by congruence.
  exists h', (l :: rest), nx'. auto.
Qed.

(** C9. On every heap, with or without reference cycles, a call of [prepare]
    returns; it visits no node twice and only nodes that were not prepared;
    the nodes that were prepared are as they were; calling [prepare] again on
    the same node returns the same heap and visits nothing, and so does a
    call on any node that is already prepared: it resolves no flag and does
    not descend into the sub-nodes. *)
Theorem prepare_idempotent_and_terminates (h : heap) (l : loc) (fuel : nat) :
  closed h ->
  is_Some (h !! l) ->
  size (unprepared h) <= fuel ->
  exists (h' : heap) (visited : list loc),
    prepare (S fuel) h l = Ok (h', visited)
    /\ NoDup visited
    /\ (forall x, x ∈ visited -> x ∈ unprepared h /\ x ∉ unprepared h')
    /\ (forall x n, h !! x = Some n -> _prepared n = true -> h' !! x = Some n)
    /\ (forall fuel', prepare (S fuel') h' l = Ok (h', []))
    /\ (forall x n fuel', h !! x = Some n -> _prepared n = true ->
          prepare (S fuel') h x = Ok (h, [])).
Proof.
  intros Hclosed [n Hl] Hsize.
  destruct (prepare_resolves fuel h l Hclosed (ex_intro _ n Hl) Hsize)
    as (h' & visited & E & R).
  exists h', visited. split; [exact E|]. split; [apply R|]. split.
  { intros x Hx. split; [apply R; exact Hx|].
    eapply resolved_visited_prepared; eassumption. }
  split; [intros x nx; apply (resolved_kept _ _ _ _ _ R)|]. split.
  - intros fuel'. destruct (_prepared n) eqn:Hp.
    + eapply prepare_prepared; [|exact Hp]. eapply resolved_kept; eassumption.
    + destruct (prepare_first_visit _ _ _ _ _ _ Hl Hp E) as [rest ->].
      pose proof R as (_ & _ & Hlook). specialize (Hlook l). rewrite Hl in Hlook.
      simpl in Hlook. rewrite decide_True in Hlook by apply list_elem_of_here.
      eapply prepare_prepared; [exact Hlook|].
      apply BaseGrammarNode_prepare_first. exact Hp.
  - intros x nx fuel'. apply prepare_prepared.
Qed.

Lemma prepare_resolves_flags_witness :
  closed IntArray.objects
  /\ size (unprepared IntArray.objects) <= 17
  /\ exists (h' : heap) (visited : list loc) (n' : node),
       prepare 18 IntArray.objects 3 = Ok (h', visited)
       /\ h' !! 3 = Some n'
       /\ flags_resolved (IntArray.mk (Some "array") None None (Option [16])) n'.
Proof.
  assert (closed IntArray.objects) as Hclosed
    by (apply (bool_decide_unpack _); vm_compute; exact I).
  assert (size (unprepared IntArray.objects) <= 17) as Hsize by (vm_compute; lia).
  split; [exact Hclosed|]. split; [exact Hsize|].
  destruct (prepare_resolves_flags IntArray.objects 3
              (IntArray.mk (Some "array") None None (Option [16])) 17
              Hclosed eq_refl eq_refl Hsize)
    as (h' & visited & n' & E & Hn' & Hflags & _).
  exists h', visited, n'. auto.
Defined.

Lemma prepare_idempotent_and_terminates_witness :
  closed IntArray.objects
  /\ size (unprepared IntArray.objects) <= 17
  /\ exists (h' : heap) (visited : list loc),
       prepare 18 IntArray.objects 3 = Ok (h', visited)
       /\ NoDup visited
       /\ forall fuel', prepare (S fuel') h' 3 = Ok (h', []).
Proof.
  assert (closed IntArray.objects) as Hclosed
    by (apply (bool_decide_unpack _); vm_compute; exact I).
  assert (size (unprepared IntArray.objects) <= 17) as Hsize by (vm_compute; lia).
  split; [exact Hclosed|]. split; [exact Hsize|].
  destruct (prepare_idempotent_and_terminates IntArray.objects 3 17
              Hclosed (mk_is_Some _ _ eq_refl) Hsize)
    as (h' & visited & E & Hnodup & _ & _ & Hagain & _).
  exists h', visited. auto.
Defined.

(** ** The order of the results of a Repetition *)

Section Drains.

Variable h : heap.

Lemma drains_stop (fuel : nat) (g : gen) :
  next h fuel g = StopIteration -> drains h g [].
Proof. intros E. exists fuel. rewrite islice_S, E. reflexivity. Qed.

Lemma drains_yield (fuel : nat) (g g' : gen) (r : result) (t : string)
    (items : list (result * string)) :
  next h fuel g = Yield r t g' -> drains h g' items -> drains h g ((r, t) :: items).
Proof.
  intros E [fuel' Hitems]. exists (max fuel fuel'). cbn [length].
  rewrite islice_S, (next_le h fuel) by (try lia; rewrite E; discriminate).
  rewrite E, (islice_le h fuel' (max fuel fuel') _ _ _ (Nat.le_max_r _ _) Hitems).
  reflexivity.
Qed.

Lemma drains_inv (g : gen) (items : list (result * string)) :
  drains h g items ->
  (items = [] /\ exists fuel, next h fuel g = StopIteration)
  \/ exists r t g' items',
       items = (r, t) :: items'
       /\ (exists fuel, next h fuel g = Yield r t g') /\ drains h g' items'.
Proof.
  intros [fuel Hitems]. rewrite islice_S in Hitems.
  destruct (next h fuel g) as [r t g'| | |] eqn:E; try discriminate.
  - right. destruct (islice h fuel (length items) g') as [items'|] eqn:E';
      [|discriminate].
    injection Hitems as <-. exists r, t, g', items'.
    split; [reflexivity|]. split; [eauto|]. exists fuel. exact E'.
  - left. injection Hitems as <-. eauto.
Qed.

(** [g] reaches the first [yield] or the end of [g'] after [d] more turns
    of its own. *)
Lemma drains_silent (d fuel0 : nat) (g g' : gen) (items : list (result * string)) :
  (forall fuel, fuel0 <= fuel -> next h (d + fuel) g = next h fuel g') ->
  drains h g' items -> drains h g items.
Proof.
  intros Hstep Hg'.
  destruct (drains_inv g' items Hg')
    as [[-> [fuel E]]|(r & t & g'' & items' & -> & [fuel E] & Hg'')].
  - apply (drains_stop (d + max fuel0 fuel)).
    rewrite Hstep, (next_le h fuel) by (try lia; rewrite E; discriminate). exact E.
  - apply (drains_yield (d + max fuel0 fuel) g g''); [|exact Hg''].
    rewrite Hstep, (next_le h fuel) by (try lia; rewrite E; discriminate). exact E.
Qed.

Lemma yields_first_none (g : gen) (items : list (result * string)) :
  yields_first h g 0 items -> items = [].
Proof. intros [fuel E]. simpl in E. congruence. Qed.

Lemma yields_first_stop (fuel k : nat) (g : gen) :
  next h fuel g = StopIteration -> yields_first h g k [].
Proof.
  intros E. exists fuel. destruct k as [|k]; [reflexivity|].
  rewrite islice_S, E. reflexivity.
Qed.

Lemma yields_first_yield (fuel k : nat) (g g' : gen) (r : result) (t : string)
    (items : list (result * string)) :
  next h fuel g = Yield r t g' -> yields_first h g' k items ->
  yields_first h g (S k) ((r, t) :: items).
Proof.
  intros E [fuel' Hitems]. exists (max fuel fuel').
  rewrite islice_S, (next_le h fuel) by (try lia; rewrite E; discriminate).
  rewrite E, (islice_le h fuel' (max fuel fuel') _ _ _ (Nat.le_max_r _ _) Hitems).
  reflexivity.
Qed.

(** [g] reaches the first [yield] or the end of [g'] after [d] more turns
    of its own. *)
Lemma yields_first_silent (d fuel0 k : nat) (g g' : gen)
    (items : list (result * string)) :
  (forall fuel, fuel0 <= fuel -> next h (d + fuel) g = next h fuel g') ->
  yields_first h g' k items -> yields_first h g k items.
Proof.
  intros Hstep [fuel Hitems]. destruct k as [|k]; [exists 0; exact Hitems|].
  rewrite islice_S in Hitems.
  destruct (next h fuel g') as [r t g''| | |] eqn:E; try discriminate.
  - destruct (islice h fuel k g'') as [items'|] eqn:E'; [|discriminate].
    injection Hitems as <-.
    apply (yields_first_yield (d + max fuel0 fuel) k g g''); [|exists fuel; exact E'].
    rewrite Hstep, (next_le h fuel) by (try lia; rewrite E; discriminate). exact E.
  - injection Hitems as <-. apply (yields_first_stop (d + max fuel0 fuel)).
    rewrite Hstep, (next_le h fuel) by (try lia; rewrite E; discriminate). exact E.
Qed.

End Drains.

Lemma extensions_nil B self mi ma depth count acc :
  extensions B self mi ma (S depth) count acc [] = Some [].
Proof. reflexivity. Qed.

Lemma extensions_cons B self mi ma depth count acc r t rs :
  extensions B self mi ma (S depth) count acc ((r, t) :: rs)
  = match
      (if (count <? mi) || below_max ma count
       then extensions B self mi ma depth (S count) (acc ++ [r]) (B t)
       else Some []),
      extensions B self mi ma (S depth) count acc rs
    with
    | Some deeper, Some later =>
        Some ((if mi <=? count then [(_build self (acc ++ [r]), t)] else [])
              ++ deeper ++ later)
    | _, _ => None
    end.
Proof. reflexivity. Qed.

Lemma extensions_upto_none B self mi ma depth count acc rs :
  extensions_upto B self mi ma depth 0 count acc rs = Some [].
Proof. destruct depth; [reflexivity|]. destruct rs; reflexivity. Qed.

Lemma extensions_upto_nil B self mi ma depth k count acc :
  extensions_upto B self mi ma (S depth) k count acc [] = Some [].
Proof. destruct k; reflexivity. Qed.

Lemma extensions_upto_cons B self mi ma depth k count acc r t rs :
  extensions_upto B self mi ma (S depth) (S k) count acc ((r, t) :: rs)
  = let own := if mi <=? count then [(_build self (acc ++ [r]), t)] else [] in
    match
      (if (count <? mi) || below_max ma count
       then extensions_upto B self mi ma depth (S k - length own) (S count)
              (acc ++ [r]) (B t)
       else Some [])
    with
    | Some deeper =>
        match
          extensions_upto B self mi ma (S depth) (S k - length own - length deeper)
            count acc rs
        with
        | Some later => Some (own ++ deeper ++ later)
        | None => None
        end
    | None => None
    end.
Proof. reflexivity. Qed.

(** The depth that the first [k] matches need: the repetitions still missing
    to reach [mi], and one more for each match. *)
Lemma extensions_upto_total B self mi ma depth k count acc rs :
  k = 0 \/ (mi - count) + k <= depth ->
  is_Some (extensions_upto B self mi ma depth k count acc rs).
Proof.
  revert k count acc rs. induction depth as [|depth IH]; intros k count acc rs Hdepth.
  { destruct k; [simpl; eauto|lia]. }
  revert k Hdepth. induction rs as [|[r t] rs IHrs]; intros k Hdepth.
  { rewrite extensions_upto_nil. eauto. }
  destruct k as [|k]; [rewrite extensions_upto_none; eauto|].
  rewrite extensions_upto_cons. cbv zeta.
  assert (is_Some (if (count <? mi) || below_max ma count
                   then extensions_upto B self mi ma depth
                          (S k - length (if mi <=? count
                                         then [(_build self (acc ++ [r]), t)] else []))
                          (S count) (acc ++ [r]) (B t)
                   else Some [])) as [deeper ->].
  { destruct ((count <? mi) || below_max ma count); [|eauto].
    apply IH. destruct (Nat.leb_spec mi count); simpl; lia. }
  destruct (IHrs (S k - length (if mi <=? count
                                then [(_build self (acc ++ [r]), t)] else [])
                  - length deeper)) as [later ->]; [lia|eauto].
Qed.

(** Where the whole order is known, the first [k] matches are its first [k]
    elements. *)
Lemma extensions_upto_take B self mi ma depth :
  forall count acc rs items,
    extensions B self mi ma depth count acc rs = Some items ->
    forall k, extensions_upto B self mi ma depth k count acc rs = Some (take k items).
Proof.
  induction depth as [|depth IH]; intros count acc rs; [discriminate|].
  induction rs as [|[r t] rs IHrs]; intros items Hitems k.
  { rewrite extensions_nil in Hitems. injection Hitems as <-.
    rewrite extensions_upto_nil, take_nil. reflexivity. }
  destruct k as [|k]; [rewrite extensions_upto_none; reflexivity|].
  rewrite extensions_cons in Hitems. rewrite extensions_upto_cons. cbv zeta.
  destruct (if (count <? mi) || below_max ma count
            then extensions B self mi ma depth (S count) (acc ++ [r]) (B t)
            else Some []) as [deeper|] eqn:Hdeeper; [|discriminate].
  destruct (extensions B self mi ma (S depth) count acc rs) as [rest|] eqn:Hrest;
    [|discriminate].
  injection Hitems as <-.
  set (own := if mi <=? count then [(_build self (acc ++ [r]), t)] else []).
  assert (length own <= 1) as Hown
    by (unfold own; destruct (mi <=? count); simpl; lia).
  assert ((if (count <? mi) || below_max ma count
           then extensions_upto B self mi ma depth (S k - length own) (S count)
                  (acc ++ [r]) (B t)
           else Some []) = Some (take (S k - length own) deeper)) as ->.
  { destruct ((count <? mi) || below_max ma count).
    - apply IH. exact Hdeeper.
    - injection Hdeeper as <-. rewrite take_nil. reflexivity. }
  rewrite (IHrs rest eq_refl). f_equal.
  rewrite !take_app, (take_ge own) by lia. f_equal. f_equal.
  rewrite length_take.
  destruct (Nat.le_gt_cases (length deeper) (S k - length own)) as [Hle|Hgt].
  - rewrite Nat.min_r by lia. reflexivity.
  - rewrite Nat.min_l by lia.
    replace (S k - length own - (S k - length own)) with 0 by lia.
    replace (S k - length own - length deeper) with 0 by lia. reflexivity.
Qed.

Lemma Repetition_order_upto_total B self mi ma k text :
  is_Some (Repetition_order_upto B self mi ma (mi + k) k text).
Proof.
  unfold Repetition_order_upto. destruct k as [|k]; [eauto|]. cbv zeta.
  destruct (extensions_upto_total B self mi ma (mi + S k)
              (S k - length (if mi =? 0 then [(_build self [], text)] else []))
              1 [] (B text)) as [matches ->]; [|eauto].
  right. destruct (mi =? 0); simpl; lia.
Qed.

Lemma Repetition_order_upto_take B self mi ma depth text items :
  Repetition_order B self mi ma depth text = Some items ->
  forall k, Repetition_order_upto B self mi ma depth k text = Some (take k items).
Proof.
  unfold Repetition_order, Repetition_order_upto. intros Hitems k.
  destruct (extensions B self mi ma depth 1 [] (B text)) as [matches|] eqn:E;
    [|discriminate].
  injection Hitems as <-. destruct k as [|k]; [reflexivity|]. cbv zeta.
  rewrite (extensions_upto_take B self mi ma depth 1 [] (B text) matches E).
  f_equal. set (first := if mi =? 0 then [(_build self [], text)] else []).
  assert (length first <= 1) as Hfirst
    by (unfold first; destruct (mi =? 0); simpl; lia).
  rewrite take_app, (take_ge first) by lia. reflexivity.
Qed.

Section RepetitionOrder.

Variables (h : heap) (l : loc) (self : node) (base : loc) (mi : nat) (ma : option nat).
Variable B : string -> list (result * string).
Hypothesis Hl : h !! l = Some self.
Hypothesis Hcls : cls self = Repetition base mi ma.
Hypothesis HB : forall t, drains h (parse base t) (B t).

Lemma next_GRepetition_pop fuel acc sub below :
  next h fuel sub = StopIteration ->
  next h (S fuel) (GRepetition l ((acc, sub) :: below) None)
  = next h fuel (GRepetition l below None).
Proof. intros E. simpl. rewrite Hl, Hcls. simpl. rewrite E. reflexivity. Qed.

Lemma next_GRepetition_yield fuel acc sub below r t sub' :
  next h fuel sub = Yield r t sub' ->
  mi <= S (length below) ->
  next h (S fuel) (GRepetition l ((acc, sub) :: below) None)
  = Yield (_build self (acc ++ [r])) t (GRepetition l ((acc, sub') :: below) (Some (r, t))).
Proof.
  intros E Hmi. simpl. rewrite Hl, Hcls. simpl. rewrite E.
  destruct (Nat.leb_spec mi (S (length below))); [reflexivity|lia].
Qed.

Lemma next_GRepetition_push fuel acc sub below r t sub' :
  next h fuel sub = Yield r t sub' ->
  S (length below) < mi ->
  next h (S fuel) (GRepetition l ((acc, sub) :: below) None)
  = next h fuel (GRepetition l ((acc ++ [r], GStart base t) :: (acc, sub') :: below) None).
Proof.
  intros E Hmi. simpl. rewrite Hl, Hcls. simpl. rewrite E.
  destruct (Nat.leb_spec mi (S (length below))); [lia|reflexivity].
Qed.

Lemma next_GRepetition_resume fuel stack pending :
  next h fuel (GRepetition l stack pending)
  = next h fuel (GRepetition l (resume ma base stack pending) None).
Proof. destruct fuel as [|fuel]; [reflexivity|]. simpl. rewrite Hl, Hcls. reflexivity. Qed.

Lemma drains_GRepetition_empty : drains h (GRepetition l [] None) [].
Proof. apply (drains_stop h 1). simpl. rewrite Hl, Hcls. reflexivity. Qed.

(** The frame on top of the stack is run to its end, in the order of
    [extensions], and the stack below it is then resumed. *)
Lemma drains_frame (depth : nat) :
  forall count acc rs items,
    extensions B self mi ma depth count acc rs = Some items ->
    forall sub below later,
      drains h sub rs ->
      count = S (length below) ->
      drains h (GRepetition l below None) later ->
      drains h (GRepetition l ((acc, sub) :: below) None) (items ++ later).
Proof.
  induction depth as [|depth IHdepth]; intros count acc rs; [discriminate|].
  induction rs as [|[r t] rs IHrs]; intros items Hitems sub below later Hsub Hcount Hlater.
  - rewrite extensions_nil in Hitems. injection Hitems as <-. simpl.
    destruct (drains_inv h sub [] Hsub) as [[_ [fuel E]]|(? & ? & ? & ? & ? & _)];
      [|discriminate].
    apply (drains_silent h 1 fuel _ (GRepetition l below None)); [|exact Hlater].
    intros fuel' Hfuel'. apply next_GRepetition_pop.
    rewrite (next_le h fuel) by (try lia; rewrite E; discriminate). exact E.
  - rewrite extensions_cons in Hitems.
    destruct (drains_inv h sub _ Hsub)
      as [[? _]|(r0 & t0 & sub' & rs0 & [= <- <- <-] & [fuel E] & Hsub')];
      [discriminate|].
    destruct (if (count <? mi) || below_max ma count
              then extensions B self mi ma depth (S count) (acc ++ [r]) (B t)
              else Some []) as [deeper|] eqn:Hdeeper; [|discriminate].
    destruct (extensions B self mi ma (S depth) count acc rs) as [rest|] eqn:Hrest;
      [|discriminate].
    injection Hitems as <-.
    pose proof (IHrs rest eq_refl sub' below later Hsub' Hcount Hlater) as Drest.
    assert (((count <? mi) || below_max ma count) = true ->
            drains h (GRepetition l ((acc ++ [r], GStart base t) :: (acc, sub') :: below) None)
              (deeper ++ rest ++ later)) as Dpushed.
    { intros Hcond. rewrite Hcond in Hdeeper.
      apply (IHdepth (S count) (acc ++ [r]) (B t) deeper Hdeeper);
        [apply HB|simpl; lia|exact Drest]. }
    rewrite <- !app_assoc.
    destruct (Nat.leb_spec mi count) as [Hmi|Hmi].
    + simpl. apply (drains_yield h (S fuel) _
                      (GRepetition l ((acc, sub') :: below) (Some (r, t)))).
      { apply next_GRepetition_yield; [exact E|lia]. }
      apply (drains_silent h 0 0 _
               (GRepetition l (resume ma base ((acc, sub') :: below) (Some (r, t))) None)).
      { intros fuel' _. apply next_GRepetition_resume. }
      assert ((count <? mi) = false) as Hlt by (apply Nat.ltb_ge; exact Hmi).
      rewrite Hlt in Hdeeper, Dpushed. simpl in Hdeeper, Dpushed.
      simpl. rewrite <- Hcount.
      destruct (below_max ma count); [apply Dpushed; reflexivity|].
      injection Hdeeper as <-. exact Drest.
    + simpl. assert ((count <? mi) = true) as Hlt by (apply Nat.ltb_lt; exact Hmi).
      rewrite Hlt in Dpushed.
      apply (drains_silent h 1 fuel _
               (GRepetition l ((acc ++ [r], GStart base t) :: (acc, sub') :: below) None));
        [|apply Dpushed; reflexivity].
      intros fuel' Hfuel'. apply next_GRepetition_push; [|lia].
      rewrite (next_le h fuel) by (try lia; rewrite E; discriminate). exact E.
Qed.

Lemma drains_Repetition_parse (depth : nat) (text : string)
    (items : list (result * string)) :
  Repetition_order B self mi ma depth text = Some items ->
  drains h (parse l text) items.
Proof.
  unfold Repetition_order.
  destruct (extensions B self mi ma depth 1 [] (B text)) as [matches|] eqn:E;
    [|discriminate].
  intros [= <-].
  pose proof (drains_frame depth 1 [] (B text) matches E (parse base text) [] []
                (HB text) eq_refl drains_GRepetition_empty) as Hloop.
  rewrite app_nil_r in Hloop.
  destruct (Nat.eqb_spec mi 0) as [Hz|Hnz].
  - simpl. apply (drains_yield h 1 _ (GRepetition0 l text)).
    + simpl. rewrite Hl, Hcls. subst mi. reflexivity.
    + apply (drains_silent h 1 0 _ (GRepetition l [([], parse base text)] None));
        [|exact Hloop].
      intros fuel _. simpl. rewrite Hl, Hcls. reflexivity.
  - simpl. apply (drains_silent h 1 0 _ (GRepetition l [([], parse base text)] None));
      [|exact Hloop].
    intros fuel _. simpl. rewrite Hl, Hcls.
    destruct (Nat.eqb_spec mi 0); [contradiction|reflexivity].
Qed.

(** The frame on top of the stack gives the first [k] matches in the order
    of [extensions_upto]; what [k] leaves over is asked of the stack below
    it. *)
Lemma yields_first_frame (depth : nat) :
  forall k count acc rs items,
    extensions_upto B self mi ma depth k count acc rs = Some items ->
    forall sub below later,
      drains h sub rs ->
      count = S (length below) ->
      yields_first h (GRepetition l below None) (k - length items) later ->
      yields_first h (GRepetition l ((acc, sub) :: below) None) k (items ++ later).
Proof.
  induction depth as [|depth IHdepth]; intros k count acc rs.
  { intros items Hitems sub below later _ _ Hlater.
    destruct k as [|k]; [|discriminate]. injection Hitems as <-.
    apply yields_first_none in Hlater as ->. exists 0. reflexivity. }
  revert k.
  induction rs as [|[r t] rs IHrs]; intros k items Hitems sub below later Hsub Hcount Hlater.
  - rewrite extensions_upto_nil in Hitems. injection Hitems as <-.
    simpl in *. rewrite Nat.sub_0_r in Hlater.
    destruct (drains_inv h sub [] Hsub) as [[_ [fuel E]]|(? & ? & ? & ? & ? & _)];
      [|discriminate].
    apply (yields_first_silent h 1 fuel k _ (GRepetition l below None)); [|exact Hlater].
    intros fuel' Hfuel'. apply next_GRepetition_pop.
    rewrite (next_le h fuel) by (try lia; rewrite E; discriminate). exact E.
  - destruct k as [|k].
    { rewrite extensions_upto_none in Hitems. injection Hitems as <-.
      apply yields_first_none in Hlater as ->. exists 0. reflexivity. }
    rewrite extensions_upto_cons in Hitems. cbv zeta in Hitems.
    destruct (drains_inv h sub _ Hsub)
      as [[? _]|(r0 & t0 & sub' & rs0 & [= <- <- <-] & [fuel E] & Hsub')];
      [discriminate|].
    destruct (Nat.leb_spec mi count) as [Hmi|Hmi].
    + assert ((count <? mi) = false) as Hlt by (apply Nat.ltb_ge; exact Hmi).
      rewrite Hlt in Hitems. cbn [orb length] in Hitems.
      replace (S k - 1) with k in Hitems by lia.
      destruct (if below_max ma count
                then extensions_upto B self mi ma depth k (S count) (acc ++ [r]) (B t)
                else Some []) as [deeper|] eqn:Hdeeper; [|discriminate].
      destruct (extensions_upto B self mi ma (S depth) (k - length deeper) count acc rs)
        as [rest|] eqn:Hrest; [|discriminate].
      injection Hitems as <-.
      assert (yields_first h (GRepetition l ((acc, sub') :: below) None)
                (k - length deeper) (rest ++ later)) as Drest.
      { apply (IHrs _ rest Hrest sub' below later Hsub' Hcount).
        replace (k - length deeper - length rest)
          with (S k - length ([(_build self (acc ++ [r]), t)] ++ deeper ++ rest));
          [exact Hlater|].
        rewrite !length_app. simpl. lia. }
      simpl. rewrite <- app_assoc.
      apply (yields_first_yield h (S fuel) k _
               (GRepetition l ((acc, sub') :: below) (Some (r, t)))).
      { apply next_GRepetition_yield; [exact E|lia]. }
      apply (yields_first_silent h 0 0 k _
               (GRepetition l (resume ma base ((acc, sub') :: below) (Some (r, t))) None)).
      { intros fuel' _. apply next_GRepetition_resume. }
      simpl. rewrite <- Hcount.
      destruct (below_max ma count).
      * apply (IHdepth k (S count) (acc ++ [r]) (B t) deeper Hdeeper);
          [apply HB|simpl; lia|exact Drest].
      * injection Hdeeper as <-. simpl in *. rewrite Nat.sub_0_r in Drest. exact Drest.
    + assert ((count <? mi) = true) as Hlt by (apply Nat.ltb_lt; exact Hmi).
      rewrite Hlt in Hitems. cbn [orb length] in Hitems.
      replace (S k - 0) with (S k) in Hitems by lia.
      destruct (extensions_upto B self mi ma depth (S k) (S count) (acc ++ [r]) (B t))
        as [deeper|] eqn:Hdeeper; [|discriminate].
      destruct (extensions_upto B self mi ma (S depth) (S k - length deeper) count acc rs)
        as [rest|] eqn:Hrest; [|discriminate].
      injection Hitems as <-.
      assert (yields_first h (GRepetition l ((acc, sub') :: below) None)
                (S k - length deeper) (rest ++ later)) as Drest.
      { apply (IHrs _ rest Hrest sub' below later Hsub' Hcount).
        replace (S k - length deeper - length rest)
          with (S k - length ([] ++ deeper ++ rest)); [exact Hlater|].
        rewrite !length_app. simpl. lia. }
      simpl. rewrite <- app_assoc.
      apply (yields_first_silent h 1 fuel (S k) _
               (GRepetition l ((acc ++ [r], GStart base t) :: (acc, sub') :: below) None)).
      { intros fuel' Hfuel'. apply next_GRepetition_push; [|lia].
        rewrite (next_le h fuel) by (try lia; rewrite E; discriminate). exact E. }
      apply (IHdepth (S k) (S count) (acc ++ [r]) (B t) deeper Hdeeper);
        [apply HB|simpl; lia|exact Drest].
Qed.

Lemma yields_first_Repetition_parse (depth k : nat) (text : string)
    (items : list (result * string)) :
  Repetition_order_upto B self mi ma depth k text = Some items ->
  yields_first h (parse l text) k items.
Proof.
  unfold Repetition_order_upto. destruct k as [|k].
  { intros [= <-]. exists 0. reflexivity. }
  cbv zeta.
  destruct (extensions_upto B self mi ma depth
              (S k - length (if mi =? 0 then [(_build self [], text)] else []))
              1 [] (B text)) as [matches|] eqn:E; [|discriminate].
  intros [= <-].
  assert (forall k', yields_first h (GRepetition l [] None) k' []) as Hempty.
  { intros k'. apply (yields_first_stop h 1). simpl. rewrite Hl, Hcls. reflexivity. }
  pose proof (yields_first_frame depth _ 1 [] (B text) matches E (parse base text) [] []
                (HB text) eq_refl (Hempty _)) as Hloop.
  rewrite app_nil_r in Hloop.
  destruct (Nat.eqb_spec mi 0) as [Hz|Hnz].
  - simpl in *. rewrite Nat.sub_0_r in Hloop.
    apply (yields_first_yield h 1 k _ (GRepetition0 l text)).
    + simpl. rewrite Hl, Hcls. subst mi. reflexivity.
    + apply (yields_first_silent h 1 0 k _ (GRepetition l [([], parse base text)] None));
        [|exact Hloop].
      intros fuel _. simpl. rewrite Hl, Hcls. reflexivity.
  - simpl in *.
    apply (yields_first_silent h 1 0 (S k) _ (GRepetition l [([], parse base text)] None));
      [|exact Hloop].
    intros fuel _. simpl. rewrite Hl, Hcls.
    destruct (Nat.eqb_spec mi 0); [contradiction|reflexivity].
Qed.

End RepetitionOrder.

(** A bounded repetition needs no more depth than its bounds. *)
Lemma extensions_bounded B self mi m depth count acc rs :
  1 <= depth -> max mi m < depth + count ->
  is_Some (extensions B self mi (Some m) depth count acc rs).
Proof.
  revert count acc rs. induction depth as [|depth IH]; intros count acc rs Hd Hmax; [lia|].
  induction rs as [|[r t] rs IHrs]; [rewrite extensions_nil; eauto|].
  rewrite extensions_cons. destruct IHrs as [rest ->].
  destruct ((count <? mi) || below_max (Some m) count) eqn:Hcond; [|eauto].
  destruct (IH (S count) (acc ++ [r]) (B t)) as [deeper ->]; [| |eauto].
  - apply orb_true_iff in Hcond. simpl in Hcond.
    rewrite !Nat.ltb_lt in Hcond. lia.
  - lia.
Qed.

(** A generator that yields fewer pairs than it is asked for has stopped. *)
Lemma islice_exhausted (h : heap) (fuel k : nat) (g : gen)
    (items : list (result * string)) :
  islice h fuel k g = Some items -> length items < k -> drains h g items.
Proof.
  intros Hitems Hlen. exists fuel. revert g items Hitems Hlen.
  induction k as [|k IH]; intros g items Hitems Hlen; [lia|].
  rewrite islice_S in Hitems. rewrite islice_S.
  destruct (next h fuel g) as [r t g'| | |]; try discriminate.
  - destruct (islice h fuel k g') as [items'|] eqn:E; [|discriminate].
    injection Hitems as <-. cbn [length] in *.
    rewrite (IH g' items' E) by lia. reflexivity.
  - injection Hitems as <-. reflexivity.
Qed.

(** A choice between two literals yields the match of the first and then the
    match of the second, each when the text starts with it. *)
Lemma choice_of_literals (h : heap) (l a b : loc) (self na nb : node)
    (sa sb t : string) :
  h !! l = Some self -> cls self = Option [a; b] ->
  h !! a = Some na -> cls na = Symbol sa ->
  h !! b = Some nb -> cls nb = Symbol sb ->
  islice h 4 3 (parse l t)
  = Some ((if startswith t sa
           then [(_build self [_build na [RStr sa]], slice_from (String.length sa) t)]
           else [])
          ++ (if startswith t sb
              then [(_build self [_build nb [RStr sb]], slice_from (String.length sb) t)]
              else [])).
Proof.
  intros Hl Hcls Ha Hca Hb Hcb. unfold parse.
  destruct (startswith t sa) eqn:Esa, (startswith t sb) eqn:Esb;
    repeat (cbn [islice next next_body];
            rewrite ?Hl, ?Hcls, ?Ha, ?Hca, ?Hb, ?Hcb, ?Esa, ?Esb);
    reflexivity.
Qed.

Lemma Ambiguous_choice_drains (t : string) :
  drains Samples.reps (parse 2 t) (Ambiguous.choice_results t).
Proof.
  apply (islice_exhausted Samples.reps 4 3).
  - exact (choice_of_literals Samples.reps 2 0 1
             (Samples.anonymous false (Option [0; 1]))
             (Samples.anonymous false (Symbol "a"))
             (Samples.anonymous false (Symbol "aa")) "a" "aa" t
             eq_refl eq_refl eq_refl eq_refl eq_refl eq_refl).
  - unfold Ambiguous.choice_results.
    destruct (startswith t "a"), (startswith t "aa"); simpl; lia.
Qed.

(** C1, as the claim states it, fails: with the ambiguous base
    [Symbol("a") | Symbol("aa")] and [min = 1], the results on ["aaa"] have
    1, 2, 3, 2, 1 and 2 repetitions in this order; the match of three
    repetitions comes before the second decomposition into two. *)
Lemma Repetition_order_counterexample :
  exists items : list (result * string),
    islice Samples.reps 9 7 (parse 6 "aaa") = Some items
    /\ map (fun item => children_count item.1) items = [1; 2; 3; 2; 1; 2]
    /\ items !! 2 = Some (RInline [RStr "a"; RStr "a"; RStr "a"], "")
    /\ items !! 3 = Some (RInline [RStr "a"; RStr "aa"], "").
Proof. eexists. split; [vm_compute; reflexivity|]. repeat split. Qed.

(** The unbounded repetition of a node that matches the empty text has no
    last result: after the empty match come the matches of one, two, three
    and more empty repetitions, each an extension of the one before. *)
Lemma Blanks_results_drain (t : string) :
  drains Blanks.blanks (parse 0 t) (Blanks.blank_results t).
Proof. exists 1. reflexivity. Qed.

Example Blanks_first_results :
  Repetition_order_upto Blanks.blank_results
    (Samples.anonymous false (Repetition 0 0 None)) 0 None 4 4 "x"
  = Some [(RInline [], "x"); (RInline [RStr ""], "x");
          (RInline [RStr ""; RStr ""], "x");
          (RInline [RStr ""; RStr ""; RStr ""], "x")]
  /\ yields_first Blanks.blanks (parse 1 "x") 4
       [(RInline [], "x"); (RInline [RStr ""], "x");
        (RInline [RStr ""; RStr ""], "x");
        (RInline [RStr ""; RStr ""; RStr ""], "x")]
  /\ forall depth, Repetition_order Blanks.blank_results
                     (Samples.anonymous false (Repetition 0 0 None)) 0 None depth "x"
                   = None.
Proof.
  split; [reflexivity|]. split.
  - apply (yields_first_Repetition_parse Blanks.blanks 1
             (Samples.anonymous false (Repetition 0 0 None)) 0 0 None
             Blanks.blank_results eq_refl eq_refl Blanks_results_drain 4 4 "x").
    reflexivity.
  - intros depth. unfold Repetition_order.
    assert (forall count acc,
              extensions Blanks.blank_results
                (Samples.anonymous false (Repetition 0 0 None)) 0 None depth count acc
                (Blanks.blank_results "x") = None) as ->; [|reflexivity].
    induction depth as [|depth IH]; intros count acc; [reflexivity|].
    unfold Blanks.blank_results at 2. rewrite extensions_cons.
    rewrite orb_true_r, IH. reflexivity.
Qed.

(** C1, amended. For every Repetition node whose base yields finitely many
    results on every text, ambiguous or not, [parse] enumerates the results
    depth first: the empty match first when [min] is 0; then, for each result
    of the base in the base node's own priority order, the match that ends
    with it, when its repetition count has reached [min], followed by all the
    matches that extend it with further repetitions, and only then the
    matches of the next decomposition of the base at that count.  The
    repetition count does not decrease along a chain of extensions, and it
    falls back when the search backtracks.  This holds of every prefix of the
    enumeration, which need not end: for every [k], the first [k] results of
    [parse] are the first [k] matches of this order, found within [min + k]
    repetitions; and where the order is finite, [parse] yields exactly its
    matches and stops, and the first [k] of them are its prefix of length
    [k]. *)
Theorem Repetition_parse_depth_first (h : heap) (l : loc) (self : node)
    (base : loc) (mi : nat) (ma : option nat)
    (B : string -> list (result * string)) (text : string) :
  h !! l = Some self ->
  cls self = Repetition base mi ma ->
  (forall t, exists fuel, islice h fuel (S (length (B t))) (parse base t) = Some (B t)) ->
  (forall k, exists items fuel,
      Repetition_order_upto B self mi ma (mi + k) k text = Some items
      /\ islice h fuel k (parse l text) = Some items)
  /\ (forall depth items,
        Repetition_order B self mi ma depth text = Some items ->
        (exists fuel, islice h fuel (S (length items)) (parse l text) = Some items)
        /\ forall k, Repetition_order_upto B self mi ma depth k text
                     = Some (take k items)).
Proof.
  intros Hl Hcls HB. split.
  - intros k.
    destruct (Repetition_order_upto_total B self mi ma k text) as [items Hitems].
    destruct (yields_first_Repetition_parse h l self base mi ma B Hl Hcls HB
                (mi + k) k text items Hitems) as [fuel Hfuel].
    exists items, fuel. split; [exact Hitems|exact Hfuel].
  - intros depth items Horder. split.
    + exact (drains_Repetition_parse h l self base mi ma B Hl Hcls HB
               depth text items Horder).
    + exact (Repetition_order_upto_take B self mi ma depth text items Horder).
Qed.

Lemma Repetition_parse_depth_first_witness :
  Repetition_order Ambiguous.choice_results
    (Samples.anonymous false (Repetition 2 1 None)) 1 None 4 "aaa"
  = Some [(RInline [RStr "a"], "aa"); (RInline [RStr "a"; RStr "a"], "a");
          (RInline [RStr "a"; RStr "a"; RStr "a"], "");
          (RInline [RStr "a"; RStr "aa"], ""); (RInline [RStr "aa"], "a");
          (RInline [RStr "aa"; RStr "a"], "")]
  /\ (exists fuel,
        islice Samples.reps fuel 7 (parse 6 "aaa")
        = Some [(RInline [RStr "a"], "aa"); (RInline [RStr "a"; RStr "a"], "a");
                (RInline [RStr "a"; RStr "a"; RStr "a"], "");
                (RInline [RStr "a"; RStr "aa"], ""); (RInline [RStr "aa"], "a");
                (RInline [RStr "aa"; RStr "a"], "")])
  /\ exists items fuel,
       Repetition_order_upto Ambiguous.choice_results
         (Samples.anonymous false (Repetition 2 1 None)) 1 None 5 4 "aaa" = Some items
       /\ islice Samples.reps fuel 4 (parse 6 "aaa") = Some items.
Proof.
  destruct (Repetition_parse_depth_first Samples.reps 6
              (Samples.anonymous false (Repetition 2 1 None)) 2 1 None
              Ambiguous.choice_results "aaa" eq_refl eq_refl Ambiguous_choice_drains)
    as [Hfirst Hall].
  split; [reflexivity|]. split.
  - exact (proj1 (Hall 4
             [(RInline [RStr "a"], "aa"); (RInline [RStr "a"; RStr "a"], "a");
              (RInline [RStr "a"; RStr "a"; RStr "a"], "");
              (RInline [RStr "a"; RStr "aa"], ""); (RInline [RStr "aa"], "a");
              (RInline [RStr "aa"; RStr "a"], "")] eq_refl)).
  - exact (Hfirst 4).
Defined.


(** ** The parse of test.py *)

(** The tree [test.py] prints: the first result of [IntArray.array.parse] on
    the text of the test is an [array] tree that consumes the whole text. *)
Example IntArray_first_parse :
  islice IntArray.grammar 200 1 (parse 3 "[1 [5 7] 7 [[[]]]]")
  = Some [(RTree "array"
             [RTree "int" [RStr "1"];
              RTree "array" [RTree "int" [RStr "5"]; RTree "int" [RStr "7"]];
              RTree "int" [RStr "7"];
              RTree "array" [RTree "array" [RTree "array" []]]],
           "")].
Proof. vm_compute. reflexivity. Qed.

(** * Further properties of the code *)

(** ** Pattern *)

(** X1. For a Pattern node, [parse(text)] yields exactly one pair when the
    compiled pattern matches at the start of the text, the built match of
    the matched text [text[:e]] with the remaining text [text[e:]], and the
    two put back together are the input; it yields nothing when the pattern
    does not match. *)
Theorem Regex_parse_yields_once (h : heap) (l : loc) (self : node)
    (pattern : string) (_re : string -> option nat) (text : string) (fuel k : nat) :
  h !! l = Some self ->
  cls self = Regex pattern _re ->
  (forall e, _re text = Some e ->
     islice h (S fuel) (S (S k)) (parse l text)
     = Some [(_build self [RStr (slice_to e text)], slice_from e text)]
     /\ String.append (slice_to e text) (slice_from e text) = text)
  /\ (_re text = None -> islice h (S fuel) (S (S k)) (parse l text) = Some []).
Proof.
  intros Hl Hcls. split.
  - intros e He. split; [|apply slice_to_from].
    simpl. rewrite Hl, Hcls, He. reflexivity.
  - intros He. simpl. rewrite Hl, Hcls, He. reflexivity.
Qed.

Lemma Regex_parse_yields_once_witness :
  IntArray.re_digits "12 3" = Some 2
  /\ islice IntArray.grammar 1 2 (parse 4 "12 3") = Some [(RInline [RStr "12"], " 3")]
  /\ islice IntArray.grammar 1 2 (parse 4 "x12") = Some [].
Proof.
  destruct (Regex_parse_yields_once IntArray.grammar 4
              (Samples.anonymous false (Regex "\d+" IntArray.re_digits))
              "\d+" IntArray.re_digits "12 3" 0 0 eq_refl eq_refl) as [Hyes _].
  destruct (Regex_parse_yields_once IntArray.grammar 4
              (Samples.anonymous false (Regex "\d+" IntArray.re_digits))
              "\d+" IntArray.re_digits "x12" 0 0 eq_refl eq_refl) as [_ Hno].
  split; [reflexivity|]. split.
  - apply (Hyes 2). reflexivity.
  - apply Hno. reflexivity.
Defined.

(** ** Choice with any number of alternatives *)

Section ChoiceOrder.

Variables (h : heap) (l : loc) (self : node) (text : string).
Variable B : loc -> list (result * string).
Hypothesis Hl : h !! l = Some self.

Lemma drains_GOption (rest : list loc) :
  Forall (fun o => drains h (parse o text) (B o)) rest ->
  forall items cur,
    drains h cur items ->
    drains h (GOption l text cur rest)
      (map (rebuild self) items ++ Option_order B self rest).
Proof.
  induction rest as [|o rest IH]; intros HB.
  - induction items as [|[r t] items IHitems]; intros cur Hcur.
    + destruct (drains_inv h cur [] Hcur) as [[_ [fuel E]]|(? & ? & ? & ? & ? & _)];
        [|discriminate].
      apply (drains_stop h (S fuel)). apply (next_GOption_last h l self text Hl). exact E.
    + destruct (drains_inv h cur _ Hcur)
        as [[? _]|(r0 & t0 & cur' & items0 & [= <- <- <-] & [fuel E] & Hcur')];
        [discriminate|].
      apply (drains_yield h (S fuel) _ (GOption l text cur' [])).
      * apply (next_GOption_yield h l self text Hl). exact E.
      * apply IHitems. exact Hcur'.
  - inversion HB as [|? ? Ho HB']; subst.
    induction items as [|[r t] items IHitems]; intros cur Hcur.
    + destruct (drains_inv h cur [] Hcur) as [[_ [fuel E]]|(? & ? & ? & ? & ? & _)];
        [|discriminate].
      apply (drains_silent h 1 fuel _ (GOption l text (parse o text) rest)).
      * intros fuel' Hfuel'. apply (next_GOption_more h l self text Hl).
        rewrite (next_le h fuel) by (try lia; rewrite E; discriminate). exact E.
      * apply (IH HB' (B o) (parse o text) Ho).
    + destruct (drains_inv h cur _ Hcur)
        as [[? _]|(r0 & t0 & cur' & items0 & [= <- <- <-] & [fuel E] & Hcur')];
        [discriminate|].
      apply (drains_yield h (S fuel) _ (GOption l text cur' (o :: rest))).
      * apply (next_GOption_yield h l self text Hl). exact E.
      * apply IHitems. exact Hcur'.
Qed.

Lemma drains_Option_parse (options : list loc) :
  cls self = Option options ->
  Forall (fun o => drains h (parse o text) (B o)) options ->
  drains h (parse l text) (Option_order B self options).
Proof.
  intros Hcls HB. destruct options as [|o rest].
  - apply (drains_stop h 1). simpl. rewrite Hl, Hcls. reflexivity.
  - inversion HB as [|? ? Ho HB']; subst.
    apply (drains_silent h 1 0 _ (GOption l text (parse o text) rest)).
    + intros fuel _. apply (next_parse_Option h l self text Hl). exact Hcls.
    + apply (drains_GOption rest HB' (B o) (parse o text) Ho).
Qed.

End ChoiceOrder.

(** X2. For a Choice with any number of alternatives, each of which yields
    finitely many results on the text, [parse] yields the results of the
    alternatives in the declared order, each rebuilt through the build step
    of the Choice, and then stops; a Choice without alternatives yields
    nothing. *)
Theorem Option_parse_in_declared_order (h : heap) (l : loc) (self : node)
    (options : list loc) (text : string) (B : loc -> list (result * string)) :
  h !! l = Some self ->
  cls self = Option options ->
  (forall o, o ∈ options ->
     exists fuel, islice h fuel (S (length (B o))) (parse o text) = Some (B o)) ->
  exists fuel,
    islice h fuel (S (length (Option_order B self options))) (parse l text)
    = Some (Option_order B self options).
Proof.
  intros Hl Hcls HB.
  apply (drains_Option_parse h l self text B Hl options Hcls).
  apply Forall_forall. exact HB.
Qed.

Lemma Option_parse_in_declared_order_witness :
  exists fuel,
    islice Pairs.pairs fuel 3 (parse 2 "aab")
    = Some [(RInline [RStr "a"], "ab"); (RInline [RStr "aa"], "b")].
Proof.
  apply (Option_parse_in_declared_order Pairs.pairs 2
           (Samples.anonymous false (Option [0; 1])) [0; 1] "aab" Pairs.on_aab).
  - reflexivity.
  - reflexivity.
  - intros o Ho. exists 1.
    apply elem_of_cons in Ho as [->|Ho]; [reflexivity|].
    apply elem_of_cons in Ho as [->|Ho]; [reflexivity|].
    inversion Ho.
Defined.

(** ** Sequence *)

Section SequenceOrder.

Variables (h : heap) (l : loc) (self : node) (sequence : list loc).
Variable B : loc -> string -> list (result * string).
Hypothesis Hl : h !! l = Some self.
Hypothesis Hcls : cls self = Sequence sequence.
Hypothesis HB : forall node t, node ∈ sequence -> drains h (parse node t) (B node t).

Lemma next_GSequence_pop fuel acc sub below :
  next h fuel sub = StopIteration ->
  next h (S fuel) (GSequence l ((acc, sub) :: below)) = next h fuel (GSequence l below).
Proof. intros E. simpl. rewrite Hl, Hcls, E. reflexivity. Qed.

Lemma next_GSequence_yield fuel acc sub below r t sub' :
  next h fuel sub = Yield r t sub' ->
  S (length below) = length sequence ->
  next h (S fuel) (GSequence l ((acc, sub) :: below))
  = Yield (_build self (acc ++ [r])) t (GSequence l ((acc, sub') :: below)).
Proof.
  intros E Hlen. cbn [next next_body]. rewrite Hl, Hcls, E. cbn [length].
  rewrite Hlen, Nat.eqb_refl. reflexivity.
Qed.

Lemma next_GSequence_push fuel acc sub below r t sub' node :
  next h fuel sub = Yield r t sub' ->
  S (length below) <> length sequence ->
  sequence !! S (length below) = Some node ->
  next h (S fuel) (GSequence l ((acc, sub) :: below))
  = next h fuel (GSequence l ((acc ++ [r], GStart node t) :: (acc, sub') :: below)).
Proof.
  intros E Hlen Hnode. cbn [next next_body]. rewrite Hl, Hcls, E. cbn [length].
  destruct (Nat.eqb_spec (S (length below)) (length sequence)); [contradiction|].
  rewrite Hnode. reflexivity.
Qed.

Lemma drains_GSequence_empty : drains h (GSequence l []) [].
Proof. apply (drains_stop h 1). simpl. rewrite Hl, Hcls. reflexivity. Qed.

(** The frame of the sub-node [node] on top of the stack is run to its end,
    in the order of [Sequence_order], and the stack below it is then
    resumed. *)
Lemma drains_GSequence_frame (after : list loc) :
  forall before node acc rs sub below later,
    sequence = before ++ node :: after ->
    length below = length before ->
    drains h sub rs ->
    drains h (GSequence l below) later ->
    drains h (GSequence l ((acc, sub) :: below))
      (concat (map (fun item : result * string =>
                      match after with
                      | [] => [(_build self (acc ++ [item.1]), item.2)]
                      | _ :: _ => Sequence_order B self after (acc ++ [item.1]) item.2
                      end) rs) ++ later).
Proof.
  induction after as [|next_node after IHafter];
    intros before node acc rs; induction rs as [|[r t] rs IHrs];
    intros sub below later Hseq Hlen Hsub Hlater.
  - destruct (drains_inv h sub [] Hsub) as [[_ [fuel E]]|(? & ? & ? & ? & ? & _)];
      [|discriminate].
    apply (drains_silent h 1 fuel _ (GSequence l below)); [|exact Hlater].
    intros fuel' Hfuel'. apply next_GSequence_pop.
    rewrite (next_le h fuel) by (try lia; rewrite E; discriminate). exact E.
  - destruct (drains_inv h sub _ Hsub)
      as [[? _]|(r0 & t0 & sub' & rs0 & [= <- <- <-] & [fuel E] & Hsub')];
      [discriminate|].
    simpl. apply (drains_yield h (S fuel) _ (GSequence l ((acc, sub') :: below))).
    + apply next_GSequence_yield; [exact E|].
      rewrite Hseq, length_app, Hlen. simpl. lia.
    + apply (IHrs sub' below later Hseq Hlen Hsub' Hlater).
  - destruct (drains_inv h sub [] Hsub) as [[_ [fuel E]]|(? & ? & ? & ? & ? & _)];
      [|discriminate].
    apply (drains_silent h 1 fuel _ (GSequence l below)); [|exact Hlater].
    intros fuel' Hfuel'. apply next_GSequence_pop.
    rewrite (next_le h fuel) by (try lia; rewrite E; discriminate). exact E.
  - destruct (drains_inv h sub _ Hsub)
      as [[? _]|(r0 & t0 & sub' & rs0 & [= <- <- <-] & [fuel E] & Hsub')];
      [discriminate|].
    pose proof (IHrs sub' below later Hseq Hlen Hsub' Hlater) as Drest.
    cbn [map concat]. rewrite <- app_assoc.
    apply (drains_silent h 1 fuel _
             (GSequence l ((acc ++ [r], GStart next_node t) :: (acc, sub') :: below))).
    + intros fuel' Hfuel'. apply next_GSequence_push.
      * rewrite (next_le h fuel) by (try lia; rewrite E; discriminate). exact E.
      * rewrite Hseq, length_app, Hlen. simpl. lia.
      * rewrite Hseq, lookup_app_r by lia. rewrite Hlen.
        replace (S (length before) - length before) with 1 by lia. reflexivity.
    + change (Sequence_order B self (next_node :: after) (acc ++ [r]) t)
        with (concat (map (fun item : result * string =>
                             match after with
                             | [] => [(_build self ((acc ++ [r]) ++ [item.1]), item.2)]
                             | _ :: _ =>
                                 Sequence_order B self after ((acc ++ [r]) ++ [item.1]) item.2
                             end) (B next_node t))).
      apply (IHafter (before ++ [node]) next_node (acc ++ [r]) (B next_node t)
               (parse next_node t) ((acc, sub') :: below)).
      * rewrite Hseq, <- app_assoc. reflexivity.
      * rewrite length_app. simpl. lia.
      * apply HB. rewrite Hseq. apply elem_of_app. right.
        apply list_elem_of_further, list_elem_of_here.
      * exact Drest.
Qed.

Lemma drains_Sequence_parse (text : string) (first : loc) (rest : list loc) :
  sequence = first :: rest ->
  drains h (parse l text) (Sequence_order B self sequence [] text).
Proof.
  intros Hseq.
  apply (drains_silent h 1 0 _ (GSequence l [([], parse first text)])).
  - intros fuel _. simpl. rewrite Hl, Hcls, Hseq. reflexivity.
  - pose proof (drains_GSequence_frame rest [] first [] (B first text)
                  (parse first text) [] [] Hseq eq_refl) as Hframe.
    rewrite app_nil_r in Hframe. rewrite Hseq. apply Hframe.
    + apply HB. rewrite Hseq. apply list_elem_of_here.
    + apply drains_GSequence_empty.
Qed.

End SequenceOrder.

(** X3. For a Sequence of at least one sub-node, each of which yields
    finitely many results on every text, [parse] yields exactly the matches
    of the sub-nodes taken in order, end to end, each sub-node parsing the
    text the one before it left: for each result of the first sub-node in
    its own order, all the matches of the rest of the sequence before the
    next result of the first; no split is skipped and none comes twice. *)
Theorem Sequence_parse_backtracks_in_order (h : heap) (l : loc) (self : node)
    (sequence : list loc) (B : loc -> string -> list (result * string))
    (text : string) :
  h !! l = Some self ->
  cls self = Sequence sequence ->
  sequence <> [] ->
  (forall node t, node ∈ sequence ->
     exists fuel, islice h fuel (S (length (B node t))) (parse node t) = Some (B node t)) ->
  exists fuel,
    islice h fuel (S (length (Sequence_order B self sequence [] text))) (parse l text)
    = Some (Sequence_order B self sequence [] text).
Proof.
  intros Hl Hcls Hne HB. destruct sequence as [|first rest] eqn:Hseq; [contradiction|].
  exact (drains_Sequence_parse h l self (first :: rest) B Hl Hcls HB text first rest eq_refl).
Qed.

Lemma Pairs_choice_drains (t : string) :
  drains Pairs.pairs (parse 2 t) (Ambiguous.choice_results t).
Proof.
  apply (islice_exhausted Pairs.pairs 4 3).
  - exact (choice_of_literals Pairs.pairs 2 0 1
             (Samples.anonymous false (Option [0; 1]))
             (Samples.anonymous false (Symbol "a"))
             (Samples.anonymous false (Symbol "aa")) "a" "aa" t
             eq_refl eq_refl eq_refl eq_refl eq_refl eq_refl).
  - unfold Ambiguous.choice_results.
    destruct (startswith t "a"), (startswith t "aa"); simpl; lia.
Qed.

Lemma Sequence_parse_backtracks_in_order_witness :
  Sequence_order Pairs.results (Samples.anonymous false (Sequence [2; 2])) [2; 2] [] "aaa"
  = [(RInline [RStr "a"; RStr "a"], "a"); (RInline [RStr "a"; RStr "aa"], "");
     (RInline [RStr "aa"; RStr "a"], "")]
  /\ exists fuel,
       islice Pairs.pairs fuel 4 (parse 3 "aaa")
       = Some [(RInline [RStr "a"; RStr "a"], "a"); (RInline [RStr "a"; RStr "aa"], "");
               (RInline [RStr "aa"; RStr "a"], "")].
Proof.
  split; [reflexivity|].
  apply (Sequence_parse_backtracks_in_order Pairs.pairs 3
           (Samples.anonymous false (Sequence [2; 2])) [2; 2] Pairs.results "aaa").
  - reflexivity.
  - reflexivity.
  - discriminate.
  - intros node t Hnode. assert (node = 2) as ->.
    { apply elem_of_cons in Hnode as [->|Hnode]; [reflexivity|].
      apply elem_of_cons in Hnode as [->|Hnode]; [reflexivity|]. inversion Hnode. }
    exact (Pairs_choice_drains t).
Defined.

(** ** Repetition with an upper bound *)

(** X4. A Repetition with an upper bound, over a base that yields finitely
    many results on every text, yields finitely many results on every input
    and then stops: the search needs no more depth than the larger of its
    two bounds, and its results are those of the depth-first order. *)
Theorem Repetition_bounded_parse_stops (h : heap) (l : loc) (self : node)
    (base : loc) (mi m : nat) (B : string -> list (result * string)) (text : string) :
  h !! l = Some self ->
  cls self = Repetition base mi (Some m) ->
  (forall t, exists fuel, islice h fuel (S (length (B t))) (parse base t) = Some (B t)) ->
  exists (items : list (result * string)) (fuel : nat),
    Repetition_order B self mi (Some m) (S (max mi m)) text = Some items
    /\ islice h fuel (S (length items)) (parse l text) = Some items.
Proof.
  intros Hl Hcls HB. unfold Repetition_order.
  destruct (extensions_bounded B self mi m (S (max mi m)) 1 [] (B text))
    as [matches Hmatches]; [lia|lia|].
  pose proof (drains_Repetition_parse h l self base mi (Some m) B Hl Hcls HB
                (S (max mi m)) text) as Hdrains.
  unfold Repetition_order in Hdrains. rewrite Hmatches in *.
  destruct (Hdrains _ eq_refl) as [fuel Hfuel]. eauto.
Qed.

Lemma Repetition_bounded_parse_stops_witness :
  exists (items : list (result * string)) (fuel : nat),
    Repetition_order Ambiguous.choice_results
      (Samples.anonymous false (Repetition 2 1 (Some 2))) 1 (Some 2) 3 "aaa"
    = Some items
    /\ islice Pairs.pairs fuel (S (length items)) (parse 4 "aaa") = Some items.
Proof.
  apply (Repetition_bounded_parse_stops Pairs.pairs 4
           (Samples.anonymous false (Repetition 2 1 (Some 2))) 2 1 2
           Ambiguous.choice_results "aaa").
  - reflexivity.
  - reflexivity.
  - exact Pairs_choice_drains.
Defined.

(** ** Parsing raises nothing on a well-formed grammar *)

Section RunsOn.

Variable h : heap.
Hypothesis Hclosed : closed h.
Hypothesis Hsequences : no_empty_sequence h.

Lemma sub_node_is_Some (l : loc) (self : node) (c : loc) :
  h !! l = Some self -> c ∈ sub_nodes (cls self) -> is_Some (h !! c).
Proof.
  intros Hl Hc. pose proof (Hclosed l self Hl) as Hall. simpl in Hall.
  rewrite Forall_forall in Hall. apply Hall. exact Hc.
Qed.

Lemma runs_on_push stack r node t :
  Forall (fun frame => runs_on h frame.2) stack ->
  is_Some (h !! node) ->
  Forall (fun frame : list result * gen => runs_on h frame.2) (push stack r node t).
Proof.
  intros Hstack Hnode. destruct stack as [|[acc sub] below]; [constructor|].
  simpl. constructor; [|exact Hstack]. constructor. exact Hnode.
Qed.

Lemma next_runs_on (fuel : nat) (g : gen) :
  runs_on h g -> stays_on h (next h fuel g).
Proof.
  revert g. induction fuel as [|fuel IH]; intros g Hg; [exact I|].
  cbn [next].
  destruct Hg as [l t [self Hl]|l t cur rest [self Hl] Hcur Hrest
                  |l self sequence stack Hl Hcls Hlen Hstack
                  |l self base mi ma t Hl Hcls
                  |l self base mi ma stack pending Hl Hcls Hstack|];
    cbn [next_body]; try rewrite Hl; try rewrite Hcls.
  - destruct (cls self) as [s|s _re|options|sequence|base mi ma] eqn:Hcls.
    + destruct (startswith t s); [constructor|exact I].
    + destruct (_re t); [constructor|exact I].
    + destruct options as [|o rest]; [exact I|].
      assert (Forall (fun o => is_Some (h !! o)) (o :: rest)) as Hall.
      { pose proof (Hclosed l self Hl) as Hall. simpl in Hall.
        rewrite Hcls in Hall. exact Hall. }
      inversion Hall; subst.
      apply IH. constructor; [eauto| |assumption]. constructor. assumption.
    + destruct sequence as [|first rest].
      * pose proof (Hsequences l self Hl) as Hempty. simpl in Hempty.
        rewrite Hcls in Hempty. discriminate Hempty.
      * apply IH. econstructor; [exact Hl|exact Hcls|simpl; lia|].
        constructor; [|constructor]. constructor.
        apply (sub_node_is_Some l self); [exact Hl|].
        rewrite Hcls. apply list_elem_of_here.
    + assert (is_Some (h !! base)) as Hbase.
      { apply (sub_node_is_Some l self); [exact Hl|].
        rewrite Hcls. apply list_elem_of_here. }
      destruct (mi =? 0).
      * econstructor; eassumption.
      * apply IH. econstructor; [exact Hl|exact Hcls|].
        constructor; [|constructor]. constructor. exact Hbase.
  - pose proof (IH cur Hcur) as Hnext.
    destruct (next h fuel cur) as [r t' cur'| | |]; try exact Hnext.
    + constructor; eauto.
    + destruct rest as [|o rest']; [exact I|]. inversion Hrest; subst.
      apply IH. constructor; [eauto| |assumption]. constructor. assumption.
  - destruct Hstack as [|[acc sub] below Hsub Hbelow]; [exact I|].
    pose proof (IH sub Hsub) as Hnext.
    destruct (next h fuel sub) as [r t' sub'| | |]; try exact Hnext.
    + assert (Forall (fun frame : list result * gen => runs_on h frame.2)
                ((acc, sub') :: below)) as Hstack' by (constructor; assumption).
      cbn [length] in *.
      destruct (Nat.eqb_spec (S (length below)) (length sequence)) as [Heq|Hne].
      * econstructor; [exact Hl|exact Hcls|simpl; lia|exact Hstack'].
      * destruct (sequence !! S (length below)) as [node|] eqn:Hnode.
        -- apply IH. econstructor; [exact Hl|exact Hcls| |].
           ++ simpl. lia.
           ++ apply (runs_on_push ((acc, sub') :: below)); [exact Hstack'|].
              apply (sub_node_is_Some l self); [exact Hl|].
              rewrite Hcls. apply list_elem_of_lookup. eauto.
        -- apply lookup_ge_None in Hnode. lia.
    + apply IH. econstructor; [exact Hl|exact Hcls|simpl in Hlen; lia|exact Hbelow].
  - apply IH. econstructor; [exact Hl|exact Hcls|].
    constructor; [|constructor]. constructor.
    apply (sub_node_is_Some l self); [exact Hl|]. rewrite Hcls. apply list_elem_of_here.
  - assert (is_Some (h !! base)) as Hbase.
    { apply (sub_node_is_Some l self); [exact Hl|].
      rewrite Hcls. apply list_elem_of_here. }
    assert (Forall (fun frame : list result * gen => runs_on h frame.2)
              (resume ma base stack pending)) as Hres.
    { destruct pending as [[r t]|]; [|exact Hstack]. simpl.
      destruct (below_max ma (length stack)); [|exact Hstack].
      apply runs_on_push; assumption. }
    destruct Hres as [|[acc sub] below Hsub Hbelow]; [exact I|].
    pose proof (IH sub Hsub) as Hnext.
    destruct (next h fuel sub) as [r t' sub'| | |]; try exact Hnext.
    + assert (Forall (fun frame : list result * gen => runs_on h frame.2)
                ((acc, sub') :: below)) as Hstack' by (constructor; assumption).
      match goal with |- context [if ?c then _ else _] => destruct c end.
      * econstructor; [exact Hl|exact Hcls|exact Hstack'].
      * apply IH. econstructor; [exact Hl|exact Hcls|].
        apply (runs_on_push ((acc, sub') :: below)); assumption.
    + apply IH. econstructor; [exact Hl|exact Hcls|exact Hbelow].
  - exact I.
Qed.

Lemma nth_next_runs_on (fuel k : nat) (g : gen) :
  runs_on h g -> stays_on h (nth_next h fuel k g).
Proof.
  revert g. induction k as [|k IH]; intros g Hg; simpl.
  - apply next_runs_on. exact Hg.
  - pose proof (next_runs_on fuel g Hg) as Hnext.
    destruct (next h fuel g) as [r t g'| | |]; try exact Hnext.
    apply IH. exact Hnext.
Qed.

End RunsOn.

(** A left-recursive node has every reference in the heap and no empty
    Sequence, and a call of [next()] on it does not return: [parse] calls
    itself on the same text without end, at every fuel. *)
Example left_recursion_never_returns (fuel : nat) (text : string) :
  closed LeftRecursion.loop
  /\ no_empty_sequence LeftRecursion.loop
  /\ next LeftRecursion.loop fuel (parse 0 text) = OutOfFuel.
Proof.
  split; [apply (bool_decide_unpack _); vm_compute; exact I|].
  split; [apply (bool_decide_unpack _); vm_compute; exact I|].
  assert (next LeftRecursion.loop fuel (GStart 0 text) = OutOfFuel
          /\ next LeftRecursion.loop fuel (GOption 0 text (GStart 0 text) []) = OutOfFuel)
    as [Hstart _]; [|exact Hstart].
  induction fuel as [|fuel [IHstart IHoption]]; [split; reflexivity|].
  split.
  - change (next LeftRecursion.loop (S fuel) (GStart 0 text))
      with (next LeftRecursion.loop fuel (GOption 0 text (GStart 0 text) [])).
    exact IHoption.
  - change (next LeftRecursion.loop (S fuel) (GOption 0 text (GStart 0 text) []))
      with (match next LeftRecursion.loop fuel (GStart 0 text) with
            | Yield r t cur' =>
                Yield (_build (Samples.anonymous false (Option [0])) [r]) t
                  (GOption 0 text cur' [])
            | StopIteration => StopIteration
            | Raise e => Raise e
            | OutOfFuel => OutOfFuel
            end).
    rewrite IHstart. reflexivity.
Qed.

(** X5. On a grammar in which every reference points to a node and no
    Sequence is empty, no call of [next()] on the generator of [parse] raises
    [IndexError] or [AttributeError], the errors of the lookups of the parse
    methods ([self.sequence[len(stack)]], and a method of something that is
    not a node), whatever the input and however many results were pulled
    before: a call that comes back yields a result or raises
    [StopIteration], so that a text that does not match gives no result, not
    one of these errors.  That the call comes back is not part of the
    property: on a left-recursive grammar it does not, as
    [left_recursion_never_returns] shows, and the interpreter then raises
    [RecursionError], which is outside [exn]. *)
Theorem parse_raises_no_lookup_error (h : heap) (l : loc) (text : string)
    (fuel k : nat) (e : exn) :
  closed h ->
  no_empty_sequence h ->
  is_Some (h !! l) ->
  nth_next h fuel k (parse l text) <> Raise e.
Proof.
  intros Hclosed Hseq Hl Hraise.
  pose proof (nth_next_runs_on h Hclosed Hseq fuel k (parse l text)
                (runs_on_start h l text Hl)) as Hstays.
  rewrite Hraise in Hstays. exact Hstays.
Qed.

Lemma parse_raises_no_lookup_error_witness :
  closed IntArray.grammar
  /\ no_empty_sequence IntArray.grammar
  /\ nth_next IntArray.grammar 200 1 (parse 3 "[1 2") <> Raise IndexError.
Proof.
  assert (closed IntArray.grammar) as Hclosed
    by (apply (bool_decide_unpack _); vm_compute; exact I).
  assert (no_empty_sequence IntArray.grammar) as Hseq
    by (apply (bool_decide_unpack _); vm_compute; exact I).
  split; [exact Hclosed|]. split; [exact Hseq|].
  apply (parse_raises_no_lookup_error IntArray.grammar 3 "[1 2" 200 1 IndexError
           Hclosed Hseq).
  apply (mk_is_Some _ (prepared_node (Some "array") false false (Option [16]))).
  reflexivity.
Defined.

(** ** The results of a node are built by the node *)

Lemma _build_built_by (self : node) (children : list result) :
  built_by self (_build self children).
Proof.
  unfold _build, built_by.
  destruct (truthy (discard self)); [reflexivity|].
  destruct (truthy (inline self)); auto.
Qed.

Section BuiltBy.

Variables (h : heap) (l : loc) (self : node).
Hypothesis Hl : h !! l = Some self.

Lemma next_built_by (fuel : nat) (g : gen) :
  top_node g = Some l \/ g = GFinished ->
  match next h fuel g with
  | Yield r _ g' => built_by self r /\ (top_node g' = Some l \/ g' = GFinished)
  | _ => True
  end.
Proof.
  revert g. induction fuel as [|fuel IH]; intros g Hg; [exact I|].
  cbn [next]. destruct Hg as [Hg| ->]; [|exact I].
  destruct g as [l0 t|l0 t cur rest|l0 stack|l0 t|l0 stack pending|];
    try discriminate; injection Hg as ->; cbn [next_body]; rewrite Hl.
  - destruct (cls self) as [s|s _re|options|sequence|base mi ma].
    + destruct (startswith t s); [|exact I]. split; [apply _build_built_by|auto].
    + destruct (_re t); [|exact I]. split; [apply _build_built_by|auto].
    + destruct options as [|o rest]; [exact I|]. apply IH. auto.
    + destruct sequence as [|first rest]; [exact I|]. apply IH. auto.
    + destruct (mi =? 0); [|apply IH; auto].
      split; [apply _build_built_by|auto].
  - destruct (next h fuel cur) as [r t' cur'| | |]; try exact I.
    + split; [apply _build_built_by|auto].
    + destruct rest as [|o rest']; [exact I|]. apply IH. auto.
  - destruct (cls self) as [| | |sequence|]; try exact I.
    destruct stack as [|[acc sub] below]; [exact I|].
    destruct (next h fuel sub) as [r t' sub'| | |]; try exact I.
    + match goal with |- context [if ?c then _ else _] => destruct c end.
      * split; [apply _build_built_by|auto].
      * destruct (sequence !! _); [|exact I]. apply IH. auto.
    + apply IH. auto.
  - destruct (cls self) as [| | | |base mi ma]; try exact I. apply IH. auto.
  - destruct (cls self) as [| | | |base mi ma]; try exact I.
    destruct (resume ma base stack pending) as [|[acc sub] below]; [exact I|].
    destruct (next h fuel sub) as [r t' sub'| | |]; try exact I.
    + match goal with |- context [if ?c then _ else _] => destruct c end.
      * split; [apply _build_built_by|auto].
      * apply IH. auto.
    + apply IH. auto.
Qed.

Lemma islice_built_by (fuel k : nat) (g : gen) (items : list (result * string)) :
  top_node g = Some l \/ g = GFinished ->
  islice h fuel k g = Some items ->
  Forall (fun item => built_by self item.1) items.
Proof.
  revert g items. induction k as [|k IH]; intros g items Hg.
  - intros [= <-]. constructor.
  - rewrite islice_S. pose proof (next_built_by fuel g Hg) as Hnext.
    destruct (next h fuel g) as [r t g'| | |]; try discriminate.
    + destruct Hnext as [Hr Hg'].
      destruct (islice h fuel k g') as [items'|] eqn:E; [|discriminate].
      intros [= <-]. constructor; [exact Hr|]. exact (IH g' items' Hg' E).
    + intros [= <-]. constructor.
Qed.

End BuiltBy.

(** X6. Every result a node yields is what the node's own tree builder
    returns, whatever the class of the node: the Discarded marker when its
    [discard] flag is true, an Inline marker when [discard] is false and
    [inline] is true, and otherwise a Named Tree that carries the node's
    name or ["<unnamed node>"]; the result of a sub-node or a raw matched
    string is never passed on as it is. *)
Theorem parse_results_built_by_node (h : heap) (l : loc) (self : node)
    (text : string) (fuel k : nat) (items : list (result * string))
    (r : result) (t : string) :
  h !! l = Some self ->
  islice h fuel k (parse l text) = Some items ->
  (r, t) ∈ items ->
  match r with
  | RStr _ => False
  | RDiscard => truthy (discard self) = true
  | RInline _ => truthy (discard self) = false /\ truthy (inline self) = true
  | RTree nm _ =>
      truthy (discard self) = false /\ truthy (inline self) = false
      /\ nm = name_or_default (name self)
  end.
Proof.
  intros Hl Hitems Hin.
  pose proof (islice_built_by h l self Hl fuel k (parse l text) items
                (or_introl eq_refl) Hitems) as Hall.
  rewrite Forall_forall in Hall. exact (Hall (r, t) Hin).
Qed.

Lemma parse_results_built_by_node_witness :
  islice IntArray.grammar 200 1 (parse 3 "[]")
  = Some [(RTree "array" [], "")]
  /\ truthy (Some false) = false /\ truthy (Some false) = false
  /\ "array" = name_or_default (Some "array").
Proof.
  split; [vm_compute; reflexivity|].
  apply (parse_results_built_by_node IntArray.grammar 3
           (prepared_node (Some "array") false false (Option [16]))
           "[]" 200 1 [(RTree "array" [], "")] (RTree "array" []) "").
  - reflexivity.
  - vm_compute. reflexivity.
  - apply list_elem_of_here.
Defined.

(** ** Names and flags do not change what a node matches *)

Section Alike.

Variables h1 h2 : heap.
Hypothesis Hsame : forall l, same_cls h1 h2 l l.

Lemma alike_push stack1 stack2 r1 r2 node t :
  Forall2 (fun f1 f2 : list result * gen => alike h1 h2 f1.2 f2.2) stack1 stack2 ->
  Forall2 (fun f1 f2 : list result * gen => alike h1 h2 f1.2 f2.2)
    (push stack1 r1 node t) (push stack2 r2 node t).
Proof.
  intros Hstack. destruct Hstack as [|[acc1 sub1] [acc2 sub2] below1 below2 Hsub Hbelow];
    [constructor|].
  simpl. constructor; [|constructor; assumption]. constructor. apply Hsame.
Qed.

Lemma alike_resume ma base stack1 stack2 pending1 pending2 :
  Forall2 (fun f1 f2 : list result * gen => alike h1 h2 f1.2 f2.2) stack1 stack2 ->
  snd <$> pending1 = snd <$> pending2 ->
  Forall2 (fun f1 f2 : list result * gen => alike h1 h2 f1.2 f2.2)
    (resume ma base stack1 pending1) (resume ma base stack2 pending2).
Proof.
  intros Hstack Hpending.
  destruct pending1 as [[r1 t1]|], pending2 as [[r2 t2]|]; try discriminate;
    [|exact Hstack].
  simpl in Hpending. injection Hpending as ->. simpl.
  rewrite (Forall2_length _ _ _ Hstack).
  destruct (below_max ma (length stack2)); [|exact Hstack].
  apply alike_push. exact Hstack.
Qed.

Lemma same_cls_inv (l1 l2 : loc) :
  same_cls h1 h2 l1 l2 ->
  (h1 !! l1 = None /\ h2 !! l2 = None)
  \/ exists self1 self2,
       h1 !! l1 = Some self1 /\ h2 !! l2 = Some self2 /\ cls self1 = cls self2.
Proof.
  unfold same_cls. destruct (h1 !! l1) as [self1|], (h2 !! l2) as [self2|];
    try discriminate; [|auto].
  intros [= Hcls]. right. eauto.
Qed.

Lemma next_alike (fuel : nat) (g1 g2 : gen) :
  alike h1 h2 g1 g2 ->
  same_text (alike h1 h2) (next h1 fuel g1) (next h2 fuel g2).
Proof.
  revert g1 g2. induction fuel as [|fuel IH]; intros g1 g2 Hg; [constructor|].
  cbn [next].
  destruct Hg as [l1 l2 t Hl|l1 l2 t cur1 cur2 rest Hl Hcur|l1 l2 stack1 stack2 Hl Hstack
                  |l1 l2 t Hl|l1 l2 stack1 stack2 pending1 pending2 Hl Hstack Hpending|];
    cbn [next_body];
    try (destruct (same_cls_inv l1 l2 Hl) as [[E1 E2]|(self1 & self2 & E1 & E2 & Hcls)];
         rewrite E1, E2; [constructor|]).
  - rewrite Hcls. destruct (cls self2) as [s|s _re|options|sequence|base mi ma].
    + destruct (startswith t s); constructor. constructor.
    + destruct (_re t); constructor. constructor.
    + destruct options as [|o rest]; [constructor|].
      apply IH. constructor; [exact Hl|]. constructor. apply Hsame.
    + destruct sequence as [|first rest]; [constructor|].
      apply IH. constructor; [exact Hl|].
      constructor; [|constructor]. constructor. apply Hsame.
    + destruct (mi =? 0).
      * constructor. constructor. exact Hl.
      * apply IH. constructor; [exact Hl| |reflexivity].
        constructor; [|constructor]. constructor. apply Hsame.
  - destruct (IH cur1 cur2 Hcur) as [r1 r2 t' g1 g2 Hg| | |]; try constructor.
    + constructor; assumption.
    + destruct rest as [|o rest']; [constructor|].
      apply IH. constructor; [exact Hl|]. constructor. apply Hsame.
  - rewrite Hcls. destruct (cls self2) as [| | |sequence|]; try constructor.
    destruct Hstack as [|[acc1 sub1] [acc2 sub2] below1 below2 Hsub Hbelow];
      [constructor|].
    simpl in Hsub.
    destruct (IH sub1 sub2 Hsub) as [r1 r2 t' g1 g2 Hg| | |]; try constructor.
    + assert (Forall2 (fun f1 f2 : list result * gen => alike h1 h2 f1.2 f2.2)
                ((acc1, g1) :: below1) ((acc2, g2) :: below2)) as Hstack'
        by (constructor; assumption).
      cbn [length]. rewrite (Forall2_length _ _ _ Hbelow).
      destruct (S (length below2) =? length sequence).
      * constructor. constructor; assumption.
      * destruct (sequence !! S (length below2)) as [node|]; [|constructor].
        apply IH. constructor; [exact Hl|].
        apply (alike_push ((acc1, g1) :: below1) ((acc2, g2) :: below2)). exact Hstack'.
    + apply IH. constructor; assumption.
  - rewrite Hcls. destruct (cls self2) as [| | | |base mi ma]; try constructor.
    apply IH. constructor; [exact Hl| |reflexivity].
    constructor; [|constructor]. constructor. apply Hsame.
  - rewrite Hcls. destruct (cls self2) as [| | | |base mi ma]; try constructor.
    pose proof (alike_resume ma base _ _ _ _ Hstack Hpending) as Hres.
    destruct Hres as [|[acc1 sub1] [acc2 sub2] below1 below2 Hsub Hbelow];
      [constructor|].
    simpl in Hsub.
    destruct (IH sub1 sub2 Hsub) as [r1 r2 t' g1 g2 Hg| | |]; try constructor.
    + assert (Forall2 (fun f1 f2 : list result * gen => alike h1 h2 f1.2 f2.2)
                ((acc1, g1) :: below1) ((acc2, g2) :: below2)) as Hstack'
        by (constructor; assumption).
      cbn [length]. rewrite (Forall2_length _ _ _ Hbelow).
      destruct (mi <=? S (length below2)).
      * constructor. constructor; [exact Hl|exact Hstack'|reflexivity].
      * apply IH. constructor; [exact Hl| |reflexivity].
        apply (alike_push ((acc1, g1) :: below1) ((acc2, g2) :: below2)). exact Hstack'.
    + apply IH. constructor; [exact Hl|exact Hbelow|reflexivity].
  - constructor.
Qed.

Lemma islice_alike (fuel k : nat) (g1 g2 : gen) :
  alike h1 h2 g1 g2 ->
  map snd <$> islice h1 fuel k g1 = map snd <$> islice h2 fuel k g2.
Proof.
  revert g1 g2. induction k as [|k IH]; intros g1 g2 Hg; [reflexivity|].
  rewrite !islice_S.
  destruct (next_alike fuel g1 g2 Hg) as [r1 r2 t g1' g2' Hg'| | |]; try reflexivity.
  specialize (IH g1' g2' Hg').
  destruct (islice h1 fuel k g1') as [items1|], (islice h2 fuel k g2') as [items2|];
    try discriminate; [|reflexivity].
  simpl in *. injection IH as ->. reflexivity.
Qed.

End Alike.

(** X7. Two nodes of the same class, with the same text or pattern, the same
    sub-nodes and the same bounds, yield the same remaining texts in the same
    order on every input and stop, raise or run on alike: the name and the
    [discard] and [inline] flags of a node decide how its results are built,
    never which matches it finds. *)
Theorem parse_texts_independent_of_flags (h : heap) (l1 l2 : loc)
    (self1 self2 : node) (text : string) (fuel k : nat) :
  h !! l1 = Some self1 ->
  h !! l2 = Some self2 ->
  cls self1 = cls self2 ->
  map snd <$> islice h fuel k (parse l1 text)
  = map snd <$> islice h fuel k (parse l2 text).
Proof.
  intros Hl1 Hl2 Hcls. apply (islice_alike h h); [reflexivity|].
  constructor. unfold same_cls. rewrite Hl1, Hl2. simpl. rewrite Hcls. reflexivity.
Qed.

Lemma parse_texts_independent_of_flags_witness :
  islice IntArray.grammar 5 2 (parse 1 " x") = Some [(RTree "ws" [RStr " "], "x")]
  /\ islice IntArray.grammar 5 2 (parse 6 " x") = Some [(RDiscard, "x")]
  /\ map snd <$> islice IntArray.grammar 5 2 (parse 1 " x")
     = map snd <$> islice IntArray.grammar 5 2 (parse 6 " x").
Proof.
  split; [vm_compute; reflexivity|]. split; [vm_compute; reflexivity|].
  apply (parse_texts_independent_of_flags IntArray.grammar 1 6
           (prepared_node (Some "ws") false false (Option [5]))
           (prepared_node None true true (Option [5])) " x" 5 2);
    reflexivity.
Defined.

(** ** Preparation reaches every node and changes no match *)

Lemma prepared_at_true (h : heap) (x : loc) :
  prepared_at h x = true <-> exists n, h !! x = Some n /\ _prepared n = true.
Proof.
  unfold prepared_at. destruct (h !! x) as [n|]; split.
  - eauto.
  - intros (n0 & [= <-] & Hp). exact Hp.
  - discriminate.
  - intros (n0 & Hn0 & _). discriminate.
Qed.

Lemma resolved_prepared_at (h h' : heap) (visited : list loc) (x : loc) :
  resolved h h' visited -> prepared_at h x = true -> prepared_at h' x = true.
Proof.
  intros R Hx. apply prepared_at_true in Hx as (n & Hn & Hp).
  apply prepared_at_true. exists n. split; [|exact Hp].
  eapply resolved_kept; eassumption.
Qed.

Lemma resolved_cls (h h' : heap) (visited : list loc) (x : loc) :
  resolved h h' visited -> cls <$> h' !! x = cls <$> h !! x.
Proof.
  intros (_ & _ & Hlook). rewrite Hlook. destruct (h !! x) as [n|]; [|reflexivity].
  simpl. destruct (decide (x ∈ visited)); [|reflexivity].
  rewrite BaseGrammarNode_prepare_cls. reflexivity.
Qed.

Lemma prepare_each_post (prep : heap -> loc -> res (heap * list loc)) :
  (forall h l h' visited, prep h l = Ok (h', visited) -> prepare_post h l h' visited) ->
  forall os h h' visited,
    prepare_each prep h os = Ok (h', visited) ->
    resolved h h' visited
    /\ Forall (fun c => prepared_at h' c = true) os
    /\ forall x n, x ∈ visited -> h !! x = Some n ->
         Forall (fun c => prepared_at h' c = true) (sub_nodes (cls n)).
Proof.
  intros Hprep. induction os as [|o os IH]; intros h h' visited; simpl.
  - intros [= <- <-]. split; [apply resolved_refl|]. split; [constructor|].
    intros x n Hx. inversion Hx.
  - destruct (prep h o) as [[h1 v1]| |] eqn:E1; try discriminate.
    destruct (prepare_each prep h1 os) as [[h2 v2]| |] eqn:E2; try discriminate.
    intros [= <- <-].
    destruct (Hprep h o h1 v1 E1) as (R1 & Ho & Hsub1).
    destruct (IH h1 h2 v2 E2) as (R2 & Hos & Hsub2).
    split; [eapply resolved_trans; eassumption|]. split.
    + constructor; [|exact Hos]. eapply resolved_prepared_at; eassumption.
    + intros x n Hx Hn. apply elem_of_app in Hx as [Hx|Hx].
      * eapply Forall_impl; [exact (Hsub1 x n Hx Hn)|].
        intros c Hc. simpl in Hc. eapply resolved_prepared_at; eassumption.
      * pose proof (resolved_cls h h1 v1 x R1) as Hcls. rewrite Hn in Hcls.
        destruct (h1 !! x) as [n1|] eqn:Hn1; [|discriminate].
        simpl in Hcls. injection Hcls as Hcls. rewrite <- Hcls.
        exact (Hsub2 x n1 Hx Hn1).
Qed.

Lemma prepare_Ok (fuel : nat) :
  forall h l h' visited,
    prepare fuel h l = Ok (h', visited) -> prepare_post h l h' visited.
Proof.
  induction fuel as [|fuel IH]; intros h l h' visited; [discriminate|].
  cbn [prepare]. destruct (h !! l) as [self|] eqn:Hl; [|discriminate].
  destruct (_prepared self) eqn:Hp.
  - rewrite (BaseGrammarNode_prepare_prepared self Hp). intros [= <- <-].
    split; [apply resolved_refl|]. split.
    + apply prepared_at_true. eauto.
    + intros x n Hx. inversion Hx.
  - pose proof (resolved_mark h l self Hl Hp) as Rmark.
    destruct (BaseGrammarNode_prepare_first self Hp) as [Hfirst (_ & _ & _ & _ & Hp')].
    destruct (BaseGrammarNode_prepare self) as [self' first] eqn:Eprep.
    simpl in Hfirst, Hp', Rmark. subst first.
    destruct (prepare_each (prepare fuel) (<[l:=self']> h) (sub_nodes (cls self)))
      as [[h2 v2]| |] eqn:E2; try discriminate.
    intros [= <- <-].
    destruct (prepare_each_post (prepare fuel) IH _ _ _ _ E2) as (R2 & Hsubs & Hsub2).
    pose proof (resolved_trans h _ h2 [l] v2 Rmark R2) as R.
    split; [exact R|]. split.
    + eapply resolved_prepared_at; [exact R2|].
      apply prepared_at_true. exists self'. split; [apply lookup_insert_eq|exact Hp'].
    + intros x n Hx Hn. apply elem_of_cons in Hx as [->|Hx].
      * assert (n = self) as -> by congruence. exact Hsubs.
      * pose proof (resolved_cls h _ [l] x Rmark) as Hcls. rewrite Hn in Hcls.
        destruct ((<[l:=self']> h) !! x) as [n1|] eqn:Hn1; [|discriminate].
        simpl in Hcls. injection Hcls as Hcls. rewrite <- Hcls.
        exact (Hsub2 x n1 Hx Hn1).
Qed.

Lemma prepare_Ok_settled (fuel : nat) (h h' : heap) (l : loc) (visited : list loc) :
  settled h -> prepare fuel h l = Ok (h', visited) -> settled h'.
Proof.
  intros Hsettled E. destruct (prepare_Ok fuel h l h' visited E) as (R & _ & Hsub).
  intros x n' Hn' Hp'. simpl.
  pose proof R as (_ & _ & Hlook). rewrite Hlook in Hn'.
  destruct (h !! x) as [n|] eqn:Hn; [|discriminate]. simpl in Hn'. injection Hn' as <-.
  destruct (decide (x ∈ visited)) as [Hx|Hx].
  - rewrite BaseGrammarNode_prepare_cls. exact (Hsub x n Hx Hn).
  - eapply Forall_impl; [exact (Hsettled x n Hn Hp')|].
    intros c Hc. simpl in Hc. eapply resolved_prepared_at; eassumption.
Qed.

Lemma settled_reachable (h : heap) (l x : loc) :
  settled h -> prepared_at h l = true -> reachable h l x -> prepared_at h x = true.
Proof.
  intros Hsettled Hl. induction 1 as [|x n c _ IH Hn Hc]; [exact Hl|].
  apply prepared_at_true in IH as (n0 & Hn0 & Hp).
  assert (n0 = n) as -> by congruence.
  pose proof (Hsettled x n Hn Hp) as Hall. simpl in Hall.
  rewrite Forall_forall in Hall. exact (Hall c Hc).
Qed.

(** X8. When no call of [prepare] is under way, a call of [prepare] on a
    node that returns leaves that node prepared together with every node
    reachable from it through sub-node references, shared and cyclic
    references included; and again no call is under way. *)
Theorem prepare_reaches_every_node (fuel : nat) (h h' : heap) (l : loc)
    (visited : list loc) :
  settled h ->
  prepare fuel h l = Ok (h', visited) ->
  settled h'
  /\ forall x, reachable h' l x -> exists n, h' !! x = Some n /\ _prepared n = true.
Proof.
  intros Hsettled E.
  pose proof (prepare_Ok_settled fuel h h' l visited Hsettled E) as Hsettled'.
  split; [exact Hsettled'|]. intros x Hx.
  destruct (prepare_Ok fuel h l h' visited E) as (R & Hl & _).
  apply prepared_at_true. exact (settled_reachable h' l x Hsettled' Hl Hx).
Qed.

Lemma prepare_reaches_every_node_witness :
  settled IntArray.objects
  /\ exists (h' : heap) (visited : list loc),
       prepare 18 IntArray.objects 3 = Ok (h', visited)
       /\ exists n, h' !! 5 = Some n /\ _prepared n = true.
Proof.
  assert (settled IntArray.objects) as Hsettled
    by (apply (bool_decide_unpack _); vm_compute; exact I).
  split; [exact Hsettled|].
  destruct (prepare 18 IntArray.objects 3) as [[h' visited]| |] eqn:E;
    [|vm_compute in E; discriminate E..].
  exists h', visited. split; [reflexivity|].
  destruct (prepare_reaches_every_node 18 IntArray.objects h' 3 visited Hsettled E)
    as [_ Hreach].
  apply Hreach.
  destruct (prepare_Ok 18 _ _ _ _ E) as (R & _ & _).
  assert (forall x k, cls <$> IntArray.objects !! x = Some k ->
                      exists n, h' !! x = Some n /\ cls n = k) as Hnode.
  { intros x k Hk. rewrite <- (resolved_cls _ _ _ x R) in Hk.
    destruct (h' !! x) as [n|]; [|discriminate]. injection Hk as <-. eauto. }
  destruct (Hnode 3 (Option [16]) eq_refl) as (n3 & H3 & C3).
  destruct (Hnode 16 (Sequence [10; 11; 13; 14; 15]) eq_refl) as (n16 & H16 & C16).
  destruct (Hnode 10 (Option [5]) eq_refl) as (n10 & H10 & C10).
  apply (reachable_sub h' 3 10 n10); [|exact H10|rewrite C10; apply list_elem_of_here].
  apply (reachable_sub h' 3 16 n16); [|exact H16|rewrite C16; apply list_elem_of_here].
  apply (reachable_sub h' 3 3 n3); [|exact H3|rewrite C3; apply list_elem_of_here].
  apply reachable_self.
Defined.

(** X9. Preparation changes what the results of a grammar look like, not
    what the grammar matches: on the heap a call of [prepare] returns, every
    node yields the same remaining texts in the same order as on the heap the
    call received, on every input. *)
Theorem prepare_changes_no_match (prep_fuel : nat) (h h' : heap) (l0 : loc)
    (visited : list loc) (l : loc) (text : string) (fuel k : nat) :
  prepare prep_fuel h l0 = Ok (h', visited) ->
  map snd <$> islice h' fuel k (parse l text)
  = map snd <$> islice h fuel k (parse l text).
Proof.
  intros E. destruct (prepare_Ok prep_fuel h l0 h' visited E) as (R & _ & _).
  apply (islice_alike h' h).
  - intros x. exact (resolved_cls h h' visited x R).
  - constructor. exact (resolved_cls h h' visited l R).
Qed.

Lemma prepare_changes_no_match_witness :
  prepare 3 Letters.letter 0
  = Ok ({[ 0 := prepared_node None false true (Symbol "a") ]}, [0])
  /\ islice Letters.letter 2 2 (parse 0 "ab") = Some [(RTree "<unnamed node>" [RStr "a"], "b")]
  /\ map snd <$> islice {[ 0 := prepared_node None false true (Symbol "a") ]} 2 2 (parse 0 "ab")
     = map snd <$> islice Letters.letter 2 2 (parse 0 "ab").
Proof.
  split; [reflexivity|]. split; [reflexivity|].
  apply (prepare_changes_no_match 3 Letters.letter
           {[ 0 := prepared_node None false true (Symbol "a") ]} 0 [0] 0 "ab" 2 2).
  reflexivity.
Defined.

(** ** Copies and operators *)

Lemma alloc_spec (h : heap) (k : kind) (l : loc) (h' : heap) :
  alloc h k = Ok (l, h') ->
  h !! l = None /\ h' !! l = Some (new_node k)
  /\ forall x n, h !! x = Some n -> h' !! x = Some n.
Proof.
  intros [= <- <-]. split; [apply fresh_loc_unused|].
  split; [apply lookup_insert_eq|].
  intros x n Hx. rewrite lookup_insert_ne; [exact Hx|].
  intros <-. rewrite fresh_loc_unused in Hx. discriminate.
Qed.

(** A node the expression allocated: not in the heap before, in it after,
    without a name and not prepared. *)
Lemma build_allocates (h : heap) (b : building) (l : loc) (h' : heap) :
  build h b = Ok (l, h') ->
  h !! l = None
  /\ (exists n, h' !! l = Some n /\ name n = None /\ _prepared n = false)
  /\ forall x n, h !! x = Some n -> h' !! x = Some n.
Proof.
  assert (forall h0 k l0 h1 (inner : heap),
            (forall x n, inner !! x = Some n -> h0 !! x = Some n) ->
            alloc h0 k = Ok (l0, h1) ->
            inner !! l0 = None
            /\ (exists n, h1 !! l0 = Some n /\ name n = None /\ _prepared n = false)
            /\ forall x n, inner !! x = Some n -> h1 !! x = Some n) as Hstep.
  { intros h0 k l0 h1 inner Hsub E.
    destruct (alloc_spec h0 k l0 h1 E) as (Hfresh & Hnew & Hkeep).
    split; [|split].
    - destruct (inner !! l0) as [n|] eqn:Hn; [|reflexivity].
      apply Hsub in Hn. congruence.
    - eauto.
    - intros x n Hx. apply Hkeep, Hsub, Hx. }
  assert (forall other o h1,
            as_node h other = Ok (o, h1) ->
            forall x n, h !! x = Some n -> h1 !! x = Some n) as Hnode.
  { intros [s|o0] o h1; simpl.
    - intros E. apply (alloc_spec h (Symbol s) o h1 E).
    - intros [= <- <-]. auto. }
  destruct b as [self other|self other|self other|self other
                 |self item|self inline_arg discard_arg]; simpl.
  - unfold BaseGrammarNode_or.
    destruct (as_node h other) as [[o h1]| |] eqn:E; try discriminate.
    apply Hstep. exact (Hnode other o h1 E).
  - unfold BaseGrammarNode_ror.
    destruct (as_node h other) as [[o h1]| |] eqn:E; try discriminate.
    apply Hstep. exact (Hnode other o h1 E).
  - unfold add, Sequence_add, BaseGrammarNode_add.
    destruct (sequence_of h self) as [mine|].
    + destruct other as [s|o].
      * destruct (alloc h (Symbol s)) as [[o h1]| |] eqn:E; try discriminate.
        apply Hstep. exact (Hnode (OStr s) o h1 E).
      * destruct (sequence_of h o); apply Hstep; auto.
    + destruct (as_node h other) as [[o h1]| |] eqn:E; try discriminate.
      apply Hstep. exact (Hnode other o h1 E).
  - unfold radd, Sequence_radd, BaseGrammarNode_radd.
    destruct (sequence_of h self) as [mine|].
    + destruct other as [s|o].
      * destruct (alloc h (Symbol s)) as [[o h1]| |] eqn:E; try discriminate.
        apply Hstep. exact (Hnode (OStr s) o h1 E).
      * destruct (sequence_of h o); apply Hstep; auto.
    + destruct (as_node h other) as [[o h1]| |] eqn:E; try discriminate.
      apply Hstep. exact (Hnode other o h1 E).
  - unfold BaseGrammarNode_getitem, Repetition_init.
    destruct item as [item|mi ma]; apply Hstep; auto.
  - unfold copy. destruct (h !! self) as [n|]; [|discriminate].
    intros [= <- <-]. split; [apply fresh_loc_unused|]. split.
    + eexists. split; [apply lookup_insert_eq|]. split; reflexivity.
    + intros x nx Hx. rewrite lookup_insert_ne; [exact Hx|].
      intros <-. rewrite fresh_loc_unused in Hx. discriminate.
Qed.

(** X10. The operators [|] and [+], the subscript and [copy] never change a
    node that exists: whatever the operands, when they return, every node
    of the heap is as it was, and the node they return is a new one, without
    a name and not prepared. *)
Theorem building_changes_no_node (h : heap) (b : building) (l : loc) (h' : heap)
    (x : loc) (n : node) :
  build h b = Ok (l, h') ->
  h !! x = Some n ->
  h' !! x = Some n
  /\ x <> l
  /\ exists new, h' !! l = Some new /\ name new = None /\ _prepared new = false.
Proof.
  intros E Hx. destruct (build_allocates h b l h' E) as (Hfresh & Hnew & Hkeep).
  split; [exact (Hkeep x n Hx)|]. split; [|exact Hnew].
  intros ->. congruence.
Qed.

Lemma building_changes_no_node_witness :
  build Letters.letter (Build_or 0 (OStr "b"))
  = Ok (2, <[2 := new_node (Option [0; 1])]>
             (<[1 := new_node (Symbol "b")]> Letters.letter))
  /\ (<[2 := new_node (Option [0; 1])]>
        (<[1 := new_node (Symbol "b")]> Letters.letter)) !! 0
     = Letters.letter !! 0.
Proof.
  split; [reflexivity|].
  destruct (building_changes_no_node Letters.letter (Build_or 0 (OStr "b")) 2
              (<[2 := new_node (Option [0; 1])]>
                 (<[1 := new_node (Symbol "b")]> Letters.letter))
              0 {| name := None; discard := Some false; inline := None;
                   _prepared := false; cls := Symbol "a" |}
              eq_refl eq_refl) as [Hkeep _].
  exact Hkeep.
Defined.

(** X11. A copy is a new node of the class of the original, with the same
    text, pattern, sub-nodes or bounds, that takes nothing else from it: it
    has no name, it is not prepared, and its flags are exactly the keyword
    arguments of the call, so a flag set on the original is lost.  On every
    input the copy yields the same remaining texts in the same order as the
    original. *)
Theorem copy_keeps_class_only (h : heap) (self : loc) (n : node)
    (inline_arg discard_arg : option bool) (l : loc) (h' : heap)
    (text : string) (fuel k : nat) :
  h !! self = Some n ->
  copy h self inline_arg discard_arg = Ok (l, h') ->
  h' !! l = Some {| name := None; discard := discard_arg; inline := inline_arg;
                    _prepared := false; cls := cls n |}
  /\ h' !! self = Some n
  /\ map snd <$> islice h' fuel k (parse l text)
     = map snd <$> islice h' fuel k (parse self text).
Proof.
  intros Hself E.
  destruct (build_allocates h (Build_copy self inline_arg discard_arg) l h' E)
    as (_ & _ & Hkeep).
  unfold copy in E. rewrite Hself in E. injection E as <- <-.
  assert ((<[fresh_loc h := update inline_arg discard_arg (new_node (cls n))]> h)
            !! fresh_loc h
          = Some {| name := None; discard := discard_arg; inline := inline_arg;
                    _prepared := false; cls := cls n |}) as Hnew.
  { rewrite lookup_insert_eq. unfold update, new_node. simpl.
    destruct discard_arg, inline_arg; reflexivity. }
  split; [exact Hnew|]. split; [exact (Hkeep self n Hself)|].
  apply (islice_alike _ _); [reflexivity|].
  constructor. unfold same_cls. rewrite Hnew, (Hkeep self n Hself). reflexivity.
Qed.

Lemma copy_keeps_class_only_witness :
  copy IntArray.grammar 2 None (Some true)
  = Ok (17, <[17 := {| name := None; discard := Some true; inline := None;
                       _prepared := false; cls := Option [9] |}]> IntArray.grammar)
  /\ (<[17 := {| name := None; discard := Some true; inline := None;
                 _prepared := false; cls := Option [9] |}]> IntArray.grammar) !! 17
     = Some {| name := None; discard := Some true; inline := None;
               _prepared := false; cls := Option [9] |}.
Proof.
  split; [vm_compute; reflexivity|].
  destruct (copy_keeps_class_only IntArray.grammar 2
              (prepared_node (Some "item") false false (Option [9]))
              None (Some true) 17
              (<[17 := {| name := None; discard := Some true; inline := None;
                          _prepared := false; cls := Option [9] |}]> IntArray.grammar)
              "1" 0 0) as [Hnew _].
  - reflexivity.
  - vm_compute. reflexivity.
  - exact Hnew.
Defined.

Lemma sequence_of_alloc (h : heap) (k : kind) (l : loc) (h' : heap) :
  alloc h k = Ok (l, h') ->
  sequence_of h' l = match k with Sequence sequence => Some sequence | _ => None end
  /\ forall x n, h !! x = Some n -> sequence_of h' x = sequence_of h x.
Proof.
  intros E. destruct (alloc_spec h k l h' E) as (Hfresh & Hnew & Hkeep). split.
  - unfold sequence_of. rewrite Hnew. reflexivity.
  - intros x n Hx. unfold sequence_of. rewrite (Hkeep x n Hx), Hx. reflexivity.
Qed.

(** X12. Addition flattens on the left only.  For three nodes [a], [b] and
    [c] that are not Sequences, [(a + b) + c] is one Sequence of the three,
    while [a + (b + c)] is a Sequence of [a] and of the Sequence of [b] and
    [c], which stays a sub-node of its own. *)
Theorem add_flattens_on_the_left (h : heap) (a b c : loc) (na nb nc : node) :
  h !! a = Some na -> h !! b = Some nb -> h !! c = Some nc ->
  sequence_of h a = None -> sequence_of h b = None -> sequence_of h c = None ->
  (exists ab h1 abc h2,
     add h a (ONode b) = Ok (ab, h1) /\ add h1 ab (ONode c) = Ok (abc, h2)
     /\ sequence_of h2 abc = Some [a; b; c])
  /\ (exists bc h1 abc h2,
        add h b (ONode c) = Ok (bc, h1) /\ add h1 a (ONode bc) = Ok (abc, h2)
        /\ sequence_of h2 abc = Some [a; bc] /\ sequence_of h2 bc = Some [b; c]).
Proof.
  intros Ha Hb Hc Sa Sb Sc. split.
  - destruct (alloc h (Sequence [a; b])) as [[ab h1]| |] eqn:E1; try discriminate E1.
    destruct (sequence_of_alloc h _ ab h1 E1) as [Sab Skeep1].
    destruct (alloc h1 (Sequence ([a; b] ++ [c]))) as [[abc h2]| |] eqn:E2;
      try discriminate E2.
    destruct (sequence_of_alloc h1 _ abc h2 E2) as [Sabc _].
    exists ab, h1, abc, h2. split; [|split].
    + unfold add, BaseGrammarNode_add. rewrite Sa. exact E1.
    + unfold add, Sequence_add. rewrite Sab, (Skeep1 c nc Hc), Sc. exact E2.
    + exact Sabc.
  - destruct (alloc h (Sequence [b; c])) as [[bc h1]| |] eqn:E1; try discriminate E1.
    destruct (sequence_of_alloc h _ bc h1 E1) as [Sbc Skeep1].
    destruct (alloc h1 (Sequence [a; bc])) as [[abc h2]| |] eqn:E2; try discriminate E2.
    destruct (sequence_of_alloc h1 _ abc h2 E2) as [Sabc Skeep2].
    destruct (alloc_spec h _ bc h1 E1) as (_ & Hbc & _).
    exists bc, h1, abc, h2. split; [|split; [|split]].
    + unfold add, BaseGrammarNode_add. rewrite Sb. exact E1.
    + unfold add, BaseGrammarNode_add. rewrite (Skeep1 a na Ha), Sa. exact E2.
    + exact Sabc.
    + rewrite (Skeep2 bc _ Hbc). exact Sbc.
Qed.

Lemma add_flattens_on_the_left_witness :
  exists ab h1 abc h2,
    add IntArray.grammar 4 (ONode 5) = Ok (ab, h1)
    /\ add h1 ab (ONode 11) = Ok (abc, h2)
    /\ sequence_of h2 abc = Some [4; 5; 11].
Proof.
  destruct (add_flattens_on_the_left IntArray.grammar 4 5 11
              (Samples.anonymous false (Regex "\d+" IntArray.re_digits))
              (Samples.anonymous false (Regex "\s*" IntArray.re_spaces))
              (Samples.anonymous true (Symbol "["))
              eq_refl eq_refl eq_refl eq_refl eq_refl eq_refl) as [Hleft _].
  exact Hleft.
Defined.

(** ** The registry of productions *)

Lemma dict_get_set_eq {V : Type} (d : list (string * V)) (key : string) (value : V) :
  dict_get (dict_set d key value) key = Some value.
Proof.
  induction d as [|[k v] d IH]; simpl.
  - rewrite String.eqb_refl. reflexivity.
  - destruct (String.eqb k key) eqn:E; simpl; rewrite E; [reflexivity|exact IH].
Qed.

Lemma dict_get_set_ne {V : Type} (d : list (string * V)) (key key' : string) (value : V) :
  key <> key' -> dict_get (dict_set d key value) key' = dict_get d key'.
Proof.
  intros Hne. induction d as [|[k v] d IH]; simpl.
  - destruct (String.eqb_spec key key'); [contradiction|reflexivity].
  - destruct (String.eqb_spec k key) as [->|Hk]; simpl.
    + destruct (String.eqb_spec key key'); [contradiction|reflexivity].
    + destruct (String.eqb k key'); [reflexivity|exact IH].
Qed.

Lemma dict_get_Some_elem {V : Type} (d : list (string * V)) (key : string) (value : V) :
  dict_get d key = Some value -> (key, value) ∈ d.
Proof.
  induction d as [|[k v] d IH]; simpl; [discriminate|].
  destruct (String.eqb_spec k key) as [->|Hk].
  - intros [= ->]. apply list_elem_of_here.
  - intros H. apply list_elem_of_further, IH, H.
Qed.

Lemma dict_set_absent {V : Type} (d : list (string * V)) (key : string) (value : V) :
  dict_get d key = None -> dict_set d key value = d ++ [(key, value)].
Proof.
  induction d as [|[k v] d IH]; simpl; [reflexivity|].
  destruct (String.eqb k key); [discriminate|]. intros H. rewrite (IH H). reflexivity.
Qed.

Lemma dict_get_None_keys {V : Type} (d : list (string * V)) (key : string) :
  dict_get d key = None -> key ∉ fst <$> d.
Proof.
  induction d as [|[k v] d IH]; simpl; intros H Hin; [inversion Hin|].
  destruct (String.eqb_spec k key) as [->|Hk]; [discriminate|].
  apply elem_of_cons in Hin as [->|Hin]; [contradiction|].
  exact (IH H Hin).
Qed.

Lemma options_of_Some (h : heap) (l : loc) (options : list loc) :
  options_of h l = Some options ->
  exists n, h !! l = Some n /\ cls n = Option options.
Proof.
  unfold options_of. destruct (h !! l) as [n|]; [|discriminate].
  destruct (cls n) eqn:E; try discriminate. intros [= <-]. eauto.
Qed.

(** Looking a production up keeps the registry well-formed and gives a
    Choice of the heap, which the next lookup gives again. *)
Lemma production_spec (d : GrammarDict) (h : heap) (item : string)
    (l : loc) (d1 : GrammarDict) (h1 : heap) :
  registry_wf d h ->
  production d h item = (l, (d1, h1)) ->
  registry_wf d1 h1
  /\ dict_get (productions d1) item = Some l
  /\ special d1 = special d
  /\ options_of h1 l = match dict_get (productions d) item with
                        | Some _ => options_of h l
                        | None => Some []
                        end
  /\ (forall x n, h !! x = Some n -> h1 !! x = Some n)
  /\ (forall key, key <> item -> dict_get (productions d1) key = dict_get (productions d) key).
Proof.
  intros (Hopts & Hlocs & Hkeys). unfold production.
  destruct (dict_get (productions d) item) as [l0|] eqn:Hget.
  - intros [= <- <- <-]. repeat split; auto.
  - intros [= <- <- <-]. simpl.
    assert (forall x n, h !! x = Some n ->
              (<[fresh_loc h := new_node (Option [])]> h) !! x = Some n) as Hkeep.
    { intros x n Hx. rewrite lookup_insert_ne; [exact Hx|].
      intros <-. rewrite fresh_loc_unused in Hx. discriminate. }
    rewrite (dict_set_absent _ _ _ Hget).
    split; [|split; [|split; [|split; [|split]]]].
    + split; [|split].
      * apply Forall_app. split.
        -- eapply Forall_impl; [exact Hopts|]. intros [k x] [os Hos]. simpl in *.
           destruct (options_of_Some h x os Hos) as (n & Hn & Hcls).
           exists os. unfold options_of. rewrite (Hkeep x n Hn), Hcls. reflexivity.
        -- constructor; [|constructor]. simpl. exists [].
           unfold options_of. rewrite lookup_insert_eq. reflexivity.
      * cbn [productions]. rewrite fmap_app. simpl.
        apply NoDup_app. split; [exact Hlocs|]. split.
        -- intros x Hx Hx'. apply list_elem_of_singleton in Hx' as ->.
           apply list_elem_of_fmap in Hx as ([k x] & Hfresh & Hin). simpl in Hfresh.
           rewrite Forall_forall in Hopts. destruct (Hopts _ Hin) as [os Hos].
           simpl in Hos. destruct (options_of_Some h x os Hos) as (n & Hn & _).
           subst x. rewrite fresh_loc_unused in Hn. discriminate.
        -- apply NoDup_singleton.
      * cbn [productions]. rewrite fmap_app. simpl.
        apply NoDup_app. split; [exact Hkeys|]. split.
        -- intros k Hk Hk'. apply list_elem_of_singleton in Hk' as ->.
           exact (dict_get_None_keys _ _ Hget Hk).
        -- apply NoDup_singleton.
    + rewrite <- (dict_set_absent _ _ _ Hget). apply dict_get_set_eq.
    + reflexivity.
    + unfold options_of. rewrite lookup_insert_eq. reflexivity.
    + exact Hkeep.
    + intros key Hne. rewrite <- (dict_set_absent _ _ _ Hget).
      apply dict_get_set_ne. congruence.
Qed.

Lemma registry_wf_empty (h : heap) : registry_wf empty_registry h.
Proof. split; [constructor|]. split; constructor. Qed.

Lemma production_present (d : GrammarDict) (h : heap) (item : string) (l : loc) :
  dict_get (productions d) item = Some l -> production d h item = (l, (d, h)).
Proof. unfold production. intros ->. reflexivity. Qed.

Lemma registry_wf_append (d : GrammarDict) (h : heap) (l : loc) (n n' : node)
    (value : loc) :
  registry_wf d h -> h !! l = Some n -> append_option n value = Some n' ->
  registry_wf d (<[l := n']> h).
Proof.
  intros (Hopts & Hlocs & Hkeys) Hn Happ. split; [|split; assumption].
  eapply Forall_impl; [exact Hopts|]. intros [k x] [os Hos]. simpl in *.
  unfold options_of. destruct (decide (l = x)) as [<-|Hne].
  - rewrite lookup_insert_eq. unfold append_option in Happ.
    destruct (cls n); try discriminate. injection Happ as <-. simpl. eauto.
  - rewrite lookup_insert_ne by exact Hne. unfold options_of in Hos.
    rewrite Hos. eauto.
Qed.

(** X13. A production can be referred to before it is defined.  Looking up a
    rule name gives a Choice node, a new one without alternatives when the
    name is not known yet; a later definition under that name appends its
    value to the alternatives of that very node, so the reference obtained
    before sees the definition, and later lookups give the same node again. *)
Theorem forward_reference_is_defined_later (d : GrammarDict) (h : heap)
    (item : string) (value : loc) :
  registry_wf d h ->
  is_dunder item = false ->
  String.length item <> 1 ->
  exists (l : loc) (d1 : GrammarDict) (h1 h2 : heap) (options : list loc),
    GrammarDict_getitem d h item = inr (Object l, (d1, h1))
    /\ options_of h1 l = Some options
    /\ (dict_get (productions d) item = None -> options = [])
    /\ GrammarDict_setitem d1 h1 item value = inr (d1, h2)
    /\ options_of h2 l = Some (options ++ [value])
    /\ GrammarDict_getitem d1 h2 item = inr (Object l, (d1, h2))
    /\ registry_wf d1 h2.
Proof.
  intros Hwf Hdunder Hlen.
  destruct (production d h item) as [l [d1 h1]] eqn:Eprod.
  destruct (production_spec d h item l d1 h1 Hwf Eprod)
    as (Hwf1 & Hget1 & _ & Hopts1 & _ & _).
  assert (exists options, options_of h1 l = Some options
                          /\ (dict_get (productions d) item = None -> options = []))
    as (options & Hoptions & Hnew).
  { rewrite Hopts1. destruct (dict_get (productions d) item) as [l0|] eqn:Hget.
    - destruct Hwf as (Hall & _ & _). rewrite Forall_forall in Hall.
      destruct (Hall _ (dict_get_Some_elem _ _ _ Hget)) as [os Hos]. simpl in Hos.
      unfold production in Eprod. rewrite Hget in Eprod. injection Eprod as <- <- <-.
      exists os. split; [exact Hos|discriminate].
    - exists []. auto. }
  destruct (options_of_Some h1 l options Hoptions) as (n & Hn & Hcls).
  set (n' := {| name := name n; discard := discard n; inline := inline n;
                _prepared := _prepared n; cls := Option (options ++ [value]) |}).
  assert (append_option n value = Some n') as Happ
    by (unfold append_option; rewrite Hcls; reflexivity).
  assert ((String.length item =? 1) = false) as Hlen' by (apply Nat.eqb_neq; exact Hlen).
  exists l, d1, h1, (<[l := n']> h1), options.
  split; [|split; [|split; [|split; [|split; [|split]]]]].
  - unfold GrammarDict_getitem. rewrite Hlen', Hdunder, Eprod. reflexivity.
  - exact Hoptions.
  - exact Hnew.
  - unfold GrammarDict_setitem.
    rewrite Hdunder, Hlen', (production_present d1 h1 item l Hget1), Hn, Happ.
    reflexivity.
  - unfold options_of. rewrite lookup_insert_eq. reflexivity.
  - unfold GrammarDict_getitem.
    rewrite Hlen', Hdunder, (production_present d1 _ item l Hget1). reflexivity.
  - exact (registry_wf_append d1 h1 l n n' value Hwf1 Hn Happ).
Qed.

Lemma forward_reference_is_defined_later_witness :
  exists (l : loc) (d1 : GrammarDict) (h1 h2 : heap) (options : list loc),
    GrammarDict_getitem empty_registry Letters.letter "array" = inr (Object l, (d1, h1))
    /\ options_of h1 l = Some options
    /\ (dict_get (productions empty_registry) "array" = None -> options = [])
    /\ GrammarDict_setitem d1 h1 "array" 0 = inr (d1, h2)
    /\ options_of h2 l = Some (options ++ [0])
    /\ GrammarDict_getitem d1 h2 "array" = inr (Object l, (d1, h2))
    /\ registry_wf d1 h2.
Proof.
  apply (forward_reference_is_defined_later empty_registry Letters.letter "array" 0).
  - apply registry_wf_empty.
  - reflexivity.
  - simpl. lia.
Defined.

(** X14. Defining a production touches that production only: every other
    rule name still refers to the node it referred to, that node is as it
    was, and the special entries are as they were. *)
Theorem definition_touches_one_production (d : GrammarDict) (h : heap)
    (item : string) (value : loc) (d2 : GrammarDict) (h2 : heap)
    (key : string) (l : loc) :
  registry_wf d h ->
  is_dunder item = false ->
  GrammarDict_setitem d h item value = inr (d2, h2) ->
  key <> item ->
  dict_get (productions d) key = Some l ->
  dict_get (productions d2) key = Some l
  /\ h2 !! l = h !! l
  /\ special d2 = special d.
Proof.
  intros Hwf Hdunder Eset Hkey Hget. unfold GrammarDict_setitem in Eset.
  rewrite Hdunder in Eset. destruct (String.length item =? 1); [discriminate|].
  destruct (production d h item) as [l0 [d1 h1]] eqn:Eprod.
  destruct (production_spec d h item l0 d1 h1 Hwf Eprod)
    as (Hwf1 & Hget1 & Hspecial & _ & Hkeep & Hothers).
  destruct (h1 !! l0) as [n|] eqn:Hn; [|discriminate].
  destruct (append_option n value) as [n'|]; [|discriminate].
  injection Eset as <- <-.
  assert (dict_get (productions d1) key = Some l) as Hget'
    by (rewrite (Hothers key Hkey); exact Hget).
  split; [exact Hget'|]. split; [|exact Hspecial].
  assert (l0 <> l) as Hne.
  { intros ->. destruct Hwf1 as (_ & Hlocs & Hkeys).
    apply dict_get_Some_elem in Hget', Hget1.
    apply list_elem_of_lookup in Hget' as [i Hi]. apply list_elem_of_lookup in Hget1 as [j Hj].
    assert (i = j) as ->.
    { apply (NoDup_lookup _ i j l Hlocs); rewrite list_lookup_fmap.
      - rewrite Hi. reflexivity.
      - rewrite Hj. reflexivity. }
    rewrite Hi in Hj. injection Hj as Hj. exact (Hkey Hj). }
  rewrite lookup_insert_ne by exact Hne.
  destruct Hwf as (Hall & _ & _). rewrite Forall_forall in Hall.
  destruct (Hall _ (dict_get_Some_elem _ _ _ Hget)) as [os Hos]. simpl in Hos.
  destruct (options_of_Some h l os Hos) as (nl & Hnl & _).
  rewrite (Hkeep l nl Hnl), Hnl. reflexivity.
Qed.

Lemma is_dunder_length (item : string) : is_dunder item = true -> String.length item <> 1.
Proof.
  destruct item as [|a [|b rest]]; simpl; try lia.
  unfold is_dunder, last_two. simpl. intros H _.
  apply andb_true_iff in H as [_ H]. simpl in H.
  destruct (Ascii.eqb a "_"); discriminate.
Qed.

(** X15. A name that starts and ends with two underscores is a special
    entry: assigning it stores the value without touching the productions or
    the heap, and looking it up afterwards gives that value back; looking up
    such a name that was never assigned raises [KeyError] and, unlike a rule
    name, registers nothing. *)
Theorem special_entry_round_trip (d : GrammarDict) (h : heap) (item : string)
    (value : loc) :
  is_dunder item = true ->
  exists d' : GrammarDict,
    GrammarDict_setitem d h item value = inr (d', h)
    /\ productions d' = productions d
    /\ GrammarDict_getitem d' h item = inr (Object value, (d', h))
    /\ (dict_get (special d) item = None ->
        GrammarDict_getitem d h item = inl (KeyError item)).
Proof.
  intros Hdunder. pose proof (is_dunder_length item Hdunder) as Hlen.
  apply Nat.eqb_neq in Hlen.
  exists {| productions := productions d; special := dict_set (special d) item value |}.
  split; [|split; [|split]].
  - unfold GrammarDict_setitem. rewrite Hdunder. reflexivity.
  - reflexivity.
  - unfold GrammarDict_getitem. rewrite Hlen, Hdunder. simpl.
    rewrite dict_get_set_eq. reflexivity.
  - intros Hnone. unfold GrammarDict_getitem. rewrite Hlen, Hdunder, Hnone. reflexivity.
Qed.

Lemma special_entry_round_trip_witness :
  exists d' : GrammarDict,
    GrammarDict_setitem empty_registry ∅ "__module__" 3 = inr (d', ∅)
    /\ productions d' = []
    /\ GrammarDict_getitem d' ∅ "__module__" = inr (Object 3, (d', ∅))
    /\ (dict_get (special empty_registry) "__module__" = None ->
        GrammarDict_getitem empty_registry ∅ "__module__" = inl (KeyError "__module__")).
Proof.
  apply (special_entry_round_trip empty_registry ∅ "__module__" 3). reflexivity.
Defined.

(** X16. A name of one character can be neither defined nor used as a rule:
    assigning it raises [ValueError], and looking it up gives the builder of
    [SPECIAL_NAMES] for [r], [s], [i] and [d] and raises [KeyError] for any
    other character, without registering anything. *)
Theorem one_character_names (d : GrammarDict) (h : heap) (item : string) (value : loc) :
  String.length item = 1 ->
  GrammarDict_setitem d h item value = inl (ValueError item)
  /\ (GrammarDict_getitem d h item = inl (KeyError item)
      \/ exists b, GrammarDict_getitem d h item = inr (Builder b, (d, h))
                   /\ (item = "r" \/ item = "s" \/ item = "i" \/ item = "d")).
Proof.
  intros Hlen.
  assert (is_dunder item = false) as Hdunder.
  { destruct (is_dunder item) eqn:E; [|reflexivity].
    destruct (is_dunder_length item E Hlen). }
  split.
  - unfold GrammarDict_setitem. rewrite Hdunder, Hlen. reflexivity.
  - unfold GrammarDict_getitem, SPECIAL_NAMES. rewrite Hlen. simpl.
    destruct (String.eqb_spec item "r") as [->|_]; [right; eauto|].
    destruct (String.eqb_spec item "s") as [->|_]; [right; eauto|].
    destruct (String.eqb_spec item "i") as [->|_]; [right; eauto 6|].
    destruct (String.eqb_spec item "d") as [->|_]; [right; eauto 7|].
    left. reflexivity.
Qed.

Lemma one_character_names_witness :
  GrammarDict_setitem empty_registry ∅ "x" 0 = inl (ValueError "x")
  /\ GrammarDict_getitem empty_registry ∅ "x" = inl (KeyError "x").
Proof.
  destruct (one_character_names empty_registry ∅ "x" 0 eq_refl) as [Hset _].
  split; [exact Hset|reflexivity].
Defined.

Lemma Registry_two_wf : registry_wf Registry.two Registry.heap_two.
Proof.
  split; [|split].
  - repeat constructor; simpl; eexists; reflexivity.
  - repeat constructor; intros H;
      repeat (apply elem_of_cons in H as [H|H]; [discriminate H|]); inversion H.
  - repeat constructor; intros H;
      repeat (apply elem_of_cons in H as [H|H]; [discriminate H|]); inversion H.
Qed.

Lemma definition_touches_one_production_witness :
  GrammarDict_setitem Registry.two Registry.heap_two "ws" 0
  = inr (Registry.two,
         <[2 := {| name := None; discard := None; inline := None; _prepared := false;
                   cls := Option [0] |}]> Registry.heap_two)
  /\ (<[2 := {| name := None; discard := None; inline := None; _prepared := false;
               cls := Option [0] |}]> Registry.heap_two) !! 1
     = Registry.heap_two !! 1.
Proof.
  split; [reflexivity|].
  destruct (definition_touches_one_production Registry.two Registry.heap_two "ws" 0
              Registry.two
              (<[2 := {| name := None; discard := None; inline := None;
                         _prepared := false; cls := Option [0] |}]> Registry.heap_two)
              "int" 1 Registry_two_wf eq_refl eq_refl) as (_ & Hnode & _).
  - discriminate.
  - reflexivity.
  - exact Hnode.
Defined.

(** ** The metaclass *)

Lemma rename_name (n : node) : rename (name n) n = n.
Proof. destruct n. reflexivity. Qed.

Lemma renamed_refl (h : heap) : renamed h h.
Proof.
  intros x. destruct (h !! x) as [n|] eqn:Hn.
  - exists (name n). simpl. rewrite rename_name. reflexivity.
  - exists None. reflexivity.
Qed.

Lemma renamed_trans (h1 h2 h3 : heap) : renamed h1 h2 -> renamed h2 h3 -> renamed h1 h3.
Proof.
  intros H12 H23 x. destruct (H12 x) as [nm1 E1], (H23 x) as [nm2 E2].
  exists nm2. rewrite E2, E1. destruct (h1 !! x); reflexivity.
Qed.

Lemma set_name_renamed (h : heap) (entry : string * loc) : renamed h (set_name h entry).
Proof.
  unfold set_name. destruct (h !! entry.2) as [n|] eqn:Hn; [|apply renamed_refl].
  intros x. destruct (decide (entry.2 = x)) as [<-|Hne].
  - exists (Some entry.1). rewrite lookup_insert_eq, Hn. reflexivity.
  - rewrite lookup_insert_ne by exact Hne. apply renamed_refl.
Qed.

Lemma set_names_renamed (entries : list (string * loc)) (h : heap) :
  renamed h (fold_left set_name entries h).
Proof.
  revert h. induction entries as [|entry entries IH]; intros h; [apply renamed_refl|].
  simpl. eapply renamed_trans; [apply set_name_renamed|apply IH].
Qed.

Lemma renamed_lookup (h h' : heap) (x : loc) (n' : node) :
  renamed h h' -> h' !! x = Some n' ->
  exists n, h !! x = Some n /\ n' = rename (name n') n.
Proof.
  intros Hr Hn'. destruct (Hr x) as [nm E]. rewrite E in Hn'.
  destruct (h !! x) as [n|]; [|discriminate]. injection Hn' as <-. eauto.
Qed.

Lemma renamed_prepared_at (h h' : heap) (x : loc) :
  renamed h h' -> prepared_at h' x = prepared_at h x.
Proof.
  intros Hr. unfold prepared_at. destruct (Hr x) as [nm ->].
  destruct (h !! x); reflexivity.
Qed.

Lemma renamed_closed (h h' : heap) : renamed h h' -> closed h -> closed h'.
Proof.
  intros Hr Hclosed x n' Hn'. simpl.
  destruct (renamed_lookup h h' x n' Hr Hn') as (n & Hn & ->). simpl.
  eapply Forall_impl; [exact (Hclosed x n Hn)|].
  intros c [nc Hc]. simpl. destruct (Hr c) as [nm ->]. rewrite Hc. simpl. eauto.
Qed.

Lemma renamed_settled (h h' : heap) : renamed h h' -> settled h -> settled h'.
Proof.
  intros Hr Hsettled x n' Hn'. simpl.
  destruct (renamed_lookup h h' x n' Hr Hn') as (n & Hn & ->). simpl. intros Hp.
  eapply Forall_impl; [exact (Hsettled x n Hn Hp)|].
  intros c Hc. simpl in *. rewrite (renamed_prepared_at h h' c Hr). exact Hc.
Qed.

Lemma renamed_unprepared (h h' : heap) : renamed h h' -> unprepared h' = unprepared h.
Proof.
  intros Hr. apply set_eq. intros x. rewrite !elem_of_unprepared.
  destruct (Hr x) as [nm E]. rewrite E. destruct (h !! x) as [n|]; simpl.
  - split; intros (n0 & [= <-] & Hp); eauto.
  - split; intros (n0 & Hn0 & _); discriminate.
Qed.

Lemma set_names_keep (entries : list (string * loc)) (h : heap) (k : string) (l : loc)
    (n : node) :
  h !! l = Some n -> name n = Some k ->
  (forall entry, entry ∈ entries -> entry.2 = l -> entry.1 = k) ->
  exists n', fold_left set_name entries h !! l = Some n' /\ name n' = Some k.
Proof.
  revert h n. induction entries as [|[k0 l0] entries IH]; intros h n Hn Hname Hall.
  - simpl. eauto.
  - simpl.
    assert (forall entry, entry ∈ entries -> entry.2 = l -> entry.1 = k) as Hall'
      by (intros entry Hin; apply Hall, list_elem_of_further, Hin).
    unfold set_name at 2. simpl. destruct (decide (l0 = l)) as [->|Hne].
    + rewrite Hn. apply (IH _ (rename (Some k0) n)); [apply lookup_insert_eq| |exact Hall'].
      simpl. f_equal. apply (Hall (k0, l)); [apply list_elem_of_here|reflexivity].
    + destruct (h !! l0) as [n0|]; [|exact (IH h n Hn Hname Hall')].
      apply (IH _ n); [|exact Hname|exact Hall'].
      rewrite lookup_insert_ne by exact Hne. exact Hn.
Qed.

(** A node that all the entries holding it hold under the same key gets
    that key as its name. *)
Lemma set_names_named (entries : list (string * loc)) (h : heap) (k : string) (l : loc)
    (n : node) :
  h !! l = Some n ->
  (forall entry, entry ∈ entries -> entry.2 = l -> entry.1 = k) ->
  (k, l) ∈ entries ->
  exists n', fold_left set_name entries h !! l = Some n' /\ name n' = Some k.
Proof.
  revert h n. induction entries as [|[k0 l0] entries IH]; intros h n Hn Hall Hin.
  - inversion Hin.
  - assert (forall entry, entry ∈ entries -> entry.2 = l -> entry.1 = k) as Hall'
      by (intros entry Hin'; apply Hall, list_elem_of_further, Hin').
    simpl. unfold set_name at 2. simpl. destruct (decide (l0 = l)) as [->|Hne].
    + rewrite Hn.
      apply (set_names_keep entries _ k l (rename (Some k0) n));
        [apply lookup_insert_eq| |exact Hall'].
      simpl. f_equal. apply (Hall (k0, l)); [apply list_elem_of_here|reflexivity].
    + apply elem_of_cons in Hin as [[= <- <-]|Hin]; [contradiction|].
      destruct (h !! l0) as [n0|]; [|exact (IH h n Hn Hall' Hin)].
      apply (IH _ n); [|exact Hall'|exact Hin].
      rewrite lookup_insert_ne by exact Hne. exact Hn.
Qed.

Lemma dict_set_elem {V : Type} (d : list (string * V)) (key : string) (value : V)
    (entry : string * V) :
  entry ∈ dict_set d key value -> entry ∈ d \/ entry = (key, value).
Proof.
  induction d as [|[k v] d IH]; simpl.
  - intros H. apply list_elem_of_singleton in H. auto.
  - destruct (String.eqb_spec k key) as [->|Hk]; intros H;
      apply elem_of_cons in H as [->|H].
    + auto.
    + left. apply list_elem_of_further, H.
    + left. apply list_elem_of_here.
    + destruct (IH H) as [H'|H']; [left; apply list_elem_of_further, H'|auto].
Qed.

Lemma dict_set_keeps {V : Type} (d : list (string * V)) (key : string) (value : V)
    (entry : string * V) :
  entry ∈ d -> entry.1 <> key -> entry ∈ dict_set d key value.
Proof.
  induction d as [|[k v] d IH]; simpl; intros Hin Hne; [inversion Hin|].
  apply elem_of_cons in Hin as [->|Hin].
  - simpl in Hne. destruct (String.eqb_spec k key); [contradiction|].
    apply list_elem_of_here.
  - destruct (String.eqb k key); apply list_elem_of_further; [exact Hin|].
    exact (IH Hin Hne).
Qed.

(** The entries of [to_dict] are those of the productions and of the
    special entries, and a production under a key that no special entry
    has is one of them. *)
Lemma to_dict_elem (d : GrammarDict) (entry : string * loc) :
  entry ∈ to_dict d -> entry ∈ productions d \/ entry ∈ special d.
Proof.
  unfold to_dict. generalize (productions d) as acc.
  induction (special d) as [|[k v] sp IH]; intros acc; simpl; [auto|].
  intros H. destruct (IH _ H) as [H'|H'].
  - destruct (dict_set_elem _ _ _ _ H') as [H''| ->]; [auto|].
    right. apply list_elem_of_here.
  - right. apply list_elem_of_further, H'.
Qed.

Lemma to_dict_production (d : GrammarDict) (entry : string * loc) :
  entry ∈ productions d ->
  (forall e, e ∈ special d -> e.1 <> entry.1) ->
  entry ∈ to_dict d.
Proof.
  unfold to_dict. generalize (productions d) as acc.
  induction (special d) as [|[k v] sp IH]; intros acc Hin Hkeys; simpl; [exact Hin|].
  apply IH.
  - apply dict_set_keeps; [exact Hin|]. simpl. intros Heq.
    apply (Hkeys (k, v)); [apply list_elem_of_here|]. simpl. congruence.
  - intros e He. apply Hkeys, list_elem_of_further, He.
Qed.

Lemma prepare_each_settled (fuel : nat) (os : list loc) :
  forall h h' visited,
    settled h -> prepare_each (prepare fuel) h os = Ok (h', visited) -> settled h'.
Proof.
  induction os as [|o os IH]; intros h h' visited Hsettled; simpl.
  - intros [= <- <-]. exact Hsettled.
  - destruct (prepare fuel h o) as [[h1 v1]| |] eqn:E1; try discriminate.
    destruct (prepare_each (prepare fuel) h1 os) as [[h2 v2]| |] eqn:E2; try discriminate.
    intros [= <- <-]. apply (IH h1 h2 v2); [|exact E2].
    exact (prepare_Ok_settled fuel h h1 o v1 Hsettled E1).
Qed.

Lemma BaseGrammarNode_prepare_name (n : node) : name (BaseGrammarNode_prepare n).1 = name n.
Proof. unfold BaseGrammarNode_prepare. destruct (_prepared n); reflexivity. Qed.

(** A heap on which [prepare] has not run is settled. *)
Lemma nothing_prepared_settled (h : heap) :
  map_Forall (fun _ n => _prepared n = false) h -> settled h.
Proof.
  intros Hnone l n Hl Hprepared. specialize (Hnone l n Hl). simpl in Hnone.
  congruence.
Qed.

(** X17. On a heap in which every reference points to a node ([closed]) and
    the sub-nodes of every prepared node are prepared ([settled]), as it is
    when no node has been prepared yet, creating a grammar class returns,
    given fuel for each node that is not prepared, on a registry of Choice
    nodes, a different one under each name, whose special entries hold
    neither the name nor the node of a production; afterwards each production
    carries its rule name and is prepared, and so is every node reachable
    from a production.  Without [settled] the conclusion fails: an
    alternative appended to a production that is prepared already is never
    visited. *)
Theorem GrammarMeta_new_names_and_prepares (fuel : nat) (d : GrammarDict) (h : heap) :
  closed h ->
  settled h ->
  registry_wf d h ->
  (forall e p, e ∈ special d -> p ∈ productions d -> e.1 <> p.1 /\ e.2 <> p.2) ->
  size (unprepared h) <= fuel ->
  exists (h' : heap) (visited : list loc),
    GrammarMeta_new (S fuel) d h = Ok (h', visited)
    /\ forall k l, dict_get (productions d) k = Some l ->
         (exists n, h' !! l = Some n /\ name n = Some k /\ _prepared n = true)
         /\ forall x, reachable h' l x ->
              exists nx, h' !! x = Some nx /\ _prepared nx = true.
Proof.
  intros Hclosed Hsettled Hwf Hspecial Hsize. unfold GrammarMeta_new.
  pose proof (set_names_renamed (to_dict d) h) as Hren.
  set (h0 := fold_left set_name (to_dict d) h) in *.
  pose proof (renamed_closed h h0 Hren Hclosed) as Hclosed0.
  pose proof (renamed_settled h h0 Hren Hsettled) as Hsettled0.
  destruct Hwf as (Hopts & Hlocs & Hkeys).
  assert (Forall (fun o => is_Some (h0 !! o)) (snd <$> productions d)) as Hnodes.
  { apply Forall_fmap. eapply Forall_impl; [exact Hopts|].
    intros [k l] [os Hos]. simpl in *.
    destruct (options_of_Some h l os Hos) as (n & Hn & _).
    destruct (Hren l) as [nm E]. rewrite E, Hn. simpl. eauto. }
  destruct (prepare_each_resolves (prepare (S fuel)) fuel (prepare_resolves fuel)
              (snd <$> productions d) h0 Hclosed0 Hnodes) as (h' & visited & E & R).
  { rewrite (renamed_unprepared h h0 Hren). exact Hsize. }
  exists h', visited. split; [exact E|]. intros k l Hget.
  pose proof (dict_get_Some_elem _ _ _ Hget) as Hin.
  destruct (prepare_each_post (prepare (S fuel)) (prepare_Ok (S fuel)) _ _ _ _ E)
    as (_ & Hprepared & _).
  assert (prepared_at h' l = true) as Hl.
  { rewrite Forall_forall in Hprepared. apply Hprepared.
    apply list_elem_of_fmap. exists (k, l). auto. }
  pose proof (prepare_each_settled (S fuel) _ _ _ _ Hsettled0 E) as Hsettled'.
  split.
  - rewrite Forall_forall in Hopts. destruct (Hopts _ Hin) as [os Hos]. simpl in Hos.
    destruct (options_of_Some h l os Hos) as (n & Hn & _).
    destruct (set_names_named (to_dict d) h k l n Hn) as (n0 & Hn0 & Hname0).
    + intros [k' l'] Hin' Hl'. simpl in *. subst l'.
      destruct (to_dict_elem d _ Hin') as [Hp|Hs].
      * apply list_elem_of_lookup in Hp as [i Hi]. apply list_elem_of_lookup in Hin as [j Hj].
        assert (i = j) as ->.
        { apply (NoDup_lookup _ i j l Hlocs); rewrite list_lookup_fmap.
          - rewrite Hi. reflexivity.
          - rewrite Hj. reflexivity. }
        congruence.
      * destruct (Hspecial _ _ Hs Hin) as [_ Hne]. simpl in Hne. contradiction.
    + apply to_dict_production; [exact Hin|].
      intros e He. exact (proj1 (Hspecial e (k, l) He Hin)).
    + apply prepared_at_true in Hl as (n' & Hn' & Hp'). exists n'.
      split; [exact Hn'|]. split; [|exact Hp'].
      pose proof R as (_ & _ & Hlook). rewrite Hlook in Hn'. fold h0 in Hn0.
      rewrite Hn0 in Hn'. simpl in Hn'. injection Hn' as <-.
      destruct (decide (l ∈ visited)); [|exact Hname0].
      rewrite BaseGrammarNode_prepare_name. exact Hname0.
  - intros x Hx. apply prepared_at_true.
    exact (settled_reachable h' l x Hsettled' Hl Hx).
Qed.

Lemma GrammarMeta_new_names_and_prepares_witness :
  exists (h' : heap) (visited : list loc),
    GrammarMeta_new 18 IntArray_registry IntArray.objects = Ok (h', visited)
    /\ exists n, h' !! 3 = Some n /\ name n = Some "array" /\ _prepared n = true.
Proof.
  assert (closed IntArray.objects) as Hclosed
    by (apply (bool_decide_unpack _); vm_compute; exact I).
  assert (settled IntArray.objects) as Hsettled
    by (apply (bool_decide_unpack _); vm_compute; exact I).
  assert (size (unprepared IntArray.objects) <= 17) as Hsize by (vm_compute; lia).
  assert (registry_wf IntArray_registry IntArray.objects) as Hwf.
  { split; [|split].
    - repeat constructor; simpl; eexists; reflexivity.
    - repeat constructor; intros H;
        repeat (apply elem_of_cons in H as [H|H]; [discriminate H|]); inversion H.
    - repeat constructor; intros H;
        repeat (apply elem_of_cons in H as [H|H]; [discriminate H|]); inversion H. }
  destruct (GrammarMeta_new_names_and_prepares 17 IntArray_registry IntArray.objects
              Hclosed Hsettled Hwf) as (h' & visited & E & Hall).
  - intros e p He Hp.
    repeat (apply elem_of_cons in He as [->|He]);
      repeat (apply elem_of_cons in Hp as [->|Hp]);
      try (split; discriminate); try inversion He; inversion Hp.
  - exact Hsize.
  - exists h', visited. split; [exact E|].
    destruct (Hall "array" 3 eq_refl) as [Hnode _]. exact Hnode.
Defined.

(** X18. Creating a class over productions that are all prepared already,
    as those a class inherits from its bases are, prepares nothing: it only
    names nodes.  A node that is not prepared stays so, and that includes
    an alternative the class body appended to an inherited production. *)
Theorem GrammarMeta_new_skips_prepared_productions (fuel : nat) (d : GrammarDict)
    (h : heap) :
  Forall (fun entry : string * loc => prepared_at h entry.2 = true) (productions d) ->
  exists h' : heap,
    GrammarMeta_new (S fuel) d h = Ok (h', [])
    /\ forall x, prepared_at h' x = prepared_at h x.
Proof.
  intros Hall. unfold GrammarMeta_new.
  pose proof (set_names_renamed (to_dict d) h) as Hren.
  set (h0 := fold_left set_name (to_dict d) h) in *.
  exists h0. split; [|intros x; apply renamed_prepared_at; exact Hren].
  assert (Forall (fun o => prepared_at h0 o = true) (snd <$> productions d)) as Hall0.
  { apply Forall_fmap. eapply Forall_impl; [exact Hall|].
    intros entry He. simpl in *. rewrite (renamed_prepared_at h h0 _ Hren). exact He. }
  induction Hall0 as [|o os Ho _ IH]; [reflexivity|].
  apply prepared_at_true in Ho as (n & Hn & Hp).
  cbn [prepare_each]. rewrite (prepare_prepared h0 o n fuel Hn Hp), IH. reflexivity.
Qed.

Lemma GrammarMeta_new_skips_prepared_productions_witness :
  exists h' : heap,
    GrammarMeta_new 1 IntArray_registry
      (<[19 := new_node (Symbol "x")]> IntArray.grammar) = Ok (h', [])
    /\ prepared_at h' 19 = false.
Proof.
  destruct (GrammarMeta_new_skips_prepared_productions 0 IntArray_registry
              (<[19 := new_node (Symbol "x")]> IntArray.grammar)) as (h' & E & Hsame).
  - repeat constructor.
  - exists h'. split; [exact E|]. rewrite Hsame. reflexivity.
Defined.

Lemma dict_get_update {V : Type} (base acc : list (string * V)) (key : string) :
  NoDup (fst <$> base) ->
  dict_get (fold_left (fun acc entry => dict_set acc entry.1 entry.2) base acc) key
  = match dict_get base key with
    | Some v => Some v
    | None => dict_get acc key
    end.
Proof.
  revert acc. induction base as [|[k v] base IH]; intros acc Hnd; [reflexivity|].
  inversion Hnd as [|? ? Hk Hnd']; subst. simpl. rewrite (IH _ Hnd').
  destruct (String.eqb_spec k key) as [->|Hne].
  - destruct (dict_get base key) as [v'|] eqn:Hget.
    + destruct Hk. apply list_elem_of_fmap. exists (key, v').
      split; [reflexivity|]. apply dict_get_Some_elem. exact Hget.
    + apply dict_get_set_eq.
  - destruct (dict_get base key); [reflexivity|]. apply dict_get_set_ne. exact Hne.
Qed.

(** X19. The registry of a new class holds the productions of its bases,
    the very nodes and not copies of them; a rule name that several bases
    define refers to the node of the last of these bases, and a name that no
    base defines is not in the registry. *)
Theorem GrammarMeta_prepare_last_base_wins (bases : list (list (string * loc)))
    (key : string) :
  Forall (fun base => NoDup (fst <$> base)) bases ->
  dict_get (productions (GrammarMeta_prepare bases)) key
  = last_present (map (fun base => dict_get base key) bases)
  /\ special (GrammarMeta_prepare bases) = [].
Proof.
  intros Hbases. split; [|reflexivity]. unfold GrammarMeta_prepare. simpl.
  assert (forall acc,
            dict_get (fold_left
                        (fun acc base =>
                           fold_left (fun acc entry => dict_set acc entry.1 entry.2) base acc)
                        bases acc) key
            = match last_present (map (fun base => dict_get base key) bases) with
              | Some v => Some v
              | None => dict_get acc key
              end) as Hfold.
  { induction Hbases as [|base bases Hbase _ IH]; intros acc; [reflexivity|].
    simpl. rewrite IH.
    destruct (last_present (map (fun base => dict_get base key) bases));
      [reflexivity|].
    apply dict_get_update. exact Hbase. }
  rewrite Hfold. destruct (last_present _); reflexivity.
Qed.

Lemma GrammarMeta_prepare_last_base_wins_witness :
  dict_get (productions (GrammarMeta_prepare
                           [[("int", 0); ("ws", 1)]; [("ws", 5); ("item", 2)]])) "ws"
  = Some 5.
Proof.
  destruct (GrammarMeta_prepare_last_base_wins
              [[("int", 0); ("ws", 1)]; [("ws", 5); ("item", 2)]] "ws") as [Hget _].
  - repeat constructor; intros H;
      repeat (apply elem_of_cons in H as [H|H]; [discriminate H|]); inversion H.
  - exact Hget.
Defined.

(** ** Repetition of a literal *)

Lemma literal_drains (h : heap) (base : loc) (nb : node) (s t : string) :
  h !! base = Some nb -> cls nb = Symbol s ->
  drains h (parse base t) (literal_results nb s t).
Proof.
  intros Hb Hcls. exists 1. unfold literal_results.
  destruct (startswith t s) eqn:E; simpl; rewrite Hb, Hcls, E; reflexivity.
Qed.

Section LiteralRepetition.

Variables (self nb : node) (s rest : string) (mi : nat) (ma : option nat).
Hypothesis Hrest : startswith rest s = false.

Local Abbreviation b := (literal_match nb s).

Lemma literal_results_rest : literal_results nb s rest = [].
Proof. unfold literal_results. rewrite Hrest. reflexivity. Qed.

Lemma literal_results_copies (n : nat) :
  literal_results nb s (String.append (copies s (S n)) rest)
  = [(b, String.append (copies s n) rest)].
Proof.
  unfold literal_results. cbn [copies]. rewrite append_assoc.
  rewrite startswith_append, slice_from_append. reflexivity.
Qed.

Lemma extensions_literal (n : nat) :
  forall count acc depth,
    n < depth -> 1 <= count ->
    match ma with Some m => count <= m /\ mi <= m | None => True end ->
    extensions (literal_results nb s) self mi ma depth count acc
      (literal_results nb s (String.append (copies s n) rest))
    = Some (map (fun c => (_build self (acc ++ replicate (S c - count) b),
                           String.append (copies s (n + count - 1 - c)) rest))
              (seq (max mi count)
                 (S (match ma with
                     | None => count + n - 1
                     | Some m => min (count + n - 1) m
                     end) - max mi count))).
Proof.
  induction n as [|n IH]; intros count acc depth Hdepth Hcount Hbound;
    (destruct depth as [|depth]; [lia|]).
  - change (String.append (copies s 0) rest) with rest.
    rewrite literal_results_rest, extensions_nil.
    match goal with |- context [seq _ ?len] => replace len with 0 end;
      [reflexivity|].
    destruct ma as [m|]; lia.
  - rewrite literal_results_copies, extensions_cons, extensions_nil.
    destruct (Nat.ltb_spec count mi) as [Hlt|Hge].
    + cbn [orb]. rewrite (IH (S count) (acc ++ [b]) depth) by
        (first [lia | destruct ma as [m|]; [lia|exact I]]).
      destruct (Nat.leb_spec mi count) as [?|_]; [lia|].
      cbn [app]. rewrite app_nil_r. f_equal.
      replace (max mi (S count)) with (max mi count) by lia.
      replace (S count + n - 1) with (count + S n - 1) by lia.
      apply map_ext_in. intros c Hc. apply in_seq in Hc.
      replace (S c - count) with (S (S c - S count)) by lia.
      cbn [replicate]. rewrite <- app_assoc. cbn [app].
      replace (n + S count - 1 - c) with (S n + count - 1 - c) by lia. reflexivity.
    + cbn [orb]. destruct (Nat.leb_spec mi count) as [_|?]; [|lia].
      replace (max mi count) with count by lia.
      destruct (below_max ma count) eqn:Hbelow.
      * rewrite (IH (S count) (acc ++ [b]) depth).
        -- rewrite app_nil_r. cbn [app]. f_equal.
           replace (max mi (S count)) with (S count) by lia.
           replace (S count + n - 1) with (count + S n - 1) by lia.
           set (hi := match ma with
                      | Some m => min (count + S n - 1) m
                      | None => count + S n - 1
                      end).
           assert (count < S hi) as Hhi.
           { unfold hi. destruct ma as [m|]; simpl in Hbelow.
             - apply Nat.ltb_lt in Hbelow. lia.
             - lia. }
           replace (S hi - count) with (S (S hi - S count)) by lia.
           cbn [seq map]. f_equal.
           ++ replace (S count - count) with 1 by lia.
              replace (S n + count - 1 - count) with n by lia. reflexivity.
           ++ apply map_ext_in. intros c Hc. apply in_seq in Hc.
              replace (S c - count) with (S (S c - S count)) by lia.
              cbn [replicate]. rewrite <- app_assoc. cbn [app].
              replace (n + S count - 1 - c) with (S n + count - 1 - c) by lia.
              reflexivity.
        -- lia.
        -- lia.
        -- destruct ma as [m|]; [|exact I]. simpl in Hbelow.
           apply Nat.ltb_lt in Hbelow. lia.
      * destruct ma as [m|]; [|discriminate Hbelow]. simpl in Hbelow.
        apply Nat.ltb_ge in Hbelow.
        replace (min (count + S n - 1) m) with count by lia.
        replace (S count - count) with 1 by lia. cbn [seq map app].
        replace (S count - count) with 1 by lia.
        replace (S n + count - 1 - count) with n by lia. reflexivity.
Qed.

Lemma Repetition_order_literal (k : nat) :
  match ma with Some m => 1 <= m /\ mi <= m | None => True end ->
  Repetition_order (literal_results nb s) self mi ma (S k)
    (String.append (copies s k) rest)
  = Some (literal_repetitions self nb s rest mi ma k).
Proof.
  intros Hbound. unfold Repetition_order, literal_repetitions.
  rewrite (extensions_literal k 1 [] (S k)) by (try lia; exact Hbound).
  f_equal. f_equal.
  replace (match ma with
           | Some m => min (1 + k - 1) m
           | None => 1 + k - 1
           end) with (highest_count ma k)
    by (unfold highest_count; destruct ma; f_equal; lia).
  apply map_ext_in. intros c Hc. apply in_seq in Hc. cbn [app].
  replace (S c - 1) with c by lia. replace (k + 1 - 1 - c) with (k - c) by lia.
  reflexivity.
Qed.

End LiteralRepetition.

Lemma drains_Repetition_of_literal (h : heap) (l base : loc) (self nb : node)
    (s rest : string) (mi : nat) (ma : option nat) (k : nat) :
  h !! l = Some self -> cls self = Repetition base mi ma ->
  h !! base = Some nb -> cls nb = Symbol s ->
  startswith rest s = false ->
  match ma with Some m => 1 <= m /\ mi <= m | None => True end ->
  drains h (parse l (String.append (copies s k) rest))
    (literal_repetitions self nb s rest mi ma k).
Proof.
  intros Hl Hcls Hb Hclsb Hrest Hbound.
  apply (drains_Repetition_parse h l self base mi ma (literal_results nb s) Hl Hcls
           (fun t => literal_drains h base nb s t Hb Hclsb) (S k)).
  apply Repetition_order_literal; assumption.
Qed.

(** X20. A Repetition of a literal, with bounds [mi <= ma] and [ma >= 1] or
    with no upper bound, on a text that starts with exactly [k] copies of the
    literal, yields one match for each count from [mi] to the smaller of [k]
    and [ma], in increasing order, each leaving the text after that many
    copies, and nothing else: no count above [k] or [ma] and none below [mi];
    for [mi = 0] the first match is the empty one. *)
Theorem Repetition_of_literal_counts (h : heap) (l base : loc) (self nb : node)
    (s rest : string) (mi : nat) (ma : option nat) (k : nat) :
  h !! l = Some self ->
  cls self = Repetition base mi ma ->
  h !! base = Some nb ->
  cls nb = Symbol s ->
  startswith rest s = false ->
  match ma with Some m => 1 <= m /\ mi <= m | None => True end ->
  exists fuel,
    islice h fuel (S (length (literal_repetitions self nb s rest mi ma k)))
      (parse l (String.append (copies s k) rest))
    = Some (literal_repetitions self nb s rest mi ma k).
Proof. exact (drains_Repetition_of_literal h l base self nb s rest mi ma k). Qed.

Lemma Repetition_of_literal_counts_witness :
  literal_repetitions (Samples.anonymous false (Repetition 0 2 (Some 2)))
    (Samples.anonymous false (Symbol "a")) "a" "b" 2 (Some 2) 3
  = [(RInline [RStr "a"; RStr "a"], "ab")]
  /\ exists fuel,
       islice Samples.reps fuel 2 (parse 5 "aaab")
       = Some [(RInline [RStr "a"; RStr "a"], "ab")].
Proof.
  split; [reflexivity|].
  apply (Repetition_of_literal_counts Samples.reps 5 0
           (Samples.anonymous false (Repetition 0 2 (Some 2)))
           (Samples.anonymous false (Symbol "a")) "a" "b" 2 (Some 2) 3);
    try reflexivity.
  simpl. lia.
Defined.

(** X21. [node[n]] for a literal and a number [n >= 1] matches exactly [n]
    copies: on a text that starts with exactly [k] copies of the literal, the
    new node yields one match, of [n] copies, leaving the text after them,
    when [n <= k], and no match when [n > k]. *)
Theorem getitem_number_matches_exactly (h : heap) (base : loc) (nb : node)
    (s rest : string) (n k : nat) (l : loc) (h' : heap) :
  BaseGrammarNode_getitem h base (Single (Some n)) = Ok (l, h') ->
  1 <= n ->
  h !! base = Some nb ->
  cls nb = Symbol s ->
  startswith rest s = false ->
  exists fuel,
    islice h' fuel 2 (parse l (String.append (copies s k) rest))
    = Some (if n <=? k
            then [(_build (new_node (Repetition base n (Some n)))
                     (replicate n (_build nb [RStr s])),
                   String.append (copies s (k - n)) rest)]
            else []).
Proof.
  intros E Hn Hb Hcls Hrest.
  destruct (build_allocates h (Build_getitem base (Single (Some n))) l h' E)
    as (_ & _ & Hkeep).
  unfold BaseGrammarNode_getitem, Repetition_init in E.
  destruct (alloc_spec h _ l h' E) as (_ & Hnew & _).
  pose proof (drains_Repetition_of_literal h' l base
                (new_node (Repetition base n (Some n))) nb s rest n (Some n) k
                Hnew eq_refl (Hkeep base nb Hb) Hcls Hrest (conj Hn (le_n n)))
    as [fuel Hfuel].
  unfold literal_repetitions, highest_count in Hfuel.
  destruct (Nat.eqb_spec n 0) as [?|_]; [lia|].
  replace (max n 1) with n in Hfuel by lia. cbn [app] in Hfuel.
  destruct (Nat.leb_spec n k) as [Hle|Hgt].
  - replace (S (min k n) - n) with 1 in Hfuel by lia. exists fuel. exact Hfuel.
  - replace (S (min k n) - n) with 0 in Hfuel by lia. cbn [seq map length] in Hfuel.
    rewrite islice_S in Hfuel. exists fuel. rewrite islice_S.
    destruct (next h' fuel (parse l (String.append (copies s k) rest)));
      try discriminate Hfuel; reflexivity.
Qed.

Lemma getitem_number_matches_exactly_witness :
  BaseGrammarNode_getitem Letters.letter 0 (Single (Some 2))
  = Ok (1, <[1 := new_node (Repetition 0 2 (Some 2))]> Letters.letter)
  /\ exists fuel,
       islice (<[1 := new_node (Repetition 0 2 (Some 2))]> Letters.letter) fuel 2
         (parse 1 "aaab")
       = Some [(RTree "<unnamed node>"
                  [RTree "<unnamed node>" [RStr "a"]; RTree "<unnamed node>" [RStr "a"]],
                "ab")].
Proof.
  split; [reflexivity|].
  apply (getitem_number_matches_exactly Letters.letter 0
           {| name := None; discard := Some false; inline := None;
              _prepared := false; cls := Symbol "a" |}
           "a" "b" 2 3 1 (<[1 := new_node (Repetition 0 2 (Some 2))]> Letters.letter));
    try reflexivity.
  lia.
Defined.
